(** * InformationRetrievalEvaluator: a shallow embedding

    This development embeds
    [sentence_transformers/evaluation/InformationRetrievalEvaluator.py]
    and states its specification against the embedded code.

    Conventions of the embedding.
    - A Python [dict] whose iteration order matters ([queries], [corpus]) is
      an association list in insertion order; [relevant_docs] is a finite map
      from query ids to finite sets of corpus ids.
    - Python exceptions are values of [pyerr]; a computation that can raise
      lives in the [result] monad.
    - Finite floating-point numbers are read as the rationals they denote and
      arithmetic on them is exact; the three non-finite values are kept apart
      in [npfloat] up to the call of [np.nan_to_num]. The value the code
      computes is the float nearest to the rational given here: equations
      between a reported value and a closed form are read up to that
      rounding, and an order between two reported values is stated only where
      both are computed by the same sequence of operations on pointwise
      ordered operands, so that monotone rounding keeps it.
    - The files under the output path are a [filesystem]: the lines of each
      file, and the paths that [open] cannot open for writing.
    - Chunk sizes and k values are naturals (sizes and cut-offs). *)

From Stdlib Require Import QArith Lia Lqa Sorted Ascii.
From stdpp Require Import base option list strings gmap pretty sorting.

Local Open Scope Z_scope.
Local Open Scope nat_scope.

(** ** Python exceptions and the error monad *)

Inductive value_error : Set :=
| MaxEmptySequence      (* max() arg is an empty sequence *)
| RangeStepZero         (* range() arg 3 must not be zero *)
| KthOutOfBounds.       (* kth(=k) out of bounds (n)      *)

(** The subclasses of [OSError] that [open(path, mode)] raises for a path it
    cannot open for writing. *)
Inductive os_error : Set :=
| FileNotFoundError     (* No such file or directory *)
| PermissionError       (* Permission denied         *)
| IsADirectoryError.    (* Is a directory            *)

Inductive pyerr : Set :=
| ValueError (why : value_error)
| TypeError
| ZeroDivisionError
| IndexError
| KeyError
| OSError (why : os_error).

Inductive result (A : Type) : Type :=
| Ok (a : A)
| Raise (e : pyerr).
Arguments Ok {A} a.
Arguments Raise {A} e.

#[global] Instance result_ret : MRet result := fun A a => Ok a.
#[global] Instance result_bind : MBind result := fun A B f m =>
  match m with
  | Ok a => f a
  | Raise e => Raise e
  end.

Definition is_ok {A} (r : result A) : bool :=
  match r with Ok _ => true | Raise _ => false end.

(** A [for] loop whose body can raise: the state is threaded from left to
    right and the first exception aborts the loop. *)
Fixpoint for_each {A S : Type} (body : A -> S -> result S) (l : list A) (s : S)
  : result S :=
  match l with
  | [] => Ok s
  | x :: l' => s' ← body x s; for_each body l' s'
  end.

(** ** Python built-ins used by the evaluator *)

(** [max(l)] on a list of integers. *)
Definition py_max (l : list nat) : result nat :=
  match l with
  | [] => Raise (ValueError MaxEmptySequence)
  | x :: l' => Ok (foldl Nat.max x l')
  end.

(** [range(0, n, step)] as the list of its values. *)
Definition py_range (n step : nat) : result (list nat) :=
  match step with
  | 0 => Raise (ValueError RangeStepZero)
  | S _ => Ok (map (fun i => i * step) (seq 0 ((n + step - 1) / step)))
  end.

(** [l[a:b]] for [0 <= a] and [0 <= b]. *)
Definition slice {A} (a b : nat) (l : list A) : list A :=
  take (b - a) (drop a l).

(** [l[i]] for [0 <= i]. *)
Definition py_index {A} (l : list A) (i : nat) : result A :=
  match l !! i with
  | Some x => Ok x
  | None => Raise IndexError
  end.

(** [d[k]] on a dict, and the in-place update [d[k] = f(d[k])] that the
    augmented assignments and [d[k].append(..)] perform. *)
Definition dict_get {V} (d : gmap nat V) (k : nat) : result V :=
  match d !! k with
  | Some v => Ok v
  | None => Raise KeyError
  end.

Definition dict_update {V} (f : V -> V) (k : nat) (d : gmap nat V)
  : result (gmap nat V) :=
  v ← dict_get d k; Ok (<[k := f v]> d).

(** [{k: v0 for k in ks}]. *)
Definition dict_init {V} (v0 : V) (ks : list nat) : gmap nat V :=
  foldl (fun d k => <[k := v0]> d) ∅ ks.

(** Lookup in an insertion-ordered dict. *)
Fixpoint odict_get (d : list (string * string)) (k : string) : option string :=
  match d with
  | [] => None
  | (k', v) :: d' => if decide (k' = k) then Some v else odict_get d' k
  end.

(** ** The evaluator object *)

Record InformationRetrievalEvaluator : Type := {
  queries_ids : list string;
  queries : list string;
  corpus_ids : list string;
  corpus : list string;
  relevant_docs : gmap string (gset string);
  query_chunk_size : nat;
  corpus_chunk_size : nat;
  mrr_at_k : list nat;
  ndcg_at_k : list nat;
  accuracy_at_k : list nat;
  precision_recall_at_k : list nat;
  batch_size : nat;
  name : string;
  csv_file : string;
  csv_headers : list string
}.

(** [qid in relevant_docs and len(relevant_docs[qid]) > 0] *)
Definition has_relevant (relevant_docs : gmap string (gset string))
    (qid : string) : bool :=
  match relevant_docs !! qid with
  | Some docs => bool_decide (0 < size docs)
  | None => false
  end.

(** The loop of lines 36-39: ids are appended one at a time. *)
Definition init_queries_ids (queries : list (string * string))
    (relevant_docs : gmap string (gset string)) : list string :=
  foldl (fun ids qid => if has_relevant relevant_docs qid
                        then ids ++ [qid] else ids)
        [] (map fst queries).

(** ["Metric@{}".format(k)] *)
Definition at_k (metric : string) (k : nat) : string :=
  metric +:+ "@" +:+ pretty k.

(** The loops of lines 61-75. *)
Definition init_csv_headers (mrr_at_k ndcg_at_k accuracy_at_k
    precision_recall_at_k : list nat) : list string :=
  let h := ["epoch"; "steps"] in
  let h := foldl (fun h k => h ++ [at_k "Accuracy" k]) h accuracy_at_k in
  let h := foldl (fun h k => (h ++ [at_k "Precision" k]) ++ [at_k "Recall" k])
                 h precision_recall_at_k in
  let h := foldl (fun h k => h ++ [at_k "MRR" k]) h mrr_at_k in
  let h := foldl (fun h k => h ++ [at_k "NDCG" k]) h ndcg_at_k in
  h.

(** [InformationRetrievalEvaluator.__init__] *)
Definition init (queries corpus : list (string * string))
    (relevant_docs : gmap string (gset string))
    (query_chunk_size corpus_chunk_size : nat)
    (mrr_at_k ndcg_at_k accuracy_at_k precision_recall_at_k : list nat)
    (batch_size : nat) (name : string) : InformationRetrievalEvaluator :=
  let queries_ids := init_queries_ids queries relevant_docs in
  let corpus_ids := map fst corpus in
  let suffix := if decide (name = "") then "" else "_" +:+ name in
  {| queries_ids := queries_ids;
     queries := omap (odict_get queries) queries_ids;
     corpus_ids := corpus_ids;
     corpus := omap (odict_get corpus) corpus_ids;
     relevant_docs := relevant_docs;
     query_chunk_size := query_chunk_size;
     corpus_chunk_size := corpus_chunk_size;
     mrr_at_k := mrr_at_k;
     ndcg_at_k := ndcg_at_k;
     accuracy_at_k := accuracy_at_k;
     precision_recall_at_k := precision_recall_at_k;
     batch_size := batch_size;
     name := name;
     csv_file := "Information-Retrieval_evaluation" +:+ suffix +:+ "_results.csv";
     csv_headers := init_csv_headers mrr_at_k ndcg_at_k accuracy_at_k
                      precision_recall_at_k |}.

(** ** Numbers *)

(** A floating-point value as numpy sees it before [np.nan_to_num]. *)
Inductive npfloat : Set :=
| FFinite (q : Q)
| FNaN
| FPosInf
| FNegInf.

(** The value of [dcg] in [compute_dcg_at_k]: the Python int it starts as,
    or the numpy float it becomes with the first [+=]. *)
Inductive pyval : Set :=
| PyInt (z : Z)
| NpFloat (q : Q).

Definition pyval_Q (v : pyval) : Q :=
  match v with
  | PyInt z => inject_Z z
  | NpFloat q => q
  end.

Definition Qnat (n : nat) : Q := inject_Z (Z.of_nat n).

(** [a / b] on two Python ints. *)
Definition int_truediv (a b : nat) : result Q :=
  if decide (b = 0) then Raise ZeroDivisionError else Ok (Qnat a / Qnat b)%Q.

(** [a / b] as line 163 meets it. Two Python ints divide with
    [ZeroDivisionError]; as soon as one operand is a numpy float, numpy
    divides and does not raise. With a float numerator and a zero denominator
    numpy yields a non-finite value, which [Q] cannot hold: [Qdiv] gives 0
    there (see [score_query_ideal_dcg_float] for why line 163 never meets
    that case). *)
Definition pyval_truediv (a b : pyval) : result Q :=
  match a, b with
  | PyInt x, PyInt y =>
      if decide (y = 0%Z) then Raise ZeroDivisionError
      else Ok (inject_Z x / inject_Z y)%Q
  | _, _ => Ok (pyval_Q a / pyval_Q b)%Q
  end.

Definition Qsum (l : list Q) : Q := foldl Qplus 0%Q l.

(** [np.mean(l)]; of an empty list numpy returns nan with a warning, here 0
    (the evaluator raises before it takes the mean of an empty list, see
    [average]). *)
Definition np_mean (l : list Q) : Q := (Qsum l / Qnat (length l))%Q.

(** ** Scored hits *)

Record hit : Type := { corpus_id : string; score : Q }.

(** [sorted(l, key=lambda x: x['score'], reverse=True)]: a stable sort into
    descending order of score, hits of equal score keeping their order. *)
Fixpoint insert_desc (x : hit) (l : list hit) : list hit :=
  match l with
  | [] => [x]
  | y :: l' =>
      if Qlt_le_dec (score x) (score y) then y :: insert_desc x l' else x :: l
  end.

Definition sorted_desc (l : list hit) : list hit := foldr insert_desc [] l.

Definition is_relevant (docs : gset string) (h : hit) : bool :=
  bool_decide (corpus_id h ∈ docs).

(** The rank of the first relevant hit, counting from [rank]. *)
Fixpoint first_relevant (docs : gset string) (hits : list hit) (rank : nat)
  : option nat :=
  match hits with
  | [] => None
  | h :: hits' =>
      if is_relevant docs h then Some rank
      else first_relevant docs hits' (S rank)
  end.

(** ** Accumulators and reports *)

Record accumulators : Type := {
  num_hits_at_k : gmap nat nat;
  precisions_at_k : gmap nat (list Q);
  recall_at_k : gmap nat (list Q);
  MRR : gmap nat Q;
  ndcg : gmap nat (list Q)
}.

(** The dicts after line 180: every value is a number. *)
Record metrics : Type := {
  accuracy_avg : gmap nat Q;
  precision_avg : gmap nat Q;
  recall_avg : gmap nat Q;
  mrr_avg : gmap nat Q;
  ndcg_avg : gmap nat Q
}.

Inductive cell : Type :=
| CInt (z : Z)
| CNum (q : Q).

Inductive csv_line : Type :=
| Header (columns : list string)
| Row (cells : list cell).

(** The files a call can see: the lines of each regular file, by path, and
    the paths that [open] cannot open for writing (a missing directory, a
    directory, a file without write permission), each with the exception
    [open] raises for it. [fs !! path] is the content of the file at [path],
    if there is one. *)
Record filesystem : Type := {
  contents : gmap string (list csv_line);
  unopenable : gmap string os_error
}.

#[global] Instance filesystem_lookup : Lookup string (list csv_line) filesystem :=
  fun path fs => contents fs !! path.

#[global] Instance filesystem_empty : Empty filesystem :=
  {| contents := ∅; unopenable := ∅ |}.

#[global] Instance filesystem_insert : Insert string (list csv_line) filesystem :=
  fun path lines fs =>
    {| contents := <[path := lines]> (contents fs);
       unopenable := unopenable fs |}.

(** [open(path, mode)] for writing or appending. *)
Definition py_open (fs : filesystem) (path : string) : result unit :=
  match unopenable fs !! path with
  | Some e => Raise (OSError e)
  | None => Ok tt
  end.

(** [s.startswith('/')] and [s.endswith('/')]. *)
Definition starts_with_sep (s : string) : bool :=
  match s with
  | String c _ => bool_decide (c = "/"%char)
  | EmptyString => false
  end.

Fixpoint ends_with_sep (s : string) : bool :=
  match s with
  | EmptyString => false
  | String c EmptyString => bool_decide (c = "/"%char)
  | String _ s' => ends_with_sep s'
  end.

(** [os.path.join(a, b)] ([posixpath.join]): [b] alone when it is absolute,
    [a + b] when [a] is empty or ends with the separator, and [a + '/' + b]
    otherwise. *)
Definition path_join (a b : string) : string :=
  if starts_with_sep b then b
  else if bool_decide (a = "") || ends_with_sep a then a +:+ b
  else a +:+ "/" +:+ b.

Record outcome : Type := {
  returned : Q;
  reported : metrics;
  files : filesystem
}.

(** ** The evaluation operation *)

Section Call.

(** The model under evaluation: [model.encode] maps a list of texts to the
    list of their embeddings, in order. *)
Variable Emb : Type.
Variable encode : string -> Emb.

(** Modelled from the spec: [sentence_transformers.util.pytorch_cos_sim] is
    not among the sources; it yields "the dense cosine-similarity matrix
    between the query-chunk embeddings and the corpus-chunk embeddings (rows
    = queries in chunk, columns = documents in chunk)". [cos a b] is the
    entry for the embeddings [a] and [b]. *)
Variable cos : Emb -> Emb -> npfloat.

Definition pytorch_cos_sim (a b : list Emb) : list (list npfloat) :=
  map (fun x => map (cos x) b) a.

(** numpy. [fmax] is the largest finite value of the array's float type;
    [argpartition a kth] is [np.argpartition] on one row, for a valid
    [kth]; [np_log2 n] is [np.log2(n)]. *)
Variable fmax : Q.
Variable argpartition : list Q -> nat -> list nat.
Variable np_log2 : nat -> Q.

(** [np.nan_to_num] with its default arguments. *)
Definition nan_to_num (x : npfloat) : Q :=
  match x with
  | FFinite q => q
  | FNaN => 0%Q
  | FPosInf => fmax
  | FNegInf => (- fmax)%Q
  end.

(** [kth] as [np.argpartition] reads it, for an array of [size] elements
    with [columns] columns. numpy turns the Python int into an integer array
    and casts it to a C [intp] (64 bits): an int that fits is read as itself;
    one of [2^63, 2^64) makes a [uint64] array and wraps around in the cast;
    a larger one makes no integer array and is refused ([TypeError]). An
    array has fewer than [2^63] columns, so a [kth] below the number of
    columns fits. A negative value then counts from the last column, and
    unless the array is empty the result must index a column. *)
Definition intp_kth (size columns kth : nat) : result nat :=
  z ← (if decide (kth < columns ∨ (Z.of_nat kth < 2 ^ 63)%Z)
       then Ok (Z.of_nat kth)
       else if decide (Z.of_nat kth < 2 ^ 64)%Z
       then Ok (Z.of_nat kth - 2 ^ 64)%Z
       else Raise TypeError);
  let z := if decide (z < 0)%Z then (z + Z.of_nat columns)%Z else z in
  if decide (size ≠ 0 ∧ (z < 0 ∨ Z.of_nat columns <= z)%Z)
  then Raise (ValueError KthOutOfBounds)
  else Ok (Z.to_nat z).

(** [np.argpartition(a, kth)] on a matrix, along its last axis. *)
Definition np_argpartition (a : list (list Q)) (kth : nat)
  : result (list (list nat)) :=
  let columns := match a with [] => 0 | row :: _ => length row end in
  k ← intp_kth (length a * columns) columns kth;
  Ok (map (fun row => argpartition row k) a).

(** [compute_dcg_at_k], lines 232-236. *)
Definition compute_dcg_at_k (relevances : list nat) (k : nat) : result pyval :=
  for_each (fun i dcg =>
              r ← py_index relevances i;
              Ok (NpFloat (pyval_Q dcg + Qnat r / np_log2 (i + 2))%Q))
           (seq 0 (length relevances `min` k)) (PyInt 0).

Variable self : InformationRetrievalEvaluator.

(** Line 85. *)
Definition compute_max_k : result nat :=
  a ← py_max (mrr_at_k self);
  b ← py_max (ndcg_at_k self);
  c ← py_max (accuracy_at_k self);
  d ← py_max (precision_recall_at_k self);
  Ok (Nat.max (Nat.max (Nat.max a b) c) d).

(** Lines 92-97. *)
Definition init_accumulators : accumulators :=
  {| num_hits_at_k := dict_init 0 (accuracy_at_k self);
     precisions_at_k := dict_init [] (precision_recall_at_k self);
     recall_at_k := dict_init [] (precision_recall_at_k self);
     MRR := dict_init 0%Q (mrr_at_k self);
     ndcg := dict_init [] (ndcg_at_k self) |}.

(** Lines 119-123 for one row: the selected columns of a corpus chunk are
    appended to the candidates of the query. *)
Definition append_hits (corpus_start_idx : nat) (scores : list Q)
    (selected : list nat) (candidates : list hit) : result (list hit) :=
  for_each (fun sub_corpus_id candidates =>
              cid ← py_index (corpus_ids self) (corpus_start_idx + sub_corpus_id);
              s ← py_index scores sub_corpus_id;
              Ok (candidates ++ [{| corpus_id := cid; score := s |}]))
           selected candidates.

(** Lines 112-113: the score matrix of a query chunk and a corpus chunk. *)
Definition chunk_cos_scores (query_chunk corpus_chunk : list Emb)
  : list (list Q) :=
  map (map nan_to_num) (pytorch_cos_sim query_chunk corpus_chunk).

(** Lines 108-123: one corpus chunk. *)
Definition corpus_chunk (max_k : nat) (query_chunk : list Emb)
    (corpus_embeddings : list Emb) (corpus_start_idx : nat)
    (queries_result_list : list (list hit)) : result (list (list hit)) :=
  let corpus_end_idx :=
    (corpus_start_idx + corpus_chunk_size self) `min` length corpus_embeddings in
  let cos_scores :=
    chunk_cos_scores query_chunk
      (slice corpus_start_idx corpus_end_idx corpus_embeddings) in
  partition ← np_argpartition (map (map Qopp) cos_scores) max_k;
  let cos_score_argpartition := map (slice 0 max_k) partition in
  for_each (fun query_itr queries_result_list =>
              selected ← py_index cos_score_argpartition query_itr;
              scores ← py_index cos_scores query_itr;
              candidates ← py_index queries_result_list query_itr;
              candidates ← append_hits corpus_start_idx scores selected candidates;
              Ok (<[query_itr := candidates]> queries_result_list))
           (seq 0 (length cos_scores)) queries_result_list.

(** Lines 134-138: the loop stops at the first relevant hit. *)
Definition accuracy_step (top_hits : list hit) (docs : gset string)
    (k_val : nat) (num_hits : gmap nat nat) : result (gmap nat nat) :=
  match first_relevant docs (slice 0 k_val top_hits) 0 with
  | Some _ => dict_update S k_val num_hits
  | None => Ok num_hits
  end.

Definition num_correct (top_hits : list hit) (docs : gset string)
    (k_val : nat) : nat :=
  length (filter (fun h => is_relevant docs h) (slice 0 k_val top_hits)).

(** Lines 141-149. *)
Definition precision_recall_step (top_hits : list hit) (docs : gset string)
    (k_val : nat) (pr : gmap nat (list Q) * gmap nat (list Q))
  : result (gmap nat (list Q) * gmap nat (list Q)) :=
  l ← dict_get pr.1 k_val;
  p ← int_truediv (num_correct top_hits docs k_val) k_val;
  let precisions := <[k_val := l ++ [p]]> pr.1 in
  l ← dict_get pr.2 k_val;
  r ← int_truediv (num_correct top_hits docs k_val) (size docs);
  Ok (precisions, <[k_val := l ++ [r]]> pr.2).

(** Lines 152-156. *)
Definition mrr_step (top_hits : list hit) (docs : gset string)
    (k_val : nat) (mrr : gmap nat Q) : result (gmap nat Q) :=
  match first_relevant docs (slice 0 k_val top_hits) 0 with
  | Some rank => dict_update (fun m => m + 1 / Qnat (rank + 1))%Q k_val mrr
  | None => Ok mrr
  end.

(** Lines 159-164. *)
Definition ndcg_value (top_hits : list hit) (docs : gset string)
    (k_val : nat) : result Q :=
  let predicted_relevance :=
    map (fun top_hit => if is_relevant docs top_hit then 1 else 0)
        (slice 0 k_val top_hits) in
  let true_relevances := replicate (size docs) 1 in
  predicted ← compute_dcg_at_k predicted_relevance k_val;
  ideal ← compute_dcg_at_k true_relevances k_val;
  pyval_truediv predicted ideal.

Definition ndcg_step (top_hits : list hit) (docs : gset string)
    (k_val : nat) (nd : gmap nat (list Q)) : result (gmap nat (list Q)) :=
  v ← ndcg_value top_hits docs k_val;
  dict_update (fun l => l ++ [v]) k_val nd.

(** Lines 133-164: the metrics of one query are added to the accumulators. *)
Definition score_query (top_hits : list hit) (docs : gset string)
    (acc : accumulators) : result accumulators :=
  hits ← for_each (accuracy_step top_hits docs) (accuracy_at_k self)
                  (num_hits_at_k acc);
  pr ← for_each (precision_recall_step top_hits docs)
                (precision_recall_at_k self)
                (precisions_at_k acc, recall_at_k acc);
  mrr ← for_each (mrr_step top_hits docs) (mrr_at_k self) (MRR acc);
  nd ← for_each (ndcg_step top_hits docs) (ndcg_at_k self) (ndcg acc);
  Ok {| num_hits_at_k := hits; precisions_at_k := pr.1; recall_at_k := pr.2;
        MRR := mrr; ndcg := nd |}.

(** Lines 102-164: one query chunk. *)
Definition query_chunk (max_k : nat) (query_embeddings corpus_embeddings : list Emb)
    (query_start_idx : nat) (acc : accumulators) : result accumulators :=
  let query_end_idx :=
    (query_start_idx + query_chunk_size self) `min` length query_embeddings in
  let queries_result_list :=
    replicate (query_end_idx - query_start_idx) ([] : list hit) in
  starts ← py_range (length corpus_embeddings) (corpus_chunk_size self);
  queries_result_list ←
    for_each (corpus_chunk max_k
                (slice query_start_idx query_end_idx query_embeddings)
                corpus_embeddings)
             starts queries_result_list;
  for_each (fun query_itr acc =>
              query_id ← py_index (queries_ids self) (query_start_idx + query_itr);
              candidates ← py_index queries_result_list query_itr;
              let top_hits := sorted_desc candidates in
              query_relevant_docs ←
                match relevant_docs self !! query_id with
                | Some docs => Ok docs
                | None => Raise KeyError
                end;
              score_query top_hits query_relevant_docs acc)
           (seq 0 (length queries_result_list)) acc.

(** [d[k] /= n] for every key of [d]. *)
Definition dict_div {V} (toQ : V -> Q) (d : gmap nat V) (n : nat)
  : result (gmap nat Q) :=
  if decide (size d = 0) then Ok ∅
  else if decide (n = 0) then Raise ZeroDivisionError
  else Ok ((fun v => toQ v / Qnat n)%Q <$> d).

(** Lines 167-180. *)
Definition average (acc : accumulators) : result metrics :=
  hits ← dict_div Qnat (num_hits_at_k acc) (length (queries self));
  let precisions := np_mean <$> precisions_at_k acc in
  let recalls := np_mean <$> recall_at_k acc in
  let nd := np_mean <$> ndcg acc in
  mrr ← dict_div id (MRR acc) (length (queries self));
  Ok {| accuracy_avg := hits; precision_avg := precisions;
        recall_avg := recalls; mrr_avg := mrr; ndcg_avg := nd |}.

(** Lines 211-223. *)
Definition output_data (m : metrics) (epoch steps : Z) : result (list cell) :=
  let row := [CInt epoch; CInt steps] in
  row ← for_each (fun k row => v ← dict_get (accuracy_avg m) k;
                               Ok (row ++ [CNum v]))
                 (accuracy_at_k self) row;
  row ← for_each (fun k row => p ← dict_get (precision_avg m) k;
                               r ← dict_get (recall_avg m) k;
                               Ok ((row ++ [CNum p]) ++ [CNum r]))
                 (precision_recall_at_k self) row;
  row ← for_each (fun k row => v ← dict_get (mrr_avg m) k;
                               Ok (row ++ [CNum v]))
                 (mrr_at_k self) row;
  for_each (fun k row => v ← dict_get (ndcg_avg m) k; Ok (row ++ [CNum v]))
           (ndcg_at_k self) row.

(** Lines 201-227: the file is opened, for writing when it does not exist
    and for appending when it does, which raises for a path that cannot be
    opened; it gets its header when it is created, and one more row in any
    case. Writing to the opened file is taken to succeed. *)
Definition write_csv (output_path : string) (m : metrics) (epoch steps : Z)
    (fs : filesystem) : result filesystem :=
  let csv_path := path_join output_path (csv_file self) in
  fOut ← match fs !! csv_path with
         | None => _ ← py_open fs csv_path; Ok [Header (csv_headers self)]
         | Some lines => _ ← py_open fs csv_path; Ok lines
         end;
  row ← output_data m epoch steps;
  Ok (<[csv_path := fOut ++ [Row row]]> fs).

(** Lines 85-164: the accumulators once every query chunk is through. *)
Definition accumulate : result accumulators :=
  max_k ← compute_max_k;
  let query_embeddings := map encode (queries self) in
  let corpus_embeddings := map encode (corpus self) in
  starts ← py_range (length query_embeddings) (query_chunk_size self);
  for_each (query_chunk max_k query_embeddings corpus_embeddings)
           starts init_accumulators.

(** [InformationRetrievalEvaluator.__call__] *)
Definition call (fs : filesystem) (output_path : option string)
    (epoch steps : Z) : result outcome :=
  acc ← accumulate;
  m ← average acc;
  fs' ← match output_path with
        | Some dir => write_csv dir m epoch steps fs
        | None => Ok fs
        end;
  k ← py_max (mrr_at_k self);
  r ← dict_get (mrr_avg m) k;
  Ok {| returned := r; reported := m; files := fs' |}.

End Call.

Arguments pytorch_cos_sim {Emb} cos a b.
Arguments chunk_cos_scores {Emb} cos fmax query_chunk corpus_chunk.
Arguments corpus_chunk {Emb} cos fmax argpartition self max_k query_chunk
  corpus_embeddings corpus_start_idx queries_result_list.
Arguments query_chunk {Emb} cos fmax argpartition np_log2 self max_k
  query_embeddings corpus_embeddings query_start_idx acc.
Arguments accumulate {Emb} encode cos fmax argpartition np_log2 self.
Arguments call {Emb} encode cos fmax argpartition np_log2 self fs output_path
  epoch steps.

(** ** Layouts of the report file *)

(** A query is retained when [relevant_docs] maps it to a non-empty set. *)
Definition retained (relevant_docs : gmap string (gset string)) (qid : string)
  : Prop :=
  exists docs, relevant_docs !! qid = Some docs /\ docs <> ∅.

#[global] Instance retained_dec relevant_docs qid :
  Decision (retained relevant_docs qid).
Proof.
  unfold retained. destruct (relevant_docs !! qid) as [docs|].
  - destruct (decide (docs = ∅)) as [->|Hne].
    + right. intros (d & [= <-] & H). done.
    + left. eauto.
  - right. intros (d & [=] & _).
Defined.

(** The value a report holds for [k], as a cell. *)
Definition cell_at (d : gmap nat Q) (k : nat) : cell :=
  CNum (default 0%Q (d !! k)).

(** The columns as the code lays them out: precision and recall of one k
    side by side. *)
Definition paired_columns (accuracy_at_k precision_recall_at_k mrr_at_k
    ndcg_at_k : list nat) : list string :=
  ["epoch"; "steps"]
  ++ map (at_k "Accuracy") accuracy_at_k
  ++ flat_map (fun k => [at_k "Precision" k; at_k "Recall" k])
       precision_recall_at_k
  ++ map (at_k "MRR") mrr_at_k
  ++ map (at_k "NDCG") ndcg_at_k.

Definition paired_row (self : InformationRetrievalEvaluator) (m : metrics)
    (epoch steps : Z) : list cell :=
  [CInt epoch; CInt steps]
  ++ map (cell_at (accuracy_avg m)) (accuracy_at_k self)
  ++ flat_map (fun k => [cell_at (precision_avg m) k; cell_at (recall_avg m) k])
       (precision_recall_at_k self)
  ++ map (cell_at (mrr_avg m)) (mrr_at_k self)
  ++ map (cell_at (ndcg_avg m)) (ndcg_at_k self).

(** The columns family by family: every precision column before the first
    recall column. *)
Definition grouped_columns (accuracy_at_k precision_recall_at_k mrr_at_k
    ndcg_at_k : list nat) : list string :=
  ["epoch"; "steps"]
  ++ map (at_k "Accuracy") accuracy_at_k
  ++ map (at_k "Precision") precision_recall_at_k
  ++ map (at_k "Recall") precision_recall_at_k
  ++ map (at_k "MRR") mrr_at_k
  ++ map (at_k "NDCG") ndcg_at_k.

(** ** A concrete backend

    An instance of the numpy parameters that computes, for examples:
    [argsort] is a full stable sort of the column indices (one of the orders
    [np.argpartition] may return), [log2_fixed] is log2 rounded down to ten
    binary digits, [float32_max] the largest finite single-precision value.
    Embeddings are rationals and their "cosine" is the product. *)

Fixpoint insert_asc (x : Q * nat) (l : list (Q * nat)) : list (Q * nat) :=
  match l with
  | [] => [x]
  | y :: l' =>
      if Qlt_le_dec (fst y) (fst x) then y :: insert_asc x l' else x :: l
  end.

Definition argsort (a : list Q) (kth : nat) : list nat :=
  map snd (foldr insert_asc [] (zip a (seq 0 (length a)))).

Definition log2_fixed (n : nat) : Q :=
  (inject_Z (Z.log2 (Z.of_nat n ^ 1024)) / inject_Z 1024)%Q.

Definition float32_max : Q := inject_Z ((2 ^ 24 - 1) * 2 ^ 104).

Definition toy_encode (text : string) : Q :=
  if decide (text = "a") then 1%Q
  else if decide (text = "x") then (1 # 2)%Q
  else if decide (text = "y") then (3 # 4)%Q
  else (1 # 4)%Q.

Definition toy_cos (a b : Q) : npfloat := FFinite (a * b).

(** One query, three documents, the second one relevant. *)
Definition toy_evaluator (query_chunk_size corpus_chunk_size : nat)
    (mrr_at_k ndcg_at_k accuracy_at_k precision_recall_at_k : list nat)
  : InformationRetrievalEvaluator :=
  init [("q1", "a")] [("d1", "x"); ("d2", "y"); ("d3", "z")]
       {[ "q1" := {[ "d2" ]} ]}
       query_chunk_size corpus_chunk_size
       mrr_at_k ndcg_at_k accuracy_at_k precision_recall_at_k 16 "".

Definition toy_call (self : InformationRetrievalEvaluator)
    (output_path : option string) : result outcome :=
  call toy_encode toy_cos float32_max argsort log2_fixed self ∅ output_path
       (-1) (-1).

(** ** Metrics of one query *)

(** How often [k] occurs in a k-list. *)
Definition occurrences (k : nat) (ks : list nat) : nat :=
  length (filter (fun k' => k' = k) ks).

(** Some relevant hit is among the first [k]. *)
Definition hit_at (top_hits : list hit) (docs : gset string) (k : nat) : bool :=
  bool_decide (is_Some (first_relevant docs (take k top_hits) 0)).

Definition precision_at (top_hits : list hit) (docs : gset string) (k : nat) : Q :=
  (Qnat (num_correct top_hits docs k) / Qnat k)%Q.

Definition recall_at (top_hits : list hit) (docs : gset string) (k : nat) : Q :=
  (Qnat (num_correct top_hits docs k) / Qnat (size docs))%Q.

(** The reciprocal of the 1-indexed rank of the first relevant hit among the
    first [k], and 0 when there is none. *)
Definition reciprocal_rank (top_hits : list hit) (docs : gset string) (k : nat)
  : Q :=
  match first_relevant docs (take k top_hits) 0 with
  | Some rank => (1 / Qnat (rank + 1))%Q
  | None => 0%Q
  end.

(** Discounted cumulative gain in the words of the specification: the gain at
    0-indexed [rank] is weighted by [1 / log2(rank + 2)]. *)
Fixpoint dcg_from (np_log2 : nat -> Q) (rank : nat) (gains : list nat) : Q :=
  match gains with
  | [] => 0%Q
  | g :: gains' =>
      (Qnat g * (1 / np_log2 (rank + 2)%nat) + dcg_from np_log2 (S rank) gains')%Q
  end.

Definition dcg (np_log2 : nat -> Q) (gains : list nat) : Q :=
  dcg_from np_log2 0 gains.

(** Gain 1 at relevant positions of the first [k] hits. *)
Definition binary_relevance (top_hits : list hit) (docs : gset string) (k : nat)
  : list nat :=
  map (fun h => if is_relevant docs h then 1 else 0) (take k top_hits).

(** NDCG@k in the words of the specification: the DCG of the binary relevance
    of the first [k] hits over the DCG of as many ones as there are relevant
    documents, cut off at [k]. *)
Definition ndcg_at (np_log2 : nat -> Q) (top_hits : list hit)
    (docs : gset string) (k : nat) : Q :=
  (dcg np_log2 (binary_relevance top_hits docs k)
   / dcg np_log2 (take k (replicate (size docs) 1%nat)))%Q.

(** What one pass of a query does to the value under [k] in each
    accumulator. *)
Definition count_hit (top_hits : list hit) (docs : gset string) (k : nat)
    (n : nat) : nat :=
  if hit_at top_hits docs k then S n else n.

Definition snoc_precision (top_hits : list hit) (docs : gset string) (k : nat)
    (l : list Q) : list Q :=
  l ++ [precision_at top_hits docs k].

Definition snoc_recall (top_hits : list hit) (docs : gset string) (k : nat)
    (l : list Q) : list Q :=
  l ++ [recall_at top_hits docs k].

Definition add_reciprocal_rank (top_hits : list hit) (docs : gset string)
    (k : nat) (x : Q) : Q :=
  match first_relevant docs (take k top_hits) 0 with
  | Some rank => (x + 1 / Qnat (rank + 1))%Q
  | None => x
  end.

Definition snoc_ndcg (np_log2 : nat -> Q) (top_hits : list hit)
    (docs : gset string) (k : nat) (l : list Q) : list Q :=
  match ndcg_value np_log2 top_hits docs k with
  | Ok v => l ++ [v]
  | Raise _ => l
  end.

(** ** Candidates and top hits as values

    What the loops of lines 102-129 leave for one query when nothing raises:
    the hits selected in each corpus chunk, chunk after chunk, then sorted. *)

Section Hits.

Context {Emb : Type}.
Variable encode : string -> Emb.
Variable cos : Emb -> Emb -> npfloat.
Variable fmax : Q.
Variable argpartition : list Q -> nat -> list nat.
Variable self : InformationRetrievalEvaluator.
Variable max_k : nat.

(** The start indices of the corpus chunks. *)
Definition corpus_starts : list nat :=
  map (fun i => i * corpus_chunk_size self)
      (seq 0 ((length (corpus self) + corpus_chunk_size self - 1)
              / corpus_chunk_size self)).

(** The number of documents in the chunk that starts at [corpus_start_idx]. *)
Definition chunk_length (corpus_start_idx : nat) : nat :=
  (corpus_start_idx + corpus_chunk_size self) `min` length (corpus self)
  - corpus_start_idx.

(** The scores of one query against the chunk at [corpus_start_idx]. *)
Definition chunk_scores (q : Emb) (corpus_start_idx : nat) : list Q :=
  map (fun d => nan_to_num fmax (cos q d))
      (slice corpus_start_idx
         ((corpus_start_idx + corpus_chunk_size self) `min` length (corpus self))
         (map encode (corpus self))).

Definition row_hits (corpus_start_idx : nat) (scores : list Q)
    (selected : list nat) : list hit :=
  omap (fun sub_corpus_id =>
          cid ← corpus_ids self !! (corpus_start_idx + sub_corpus_id);
          s ← scores !! sub_corpus_id;
          Some {| corpus_id := cid; score := s |})
       selected.

(** The column [np.argpartition] partitions the chunk around: [max_k] as
    numpy reads it. *)
Definition selection_kth (corpus_start_idx : nat) : nat :=
  match intp_kth (chunk_length corpus_start_idx)
                 (chunk_length corpus_start_idx) max_k with
  | Ok k => k
  | Raise _ => max_k
  end.

(** Whether [np.argpartition] accepts [max_k] for every chunk of [starts], and
    the exception of the first chunk for which it does not. *)
Definition kth_checks (starts : list nat) : result unit :=
  for_each (fun start _ =>
              _ ← intp_kth (chunk_length start) (chunk_length start) max_k;
              Ok tt)
           starts tt.

Definition chunk_hits (q : Emb) (corpus_start_idx : nat) : list hit :=
  let scores := chunk_scores q corpus_start_idx in
  row_hits corpus_start_idx scores
           (slice 0 max_k (argpartition (map Qopp scores)
                                        (selection_kth corpus_start_idx))).

Definition candidates (q : Emb) : list hit :=
  flat_map (chunk_hits q) corpus_starts.

Definition top_hits_of (text : string) : list hit :=
  sorted_desc (candidates (encode text)).

Definition query_docs (qid : string) : gset string :=
  default ∅ (relevant_docs self !! qid).

(** Every retained query with its sorted candidates and its relevance set. *)
Definition scored_queries : list (list hit * gset string) :=
  zip_with (fun qid text => (top_hits_of text, query_docs qid))
           (queries_ids self) (queries self).

End Hits.

(** [l] with each element repeated [m] times in place. *)
Definition repeated {A} (m : nat) (l : list A) : list A :=
  flat_map (replicate m) l.

(** ** Assumptions on the inputs *)

(** What [init] guarantees of the object: texts and ids are aligned and every
    retained query has relevant documents. *)
Definition well_formed (self : InformationRetrievalEvaluator) : Prop :=
  length (queries self) = length (queries_ids self)
  /\ length (corpus self) = length (corpus_ids self)
  /\ forall qid, qid ∈ queries_ids self -> retained (relevant_docs self) qid.

(** [np.argpartition] returns indices of its argument. *)
Definition in_range (argpartition : list Q -> nat -> list nat) : Prop :=
  forall a kth j, kth < length a -> j ∈ argpartition a kth -> j < length a.

(** [np.argpartition(a, kth)] as numpy documents it: a permutation of the
    indices of [a] that puts the element of rank [kth] at position [kth], no
    larger element before it and no smaller element after it. *)
Definition partitions (argpartition : list Q -> nat -> list nat) : Prop :=
  forall a kth, kth < length a ->
    argpartition a kth ≡ₚ seq 0 (length a)
    /\ forall i j p x y,
         argpartition a kth !! i = Some j -> argpartition a kth !! kth = Some p ->
         a !! j = Some x -> a !! p = Some y ->
         (i < kth -> (x <= y)%Q) /\ (kth < i -> (y <= x)%Q).

(** ** The whole corpus as hits *)

(** Every document of the corpus as a hit for the query embedding [q]: its id
    with its cleaned similarity to [q]. *)
Definition all_hits {Emb} (encode : string -> Emb) (cos : Emb -> Emb -> npfloat)
    (fmax : Q) (self : InformationRetrievalEvaluator) (q : Emb) : list hit :=
  zip_with (fun cid d =>
              {| corpus_id := cid; score := nan_to_num fmax (cos q (encode d)) |})
           (corpus_ids self) (corpus self).

(** No two documents of the corpus have the same similarity to [q]. *)
Definition tie_free {Emb} (encode : string -> Emb) (cos : Emb -> Emb -> npfloat)
    (fmax : Q) (self : InformationRetrievalEvaluator) (q : Emb) : Prop :=
  NoDup ((fun h => Qred (score h)) <$> all_hits encode cos fmax self q).

(** * Properties *)

(** ** Loops *)

Lemma for_each_app {A S} (body : A -> S -> result S) l1 l2 s :
  for_each body (l1 ++ l2) s = (s' ← for_each body l1 s; for_each body l2 s').
Proof.
  revert s. induction l1 as [|x l1 IH]; intros s; simpl; [done|].
  destruct (body x s) as [s'|e]; simpl; [apply IH|done].
Qed.

Lemma for_each_ext {A S} (f g : A -> S -> result S) l s :
  (forall x s, x ∈ l -> f x s = g x s) -> for_each f l s = for_each g l s.
Proof.
  revert s. induction l as [|x l IH]; intros s Hfg; simpl; [done|].
  rewrite Hfg by left. destruct (g x s) as [s'|e]; simpl; [|done].
  apply IH. intros y t Hy. apply Hfg. by right.
Qed.

Lemma foldl_snoc_map {A B} (g : A -> B) (l : list A) (acc : list B) :
  foldl (fun h k => h ++ [g k]) acc l = acc ++ map g l.
Proof.
  revert acc. induction l as [|x l IH]; intros acc; simpl.
  - by rewrite app_nil_r.
  - rewrite IH. by rewrite <- app_assoc.
Qed.

Lemma foldl_snoc_pair {A B} (g1 g2 : A -> B) (l : list A) (acc : list B) :
  foldl (fun h k => (h ++ [g1 k]) ++ [g2 k]) acc l
  = acc ++ flat_map (fun k => [g1 k; g2 k]) l.
Proof.
  revert acc. induction l as [|x l IH]; intros acc; simpl.
  - by rewrite app_nil_r.
  - rewrite IH. by rewrite <- !app_assoc.
Qed.

Lemma bind_Ok {A B} (m : result A) (f : A -> result B) (b : B) :
  m ≫= f = Ok b <-> exists a, m = Ok a /\ f a = Ok b.
Proof.
  destruct m as [a|e]; simpl; split.
  - eauto.
  - by intros (a' & [= ->] & H).
  - done.
  - by intros (a' & [=] & _).
Qed.

(** Splits a successful sequence of binds into its successful steps. *)
Ltac inv_ok H :=
  repeat match type of H with
         | mbind _ ?m = Ok _ =>
             let a := fresh "a" in
             let Ha := fresh "Ha" in
             apply bind_Ok in H as (a & Ha & H)
         end.

(** ** Construction *)

Lemma has_relevant_retained relevant_docs qid :
  has_relevant relevant_docs qid = true <-> retained relevant_docs qid.
Proof.
  unfold has_relevant, retained.
  destruct (relevant_docs !! qid) as [docs|]; split.
  - intros H%bool_decide_eq_true. exists docs. split; [done|].
    intros ->. rewrite size_empty in H. lia.
  - intros (d & [= <-] & Hne). apply bool_decide_eq_true.
    destruct (decide (size docs = 0)) as [H0|]; [|lia].
    apply size_empty_iff in H0. by apply leibniz_equiv in H0.
  - done.
  - by intros (d & [=] & _).
Qed.

Lemma init_queries_ids_filter queries relevant_docs :
  init_queries_ids queries relevant_docs
  = filter (retained relevant_docs) (map fst queries).
Proof.
  unfold init_queries_ids.
  enough (forall l ids,
    foldl (fun ids qid => if has_relevant relevant_docs qid
                          then ids ++ [qid] else ids) ids l
    = ids ++ filter (retained relevant_docs) l) as H by apply (H _ []).
  induction l as [|qid l IH]; intros ids; simpl.
  - by rewrite app_nil_r.
  - rewrite IH. destruct (has_relevant relevant_docs qid) eqn:Hq.
    + apply has_relevant_retained in Hq. rewrite filter_cons_True by done.
      by rewrite <- app_assoc.
    + rewrite filter_cons_False; [done|].
      intros Hr%has_relevant_retained. congruence.
Qed.

(** C4. The retained query ids are the keys of [queries], in input order,
    that [relevant_docs] maps to a non-empty set; nothing else is kept and
    construction cannot raise ([init] is a total function). The corpus ids are
    all the keys of [corpus] in input order. *)
Theorem init_retains_queries_with_relevant_docs
    queries corpus relevant_docs query_chunk_size corpus_chunk_size
    mrr_at_k ndcg_at_k accuracy_at_k precision_recall_at_k batch_size name :
  let self := init queries corpus relevant_docs query_chunk_size
                corpus_chunk_size mrr_at_k ndcg_at_k accuracy_at_k
                precision_recall_at_k batch_size name in
  queries_ids self = filter (retained relevant_docs) (map fst queries)
  /\ corpus_ids self = map fst corpus.
Proof. simpl. split; [apply init_queries_ids_filter|done]. Qed.

(** ** The report file *)

Lemma init_csv_headers_paired mrr_at_k ndcg_at_k accuracy_at_k
    precision_recall_at_k :
  init_csv_headers mrr_at_k ndcg_at_k accuracy_at_k precision_recall_at_k
  = paired_columns accuracy_at_k precision_recall_at_k mrr_at_k ndcg_at_k.
Proof.
  unfold init_csv_headers, paired_columns.
  rewrite !foldl_snoc_map, foldl_snoc_pair. by rewrite <- !app_assoc.
Qed.

Lemma for_each_cells (d : gmap nat Q) ks row row' :
  for_each (fun k row => v ← dict_get d k; Ok (row ++ [CNum v])) ks row = Ok row' ->
  row' = row ++ map (cell_at d) ks.
Proof.
  revert row. induction ks as [|k ks IH]; intros row; simpl.
  - intros [= <-]. by rewrite app_nil_r.
  - unfold dict_get, cell_at at 1. destruct (d !! k) as [v|]; simpl; [|done].
    intros H%IH. by rewrite H, <- app_assoc.
Qed.

Lemma for_each_cell_pairs (d1 d2 : gmap nat Q) ks row row' :
  for_each (fun k row => p ← dict_get d1 k; r ← dict_get d2 k;
                         Ok ((row ++ [CNum p]) ++ [CNum r])) ks row = Ok row' ->
  row' = row ++ flat_map (fun k => [cell_at d1 k; cell_at d2 k]) ks.
Proof.
  revert row. induction ks as [|k ks IH]; intros row; simpl.
  - intros [= <-]. by rewrite app_nil_r.
  - unfold dict_get, cell_at at 1 2.
    destruct (d1 !! k) as [p|]; simpl; [|done].
    destruct (d2 !! k) as [r|]; simpl; [|done].
    intros H%IH. by rewrite H, <- !app_assoc.
Qed.

Lemma output_data_paired self m epoch steps row :
  output_data self m epoch steps = Ok row -> row = paired_row self m epoch steps.
Proof.
  unfold output_data, paired_row. intros H. inv_ok H.
  apply for_each_cells in Ha, Ha1, H. apply for_each_cell_pairs in Ha0.
  subst. by rewrite <- !app_assoc.
Qed.

Lemma filesystem_lookup_insert_eq (fs : filesystem) path lines :
  <[path := lines]> fs !! path = Some lines.
Proof. apply (lookup_insert_eq (contents fs)). Qed.


Lemma write_csv_inv self dir m epoch steps (fs fs' : filesystem) :
  write_csv self dir m epoch steps fs = Ok fs' ->
  py_open fs (path_join dir (csv_file self)) = Ok tt
  /\ fs' = <[path_join dir (csv_file self) :=
              match fs !! path_join dir (csv_file self) with
              | None => [Header (csv_headers self)]
              | Some lines => lines
              end ++ [Row (paired_row self m epoch steps)]]> fs.
Proof.
  unfold write_csv. intros H.
  apply bind_Ok in H as (fOut & Hopen & H).
  apply bind_Ok in H as (row & Hrow & H). injection H as <-.
  apply output_data_paired in Hrow as ->.
  destruct (fs !! path_join dir (csv_file self)) as [lines|];
    apply bind_Ok in Hopen as ([] & Hopen & [= <-]); done.
Qed.

(** C5, as the code has it. The header written at construction and every
    row appended by a call list epoch, steps, the Accuracy@k columns, then for
    each k of the precision/recall list its Precision@k column followed by its
    Recall@k column, then the MRR@k and the NDCG@k columns, each family in the
    order of its k-list. *)
Theorem report_columns_paired {Emb} (encode : string -> Emb) cos fmax
    argpartition np_log2
    queries corpus relevant_docs query_chunk_size corpus_chunk_size
    mrr_at_k ndcg_at_k accuracy_at_k precision_recall_at_k batch_size name
    fs dir epoch steps out :
  let self := init queries corpus relevant_docs query_chunk_size
                corpus_chunk_size mrr_at_k ndcg_at_k accuracy_at_k
                precision_recall_at_k batch_size name in
  let csv_path := path_join dir (csv_file self) in
  call encode cos fmax argpartition np_log2 self fs (Some dir) epoch steps
    = Ok out ->
  csv_headers self
    = paired_columns accuracy_at_k precision_recall_at_k mrr_at_k ndcg_at_k
  /\ files out !! csv_path
     = Some (match fs !! csv_path with
             | None => [Header (csv_headers self)]
             | Some lines => lines
             end ++ [Row (paired_row self (reported out) epoch steps)]).
Proof.
  intros self csv_path H. split; [apply init_csv_headers_paired|].
  unfold call in H. inv_ok H. injection H as <-. simpl.
  apply write_csv_inv in Ha1 as [_ ->].
  by rewrite filesystem_lookup_insert_eq.
Qed.

Lemma report_columns_paired_witness :
  let self := toy_evaluator 10 100 [2] [2] [1; 2] [1; 2] in
  let csv_path := path_join "out" (csv_file self) in
  exists out,
    toy_call self (Some "out") = Ok out
    /\ csv_headers self = paired_columns [1; 2] [1; 2] [2] [2]
    /\ files out !! csv_path
       = Some [Header (csv_headers self);
               Row (paired_row self (reported out) (-1) (-1))].
Proof.
  intros self csv_path.
  destruct (toy_call self (Some "out")) as [out|e] eqn:Hcall;
    [|vm_compute in Hcall; discriminate Hcall].
  exists out. split; [reflexivity|].
  exact (report_columns_paired toy_encode toy_cos float32_max argsort
           log2_fixed _ _ _ _ _ _ _ _ _ _ _ ∅ "out" (-1)%Z (-1)%Z out Hcall).
Defined.

(** With two cut-offs the header is not the family-by-family layout: the
    recall column of the first k comes before the precision column of the
    second. *)
Lemma report_columns_not_grouped :
  let self := toy_evaluator 10 100 [10] [10] [1; 3] [1; 3] in
  csv_headers self
  = ["epoch"; "steps"; "Accuracy@1"; "Accuracy@3"; "Precision@1"; "Recall@1";
     "Precision@3"; "Recall@3"; "MRR@10"; "NDCG@10"]
  /\ csv_headers self <> grouped_columns [1; 3] [1; 3] [10] [10].
Proof. split; [vm_compute; reflexivity|vm_compute; discriminate]. Qed.

(** ** Empty k-lists *)

(** C6, as the code has it. With any of the four k-lists empty, line 85
    raises [ValueError] ([max] of an empty sequence) and no metric is
    computed. *)
Theorem call_raises_on_empty_k_list {Emb} (encode : string -> Emb) cos fmax
    argpartition np_log2 self fs output_path epoch steps :
  mrr_at_k self = [] \/ ndcg_at_k self = [] \/ accuracy_at_k self = []
  \/ precision_recall_at_k self = [] ->
  call encode cos fmax argpartition np_log2 self fs output_path epoch steps
  = Raise (ValueError MaxEmptySequence).
Proof.
  intros H. unfold call, accumulate, compute_max_k.
  destruct (mrr_at_k self); [done|].
  destruct (ndcg_at_k self); [done|].
  destruct (accuracy_at_k self); [done|].
  destruct (precision_recall_at_k self); [done|].
  destruct H as [H|[H|[H|H]]]; discriminate H.
Qed.

Lemma call_raises_on_empty_k_list_witness :
  let self := toy_evaluator 10 100 [10] [10] [] [1; 3] in
  (mrr_at_k self = [] \/ ndcg_at_k self = [] \/ accuracy_at_k self = []
   \/ precision_recall_at_k self = [])
  /\ toy_call self None = Raise (ValueError MaxEmptySequence).
Proof.
  assert (Hk : let self := toy_evaluator 10 100 [10] [10] [] [1; 3] in
               mrr_at_k self = [] \/ ndcg_at_k self = []
               \/ accuracy_at_k self = [] \/ precision_recall_at_k self = []).
  { right. right. left. reflexivity. }
  split; [exact Hk|].
  exact (call_raises_on_empty_k_list toy_encode toy_cos float32_max argsort
           log2_fixed _ ∅ None (-1)%Z (-1)%Z Hk).
Defined.

(** The evaluation of the toy corpus with an empty NDCG k-list and the three
    other lists set does not complete. *)
Lemma empty_ndcg_list_raises :
  toy_call (toy_evaluator 10 100 [1] [] [1] [1]) None
  = Raise (ValueError MaxEmptySequence).
Proof. vm_compute. reflexivity. Qed.

(** ** Non-finite scores *)





(** ** Dicts keyed by k *)

Lemma slice_0 {A} (k : nat) (l : list A) : slice 0 k l = take k l.
Proof. unfold slice. by rewrite Nat.sub_0_r. Qed.

Lemma dict_init_lookup {V} (v0 : V) ks k :
  dict_init v0 ks !! k = if decide (k ∈ ks) then Some v0 else None.
Proof.
  unfold dict_init.
  enough (forall d : gmap nat V, foldl (fun d k => <[k := v0]> d) d ks !! k
                    = if decide (k ∈ ks) then Some v0 else d !! k) as H.
  { rewrite H. by destruct (decide (k ∈ ks)). }
  induction ks as [|k' ks IH]; intros d; cbn [foldl].
  - case_decide as Hin; [by apply elem_of_nil in Hin|done].
  - rewrite IH. destruct (decide (k ∈ ks)) as [Hin|Hin].
    + rewrite decide_True; [done|]. by right.
    + destruct (decide (k = k')) as [->|Hne].
      * rewrite decide_True by left. by rewrite lookup_insert_eq.
      * rewrite decide_False; [by rewrite lookup_insert_ne|].
        intros [?|?]%elem_of_cons; done.
Qed.

(** A loop body that, when it succeeds on [x], rewrites the value under each
    key [k0] of one of its dicts by [F x k0]. *)
Definition rewrites {X S V} (get : S -> gmap nat V) (F : X -> nat -> V -> V)
    (step : X -> S -> result S) : Prop :=
  forall x s s', step x s = Ok s' ->
    forall k0, get s' !! k0 = F x k0 <$> get s !! k0.

Lemma for_each_rewrites {X S V} (get : S -> gmap nat V) F
    (step : X -> S -> result S) xs s s' :
  rewrites get F step ->
  for_each step xs s = Ok s' ->
  forall k0, get s' !! k0 = (fun v => foldl (fun v x => F x k0 v) v xs) <$> get s !! k0.
Proof.
  intros Hstep. revert s. induction xs as [|x xs IH]; intros s; simpl.
  - intros [= <-] k0. by destruct (get s !! k0).
  - intros H k0. inv_ok H. rewrite (IH _ H), (Hstep _ _ _ Ha).
    by destruct (get s !! k0).
Qed.

(** The value under [k0] after a loop over a k-list whose step for [k]
    applies [f k] to the value under [k]. *)
Lemma foldl_keyed {V} (f : nat -> V -> V) k0 ks v :
  foldl (fun v k => if decide (k0 = k) then f k v else v) v ks
  = Nat.iter (occurrences k0 ks) (f k0) v.
Proof.
  unfold occurrences. revert v. induction ks as [|k ks IH]; intros v; simpl.
  - done.
  - rewrite IH. destruct (decide (k0 = k)) as [<-|Hne].
    + rewrite filter_cons_True by done. simpl. by rewrite Nat.iter_swap.
    + rewrite filter_cons_False; [done|]. congruence.
Qed.

Lemma for_each_keyed {S V} (get : S -> gmap nat V) (f : nat -> V -> V)
    (step : nat -> S -> result S) ks s s' :
  rewrites get (fun k k0 v => if decide (k0 = k) then f k v else v) step ->
  for_each step ks s = Ok s' ->
  forall k0, get s' !! k0 = Nat.iter (occurrences k0 ks) (f k0) <$> get s !! k0.
Proof.
  intros Hstep H k0. rewrite (for_each_rewrites _ _ _ _ _ _ Hstep H).
  destruct (get s !! k0) as [v|]; simpl; [|done]. by rewrite foldl_keyed.
Qed.

Lemma dict_update_lookup {V} (g : V -> V) k (d d' : gmap nat V) :
  dict_update g k d = Ok d' ->
  forall k0, d' !! k0 = (fun v => if decide (k0 = k) then g v else v) <$> d !! k0.
Proof.
  unfold dict_update, dict_get. destruct (d !! k) as [v|] eqn:Hk; simpl; [|done].
  intros [= <-] k0. destruct (decide (k0 = k)) as [->|Hne].
  - by rewrite lookup_insert_eq, Hk.
  - rewrite lookup_insert_ne by done. by destruct (d !! k0).
Qed.

(** ** The steps of one query *)

Lemma accuracy_step_rewrites top_hits docs :
  rewrites id (fun k k0 v => if decide (k0 = k) then count_hit top_hits docs k v else v)
           (accuracy_step top_hits docs).
Proof.
  intros k d d' H k0. unfold accuracy_step in H. rewrite slice_0 in H.
  unfold count_hit, hit_at, id.
  destruct (first_relevant docs (take k top_hits) 0) as [rank|] eqn:Hr.
  - rewrite (dict_update_lookup _ _ _ _ H). rewrite bool_decide_eq_true_2; eauto.
  - injection H as <-. rewrite bool_decide_eq_false_2 by (by intros [? [=]]).
    destruct (d !! k0); simpl; [|done]. by case_decide.
Qed.

Lemma precision_recall_step_inv top_hits docs k pr pr' :
  precision_recall_step top_hits docs k pr = Ok pr' ->
  k <> 0 /\ size docs <> 0
  /\ dict_update (snoc_precision top_hits docs k) k pr.1 = Ok pr'.1
  /\ dict_update (snoc_recall top_hits docs k) k pr.2 = Ok pr'.2.
Proof.
  unfold precision_recall_step, dict_update, int_truediv. intros H. inv_ok H.
  repeat case_decide; try done. injection Ha0 as <-. injection Ha2 as <-.
  injection H as <-. rewrite Ha, Ha1. done.
Qed.

Lemma precision_step_rewrites top_hits docs :
  rewrites fst (fun k k0 v => if decide (k0 = k)
                              then snoc_precision top_hits docs k v else v)
           (precision_recall_step top_hits docs).
Proof.
  intros k pr pr' (_ & _ & H & _)%precision_recall_step_inv k0.
  apply (dict_update_lookup _ _ _ _ H).
Qed.

Lemma recall_step_rewrites top_hits docs :
  rewrites snd (fun k k0 v => if decide (k0 = k)
                              then snoc_recall top_hits docs k v else v)
           (precision_recall_step top_hits docs).
Proof.
  intros k pr pr' (_ & _ & _ & H)%precision_recall_step_inv k0.
  apply (dict_update_lookup _ _ _ _ H).
Qed.

Lemma mrr_step_rewrites top_hits docs :
  rewrites id (fun k k0 v => if decide (k0 = k)
                             then add_reciprocal_rank top_hits docs k v else v)
           (mrr_step top_hits docs).
Proof.
  intros k d d' H k0. unfold mrr_step in H. rewrite slice_0 in H.
  unfold add_reciprocal_rank, id.
  destruct (first_relevant docs (take k top_hits) 0) as [rank|] eqn:Hr.
  - apply (dict_update_lookup _ _ _ _ H).
  - injection H as <-. destruct (d !! k0); simpl; [|done]. by case_decide.
Qed.

Lemma ndcg_step_rewrites np_log2 top_hits docs :
  rewrites id (fun k k0 v => if decide (k0 = k)
                             then snoc_ndcg np_log2 top_hits docs k v else v)
           (ndcg_step np_log2 top_hits docs).
Proof.
  intros k d d' H k0. unfold ndcg_step in H. inv_ok H.
  unfold snoc_ndcg, id. rewrite Ha. apply (dict_update_lookup _ _ _ _ H).
Qed.

(** What a successful pass of one query leaves under each key. *)
Lemma score_query_lookup np_log2 self top_hits docs acc acc' :
  score_query np_log2 self top_hits docs acc = Ok acc' ->
  forall k0,
    num_hits_at_k acc' !! k0
    = Nat.iter (occurrences k0 (accuracy_at_k self))
               (count_hit top_hits docs k0) <$> num_hits_at_k acc !! k0
    /\ precisions_at_k acc' !! k0
      = Nat.iter (occurrences k0 (precision_recall_at_k self))
                 (snoc_precision top_hits docs k0) <$> precisions_at_k acc !! k0
    /\ recall_at_k acc' !! k0
      = Nat.iter (occurrences k0 (precision_recall_at_k self))
                 (snoc_recall top_hits docs k0) <$> recall_at_k acc !! k0
    /\ MRR acc' !! k0
      = Nat.iter (occurrences k0 (mrr_at_k self))
                 (add_reciprocal_rank top_hits docs k0) <$> MRR acc !! k0
    /\ ndcg acc' !! k0
      = Nat.iter (occurrences k0 (ndcg_at_k self))
                 (snoc_ndcg np_log2 top_hits docs k0) <$> ndcg acc !! k0.
Proof.
  unfold score_query. intros H k0. inv_ok H. injection H as <-. simpl.
  pose proof (for_each_keyed id _ _ _ _ _ (accuracy_step_rewrites _ _) Ha k0).
  pose proof (for_each_keyed fst _ _ _ _ _ (precision_step_rewrites _ _) Ha0 k0).
  pose proof (for_each_keyed snd _ _ _ _ _ (recall_step_rewrites _ _) Ha0 k0).
  pose proof (for_each_keyed id _ _ _ _ _ (mrr_step_rewrites _ _) Ha1 k0).
  pose proof (for_each_keyed id _ _ _ _ _ (ndcg_step_rewrites _ _ _) Ha2 k0).
  done.
Qed.

(** ** Rational arithmetic *)

Lemma Qnat_S n : (Qnat (S n) == Qnat n + 1)%Q.
Proof. unfold Qnat. rewrite Nat2Z.inj_succ, <- Z.add_1_r, inject_Z_plus. ring. Qed.

Lemma Qnat_nonneg n : (0 <= Qnat n)%Q.
Proof. unfold Qnat. change 0%Q with (inject_Z 0). rewrite <- Zle_Qle. lia. Qed.

Lemma Qnat_pos n : n <> 0 -> (0 < Qnat n)%Q.
Proof. intros. unfold Qnat. change 0%Q with (inject_Z 0). rewrite <- Zlt_Qlt. lia. Qed.

Lemma Qnat_le a b : a <= b -> (Qnat a <= Qnat b)%Q.
Proof. intros. unfold Qnat. rewrite <- Zle_Qle. lia. Qed.

Lemma Qnat_mul a b : (Qnat (a * b) == Qnat a * Qnat b)%Q.
Proof. unfold Qnat. by rewrite Nat2Z.inj_mul, inject_Z_mult. Qed.

Lemma Qnat_add a b : (Qnat (a + b) == Qnat a + Qnat b)%Q.
Proof. unfold Qnat. by rewrite Nat2Z.inj_add, inject_Z_plus. Qed.

Lemma foldl_Qplus x l : (foldl Qplus x l == x + Qsum l)%Q.
Proof.
  unfold Qsum. revert x. induction l as [|y l IH]; intros x; simpl.
  - ring.
  - rewrite (IH (x + y)%Q), (IH (0 + y)%Q). ring.
Qed.

Lemma Qsum_cons x l : (Qsum (x :: l) == x + Qsum l)%Q.
Proof. unfold Qsum at 1. simpl. rewrite foldl_Qplus. ring. Qed.

Lemma Qsum_app l1 l2 : (Qsum (l1 ++ l2) == Qsum l1 + Qsum l2)%Q.
Proof.
  induction l1 as [|x l1 IH]; simpl.
  - unfold Qsum at 2. simpl. ring.
  - rewrite !Qsum_cons, IH. ring.
Qed.

Lemma Qsum_replicate m x : (Qsum (replicate m x) == Qnat m * x)%Q.
Proof.
  induction m as [|m IH]; simpl.
  - unfold Qsum, Qnat. simpl. ring.
  - rewrite Qsum_cons, IH, Qnat_S. ring.
Qed.

Lemma Qsum_Forall2_eq l1 l2 : Forall2 Qeq l1 l2 -> (Qsum l1 == Qsum l2)%Q.
Proof.
  induction 1 as [|x y l1 l2 Hxy _ IH]; [reflexivity|].
  by rewrite !Qsum_cons, Hxy, IH.
Qed.

Lemma Qsum_Forall2_le l1 l2 : Forall2 Qle l1 l2 -> (Qsum l1 <= Qsum l2)%Q.
Proof.
  induction 1 as [|x y l1 l2 Hxy _ IH]; [apply Qle_refl|].
  rewrite !Qsum_cons. by apply Qplus_le_compat.
Qed.

Lemma Qsum_repeated {A} (g : A -> Q) m l :
  (Qsum (repeated m (map g l)) == Qnat m * Qsum (map g l))%Q.
Proof.
  unfold repeated. induction l as [|x l IH]; simpl.
  - unfold Qsum. simpl. ring.
  - rewrite Qsum_app, Qsum_replicate, Qsum_cons, IH. ring.
Qed.

Lemma length_repeated {A} m (l : list A) : length (repeated m l) = m * length l.
Proof.
  unfold repeated. induction l as [|x l IH]; simpl; [lia|].
  rewrite length_app, length_replicate, IH. lia.
Qed.

(** ** What repeated passes leave under a key *)

Lemma iter_count_hit top_hits docs k m n :
  Nat.iter m (count_hit top_hits docs k) n
  = n + m * (if hit_at top_hits docs k then 1 else 0).
Proof.
  unfold count_hit. induction m as [|m IH]; simpl; [lia|].
  rewrite IH. destruct (hit_at top_hits docs k); lia.
Qed.

Lemma iter_snoc {A} m (x : A) l :
  Nat.iter m (fun l => l ++ [x]) l = l ++ replicate m x.
Proof.
  revert l. induction m as [|m IH]; intros l; simpl.
  - by rewrite app_nil_r.
  - rewrite IH. rewrite <- app_assoc. f_equal.
    clear. induction m as [|m IH]; simpl; [done|]. by rewrite IH.
Qed.

Lemma iter_add_reciprocal_rank top_hits docs k m x :
  (Nat.iter m (add_reciprocal_rank top_hits docs k) x
   == x + Qnat m * reciprocal_rank top_hits docs k)%Q.
Proof.
  unfold add_reciprocal_rank, reciprocal_rank.
  induction m as [|m IH]; simpl.
  - unfold Qnat. simpl. ring.
  - destruct (first_relevant docs (take k top_hits) 0) as [rank|].
    + rewrite IH, Qnat_S. ring.
    + rewrite IH, Qnat_S. ring.
Qed.

Lemma foldl_count_hits (sq : list (list hit * gset string)) k m n :
  foldl (fun v x => Nat.iter m (count_hit x.1 x.2 k) v) n sq
  = n + m * length (filter (fun x => hit_at x.1 x.2 k) sq).
Proof.
  revert n. induction sq as [|x sq IH]; intros n; simpl; [lia|].
  rewrite IH, iter_count_hit. destruct (hit_at x.1 x.2 k) eqn:Hx.
  - rewrite filter_cons_True by (by rewrite Hx). simpl. lia.
  - rewrite filter_cons_False; [lia|]. rewrite Hx. by intros [].
Qed.

Lemma foldl_snocs {X A} (g : X -> A) (xs : list X) m l :
  foldl (fun v x => Nat.iter m (fun l => l ++ [g x]) v) l xs
  = l ++ repeated m (map g xs).
Proof.
  unfold repeated. revert l. induction xs as [|x xs IH]; intros l; simpl.
  - by rewrite app_nil_r.
  - by rewrite IH, iter_snoc, <- app_assoc.
Qed.

Lemma foldl_reciprocal_ranks (sq : list (list hit * gset string)) k m x :
  (foldl (fun v y => Nat.iter m (add_reciprocal_rank y.1 y.2 k) v) x sq
   == x + Qnat m * Qsum (map (fun y => reciprocal_rank y.1 y.2 k) sq))%Q.
Proof.
  revert x. induction sq as [|y sq IH]; intros x; simpl.
  - unfold Qsum. simpl. ring.
  - rewrite IH, iter_add_reciprocal_rank, Qsum_cons. ring.
Qed.

(** ** Indexing *)

Lemma py_index_Ok {A} (l : list A) i x : py_index l i = Ok x <-> l !! i = Some x.
Proof. unfold py_index. destruct (l !! i); split; intros [=]; by subst. Qed.

Lemma for_each_snoc {A S} (body : A -> S -> result S) l x s :
  for_each body (l ++ [x]) s = (s' ← for_each body l s; body x s').
Proof.
  rewrite for_each_app. destruct (for_each body l s) as [s'|e]; simpl; [|done].
  by destruct (body x s').
Qed.

Lemma for_each_ok_ext {A S} (f g : A -> S -> result S) l s s' :
  (forall x s s', x ∈ l -> f x s = Ok s' -> g x s = Ok s') ->
  for_each f l s = Ok s' -> for_each g l s = Ok s'.
Proof.
  revert s. induction l as [|x l IH]; intros s Hfg; simpl; [done|].
  intros H. inv_ok H. rewrite (Hfg x s a) by (done || left). simpl.
  apply IH; [|done]. intros y t t' Hy. apply Hfg. by right.
Qed.

Lemma for_each_concat {A S} (g : A -> S -> result S) (ls : list (list A)) s :
  for_each (fun l s => for_each g l s) ls s = for_each g (concat ls) s.
Proof.
  revert s. induction ls as [|l ls IH]; intros s; simpl; [done|].
  rewrite for_each_app. destruct (for_each g l s); simpl; [apply IH|done].
Qed.

Lemma for_each_map {A B S} (g : B -> S -> result S) (h : A -> B) l s :
  for_each g (map h l) s = for_each (fun x s => g (h x) s) l s.
Proof.
  revert s. induction l as [|x l IH]; intros s; simpl; [done|].
  destruct (g (h x) s); simpl; [apply IH|done].
Qed.

(** A loop over [range(n)] whose body reads the [i]-th element of a list. *)
Lemma for_each_seq_lookup {X S} (f : nat -> S -> result S)
    (g : X -> S -> result S) (xs : list X) s :
  (forall i x s, xs !! i = Some x -> f i s = g x s) ->
  for_each f (seq 0 (length xs)) s = for_each g xs s.
Proof.
  revert s. induction xs as [|x xs IH] using rev_ind; intros s Hfg; [done|].
  rewrite length_app. simpl length. rewrite Nat.add_1_r, seq_S, !for_each_snoc.
  simpl. rewrite IH.
  - destruct (for_each g xs s) as [s'|]; simpl; [|done].
    apply Hfg. by rewrite lookup_app_r, Nat.sub_diag.
  - intros i y t Hi. apply Hfg. by apply lookup_app_l_Some.
Qed.

(** ** One corpus chunk *)

Section Chunks.

Context {Emb : Type}.
Variable encode : string -> Emb.
Variable cos : Emb -> Emb -> npfloat.
Variable fmax : Q.
Variable argpartition : list Q -> nat -> list nat.
Variable np_log2 : nat -> Q.
Variable self : InformationRetrievalEvaluator.
Variable max_k : nat.

Lemma append_hits_inv start scores selected cands cands' :
  append_hits self start scores selected cands = Ok cands' ->
  cands' = cands ++ row_hits self start scores selected.
Proof.
  unfold append_hits, row_hits. revert cands.
  induction selected as [|j selected IH]; intros cands; simpl.
  - intros [= <-]. by rewrite app_nil_r.
  - intros H. inv_ok H. inv_ok Ha. injection Ha as <-.
    apply py_index_Ok in Ha0, Ha1. rewrite Ha0, Ha1. simpl.
    apply IH in H. by rewrite H, <- app_assoc.
Qed.

Lemma append_hits_is_ok start scores selected cands :
  (forall j, j ∈ selected ->
     j < length scores /\ start + j < length (corpus_ids self)) ->
  is_ok (append_hits self start scores selected cands) = true.
Proof.
  unfold append_hits. revert cands.
  induction selected as [|j selected IH]; intros cands Hsel; simpl; [done|].
  destruct (Hsel j) as [Hj1 Hj2]; [left|].
  apply lookup_lt_is_Some_2 in Hj1 as [s Hs], Hj2 as [cid Hcid].
  rewrite (proj2 (py_index_Ok _ _ _) Hcid). simpl.
  rewrite (proj2 (py_index_Ok _ _ _) Hs). simpl.
  apply IH. intros j' Hj'. apply Hsel. by right.
Qed.

End Chunks.

Section Rows.

Variable self : InformationRetrievalEvaluator.
Variable start : nat.
Variable selected : list (list nat).
Variable cos_scores : list (list Q).

(** The body of the loop of lines 119-123 over the rows of a chunk. *)
Let rows_body (query_itr : nat) (queries_result_list : list (list hit))
  : result (list (list hit)) :=
  sel ← py_index selected query_itr;
  scores ← py_index cos_scores query_itr;
  candidates ← py_index queries_result_list query_itr;
  candidates ← append_hits self start scores sel candidates;
  Ok (<[query_itr := candidates]> queries_result_list).

Lemma rows_loop_inv n qrl qrl' :
  for_each rows_body (seq 0 n) qrl = Ok qrl' ->
  length qrl' = length qrl
  /\ forall i,
       qrl' !! i
       = if decide (i < n)
         then c ← qrl !! i; sel ← selected !! i; sc ← cos_scores !! i;
              Some (c ++ row_hits self start sc sel)
         else qrl !! i.
Proof.
  revert qrl'. induction n as [|n IH]; intros qrl'.
  - intros [= <-]. split; [done|]. intros i. by rewrite decide_False by lia.
  - rewrite seq_S, for_each_snoc. simpl. intros H. inv_ok H.
    destruct (IH _ Ha) as [Hlen Hlk]. unfold rows_body in H. inv_ok H.
    injection H as <-. apply py_index_Ok in Ha0, Ha1, Ha2.
    apply append_hits_inv in Ha3 as ->.
    split; [by rewrite length_insert|]. intros i.
    destruct (decide (i = n)) as [->|Hne].
    + rewrite list_lookup_insert_eq by (by eapply lookup_lt_Some).
      rewrite decide_True by lia. rewrite Hlk, decide_False in Ha2 by lia.
      by rewrite Ha2, Ha0, Ha1.
    + rewrite list_lookup_insert_ne by done. rewrite Hlk.
      destruct (decide (i < n)); [by rewrite decide_True by lia|].
      by rewrite decide_False by lia.
Qed.

Lemma rows_loop_is_ok n qrl :
  n <= length qrl ->
  (forall i, i < n ->
     exists sel sc, selected !! i = Some sel /\ cos_scores !! i = Some sc
       /\ forall j, j ∈ sel ->
            j < length sc /\ start + j < length (corpus_ids self)) ->
  is_ok (for_each rows_body (seq 0 n) qrl) = true.
Proof.
  induction n as [|n IH]; intros Hn Hrows; [done|].
  rewrite seq_S, for_each_snoc. simpl.
  destruct (for_each rows_body (seq 0 n) qrl) as [mid|e] eqn:Hmid.
  - simpl. destruct (rows_loop_inv _ _ _ Hmid) as [Hlen _].
    destruct (Hrows n) as (sel & sc & Hsel & Hsc & Hin); [lia|].
    destruct (lookup_lt_is_Some_2 mid n) as [c Hc]; [lia|].
    unfold rows_body. rewrite (proj2 (py_index_Ok _ _ _) Hsel). simpl.
    rewrite (proj2 (py_index_Ok _ _ _) Hsc). simpl.
    rewrite (proj2 (py_index_Ok _ _ _) Hc). simpl.
    pose proof (append_hits_is_ok self start sc sel c Hin) as Hok.
    by destruct (append_hits self start sc sel c).
  - simpl. apply IH; [lia|]. intros i Hi. apply Hrows. lia.
Qed.

End Rows.

Lemma length_slice {A} (a b : nat) (l : list A) :
  length (slice a b l) = (b - a) `min` (length l - a).
Proof. unfold slice. by rewrite length_take, length_drop. Qed.

(** ** The column of the partition *)

Lemma intp_kth_lt size columns kth :
  kth < columns -> intp_kth size columns kth = Ok kth.
Proof.
  intros Hlt. unfold intp_kth. rewrite decide_True by (by left). simpl.
  rewrite (decide_False (P := (Z.of_nat kth < 0)%Z)) by lia.
  rewrite decide_False by lia. by rewrite Nat2Z.id.
Qed.

Lemma intp_kth_bound size columns kth k :
  intp_kth size columns kth = Ok k -> size <> 0 -> k < columns.
Proof.
  unfold intp_kth. intros H Hsize. apply bind_Ok in H as (z & _ & H).
  case_decide as Hb; [done|]. injection H as <-.
  destruct (decide (z < 0)%Z); lia.
Qed.

Lemma intp_kth_rows rows columns kth :
  rows <> 0 ->
  intp_kth (rows * columns) columns kth = intp_kth columns columns kth.
Proof.
  intros Hrows. unfold intp_kth.
  destruct (mbind _ _) as [k|e] eqn:Hk; apply eq_sym; [|].
  - apply bind_Ok in Hk as (z & Hz & Hk). rewrite Hz. simpl.
    destruct (decide (rows * columns ≠ 0 ∧ _)) as [H1|H1]; [done|].
    rewrite decide_False; [done|]. intros [H2 H3]. apply H1.
    split; [nia|done].
  - destruct (if decide _ then _ else _) as [z|e'] eqn:Hz; simpl in *;
      [|done].
    destruct (decide (rows * columns ≠ 0 ∧ _)) as [[H1 H2]|H1]; [|done].
    rewrite decide_True; [done|]. split; [nia|done].
Qed.

Lemma intp_kth_matrix {A} (rows : list (list A)) cl kth :
  rows <> [] ->
  Forall (fun row => length row = cl) rows ->
  intp_kth (length rows * match rows with [] => 0 | row :: _ => length row end)
           (match rows with [] => 0 | row :: _ => length row end) kth
  = intp_kth cl cl kth.
Proof.
  destruct rows as [|row rows]; [done|]. intros _ [-> _]%Forall_cons.
  by apply intp_kth_rows.
Qed.

Lemma np_argpartition_Ok argpartition a kth partition :
  np_argpartition argpartition a kth = Ok partition ->
  exists k,
    intp_kth (length a * match a with [] => 0 | row :: _ => length row end)
             (match a with [] => 0 | row :: _ => length row end) kth = Ok k
    /\ partition = map (fun row => argpartition row k) a.
Proof.
  unfold np_argpartition. intros H. apply bind_Ok in H as (k & Hk & [= <-]).
  eauto.
Qed.

Lemma corpus_starts_pos self :
  corpus_chunk_size self <> 0 ->
  Forall (fun start => 0 < chunk_length self start) (corpus_starts self).
Proof.
  intros Hc. unfold corpus_starts, chunk_length.
  apply Forall_map, Forall_forall. intros i Hi%elem_of_seq.
  pose proof (Nat.div_mod_eq (length (corpus self) + corpus_chunk_size self - 1)
                (corpus_chunk_size self)) as Hdiv.
  pose proof (Nat.mod_upper_bound
                (length (corpus self) + corpus_chunk_size self - 1)
                (corpus_chunk_size self) Hc).
  simpl. nia.
Qed.

Lemma selection_kth_lt self max_k start :
  max_k < chunk_length self start -> selection_kth self max_k start = max_k.
Proof. intros Hlt. unfold selection_kth. by rewrite intp_kth_lt. Qed.

Lemma kth_checks_cons self max_k start starts :
  kth_checks self max_k (start :: starts)
  = (_ ← intp_kth (chunk_length self start) (chunk_length self start) max_k;
     kth_checks self max_k starts).
Proof.
  unfold kth_checks. simpl.
  by destruct (intp_kth (chunk_length self start) (chunk_length self start)
                 max_k).
Qed.

Lemma kth_checks_big self max_k starts :
  Forall (fun start => max_k < chunk_length self start) starts ->
  kth_checks self max_k starts = Ok tt.
Proof.
  induction 1 as [|start starts Hbig _ IH]; [done|].
  by rewrite kth_checks_cons, intp_kth_lt.
Qed.


Section Chunk.

Context {Emb : Type}.
Variable encode : string -> Emb.
Variable cos : Emb -> Emb -> npfloat.
Variable fmax : Q.
Variable argpartition : list Q -> nat -> list nat.
Variable self : InformationRetrievalEvaluator.
Variable max_k : nat.

Lemma length_chunk_scores q start :
  length (chunk_scores encode cos fmax self q start) = chunk_length self start.
Proof.
  unfold chunk_scores, chunk_length. rewrite length_map, length_slice, length_map.
  lia.
Qed.

(** The matrix handed to [np.argpartition] has one row per query of the
    chunk and one column per document of the chunk. *)
Lemma chunk_matrix_kth (qchunk : list Emb) start :
  qchunk <> [] ->
  let a := map (map Qopp)
               (chunk_cos_scores cos fmax qchunk
                  (slice start
                     ((start + corpus_chunk_size self)
                      `min` length (map encode (corpus self)))
                     (map encode (corpus self)))) in
  intp_kth (length a * match a with [] => 0 | row :: _ => length row end)
           (match a with [] => 0 | row :: _ => length row end) max_k
  = intp_kth (chunk_length self start) (chunk_length self start) max_k.
Proof.
  intros Hq a. apply intp_kth_matrix.
  - unfold a, chunk_cos_scores, pytorch_cos_sim. by destruct qchunk.
  - unfold a, chunk_cos_scores, pytorch_cos_sim.
    rewrite !Forall_map. apply Forall_forall. intros q _. simpl.
    rewrite !length_map, length_slice, length_map. unfold chunk_length. lia.
Qed.

(** A chunk that does not raise appends to the candidates of each query of
    the query chunk the hits selected for it. *)
Lemma corpus_chunk_inv (qchunk : list Emb) start qrl qrl' :
  corpus_chunk cos fmax argpartition self max_k qchunk
    (map encode (corpus self)) start qrl = Ok qrl' ->
  length qrl = length qchunk ->
  qrl' = zip_with
           (fun c q => c ++ chunk_hits encode cos fmax argpartition self max_k
                              q start)
           qrl qchunk.
Proof.
  unfold corpus_chunk. intros H Hlen. inv_ok H.
  apply np_argpartition_Ok in Ha as (k & Hk & ->).
  apply rows_loop_inv in H as [Hl Hlk].
  apply list_eq. intros i. rewrite Hlk, lookup_zip_with. clear Hlk.
  unfold chunk_cos_scores, pytorch_cos_sim. rewrite !length_map, <- Hlen.
  rewrite !list_lookup_fmap.
  destruct (qrl !! i) as [c|] eqn:Hc; simpl.
  - rewrite decide_True by (by eapply lookup_lt_Some). simpl.
    destruct (lookup_lt_is_Some_2 qchunk i) as [q Hq];
      [rewrite <- Hlen; by eapply lookup_lt_Some|].
    rewrite Hq. simpl. unfold chunk_hits, chunk_scores.
    assert (selection_kth self max_k start = k) as ->.
    { unfold selection_kth.
      rewrite <- (chunk_matrix_kth qchunk start) by (by intros ->).
      simpl. by rewrite Hk. }
    by rewrite !map_map.
  - by case_decide.
Qed.

Lemma corpus_chunk_is_ok (qchunk : list Emb) start qrl k :
  in_range argpartition ->
  length (corpus self) = length (corpus_ids self) ->
  qchunk <> [] ->
  length qrl = length qchunk ->
  0 < chunk_length self start ->
  intp_kth (chunk_length self start) (chunk_length self start) max_k = Ok k ->
  is_ok (corpus_chunk cos fmax argpartition self max_k qchunk
           (map encode (corpus self)) start qrl) = true.
Proof.
  intros Hrange Hids Hq Hlen Hpos Hk. unfold corpus_chunk, np_argpartition.
  pose proof (chunk_matrix_kth qchunk start Hq) as Hkth. simpl in Hkth.
  rewrite Hkth, Hk. simpl. apply rows_loop_is_ok.
  - unfold chunk_cos_scores, pytorch_cos_sim. rewrite !length_map. lia.
  - unfold chunk_cos_scores, pytorch_cos_sim. rewrite !length_map.
    intros i Hi. destruct (lookup_lt_is_Some_2 qchunk i) as [q Hqi]; [done|].
    rewrite !list_lookup_fmap, Hqi. simpl.
    set (sc := map (nan_to_num fmax) _).
    assert (length sc = chunk_length self start) as Hsc.
    { unfold sc. rewrite !length_map, length_slice, length_map.
      unfold chunk_length. lia. }
    exists (slice 0 max_k (argpartition (map Qopp sc) k)), sc.
    split; [done|]. split; [done|]. intros j Hj. rewrite slice_0 in Hj.
    apply elem_of_take in Hj as (n & Hj & _).
    apply list_elem_of_lookup_2 in Hj.
    apply intp_kth_bound in Hk; [|lia]. apply Hrange in Hj.
    + rewrite length_map in Hj. rewrite Hsc in Hj |- *.
      unfold chunk_length in *. lia.
    + rewrite length_map, Hsc. lia.
Qed.

(** What [np.argpartition] raises for the cut-off, the chunk raises. *)
Lemma corpus_chunk_raise (qchunk : list Emb) start qrl e :
  qchunk <> [] ->
  intp_kth (chunk_length self start) (chunk_length self start) max_k = Raise e ->
  corpus_chunk cos fmax argpartition self max_k qchunk
    (map encode (corpus self)) start qrl
  = Raise e.
Proof.
  intros Hq Hk. unfold corpus_chunk, np_argpartition.
  pose proof (chunk_matrix_kth qchunk start Hq) as Hkth. simpl in Hkth.
  by rewrite Hkth, Hk.
Qed.

End Chunk.

(** ** The corpus loop of one query chunk *)

Lemma zip_with_zip_with_l {A B} (f g : A -> B -> A) (l : list A) (k : list B) :
  zip_with g (zip_with f l k) k = zip_with (fun x y => g (f x y) y) l k.
Proof.
  revert k. induction l as [|x l IH]; intros [|y k]; simpl; [done..|].
  by rewrite IH.
Qed.

Lemma zip_with_fst_id {A B} (f : A -> B -> A) (l : list A) (k : list B) :
  length l = length k -> (forall x y, f x y = x) -> zip_with f l k = l.
Proof.
  intros Hlen Hf. revert k Hlen.
  induction l as [|x l IH]; intros [|y k] Hlen; simpl in *; try done.
  rewrite Hf, IH; [done|lia].
Qed.

Section CorpusLoop.

Context {Emb : Type}.
Variable encode : string -> Emb.
Variable cos : Emb -> Emb -> npfloat.
Variable fmax : Q.
Variable argpartition : list Q -> nat -> list nat.
Variable self : InformationRetrievalEvaluator.
Variable max_k : nat.

Lemma corpus_loop_inv (qchunk : list Emb) starts qrl qrl' :
  for_each (corpus_chunk cos fmax argpartition self max_k qchunk
              (map encode (corpus self))) starts qrl = Ok qrl' ->
  length qrl = length qchunk ->
  qrl' = zip_with
           (fun c q =>
              c ++ flat_map (chunk_hits encode cos fmax argpartition self max_k q)
                     starts)
           qrl qchunk.
Proof.
  revert qrl. induction starts as [|start starts IH]; intros qrl; simpl.
  - intros [= <-] Hlen. symmetry. apply zip_with_fst_id; [done|].
    intros. by rewrite app_nil_r.
  - intros H Hlen. inv_ok H. apply corpus_chunk_inv in Ha as ->; [|done].
    apply IH in H as ->.
    + rewrite zip_with_zip_with_l. apply zip_with_ext; [|done..].
      intros c q. by rewrite <- app_assoc.
    + rewrite length_zip_with. lia.
Qed.

Lemma corpus_loop_is_ok (qchunk : list Emb) starts qrl :
  in_range argpartition ->
  length (corpus self) = length (corpus_ids self) ->
  qchunk <> [] ->
  length qrl = length qchunk ->
  Forall (fun start => 0 < chunk_length self start) starts ->
  kth_checks self max_k starts = Ok tt ->
  is_ok (for_each (corpus_chunk cos fmax argpartition self max_k qchunk
                     (map encode (corpus self))) starts qrl) = true.
Proof.
  intros Hrange Hids Hq. revert qrl.
  induction starts as [|start starts IH]; intros qrl Hlen Hpos Hall; simpl;
    [done|].
  apply Forall_cons in Hpos as [Hstart Hpos].
  rewrite kth_checks_cons in Hall.
  destruct (intp_kth (chunk_length self start) (chunk_length self start) max_k)
    as [k|e] eqn:Hk; [|done]. simpl in Hall.
  pose proof (corpus_chunk_is_ok encode cos fmax argpartition self max_k
                qchunk start qrl k Hrange Hids Hq Hlen Hstart Hk) as Hok.
  destruct (corpus_chunk _ _ _ _ _ _ _ _ _) as [mid|e] eqn:Hmid; [|done].
  simpl. apply IH; [|done..]. apply corpus_chunk_inv in Hmid as ->; [|done].
  rewrite length_zip_with. lia.
Qed.

(** When [np.argpartition] refuses the cut-off for some chunk, the loop
    cannot complete. *)
Lemma corpus_loop_raises (qchunk : list Emb) starts qrl e :
  qchunk <> [] ->
  kth_checks self max_k starts = Raise e ->
  is_ok (for_each (corpus_chunk cos fmax argpartition self max_k qchunk
                     (map encode (corpus self))) starts qrl) = false.
Proof.
  intros Hq. revert qrl.
  induction starts as [|start starts IH]; intros qrl Hex; [done|].
  rewrite kth_checks_cons in Hex. simpl.
  destruct (intp_kth (chunk_length self start) (chunk_length self start) max_k)
    as [k|e'] eqn:Hk.
  - simpl in Hex.
    destruct (corpus_chunk _ _ _ _ _ _ _ _ _) as [mid|e']; [|done].
    simpl. by apply IH.
  - by rewrite (corpus_chunk_raise encode cos fmax argpartition self max_k
                  qchunk start qrl e' Hq Hk).
Qed.

(** With well-behaved indices the first chunk refused raises its exception. *)
Lemma corpus_loop_error (qchunk : list Emb) starts qrl e :
  in_range argpartition ->
  length (corpus self) = length (corpus_ids self) ->
  qchunk <> [] ->
  length qrl = length qchunk ->
  Forall (fun start => 0 < chunk_length self start) starts ->
  kth_checks self max_k starts = Raise e ->
  for_each (corpus_chunk cos fmax argpartition self max_k qchunk
              (map encode (corpus self))) starts qrl
  = Raise e.
Proof.
  intros Hrange Hids Hq. revert qrl.
  induction starts as [|start starts IH]; intros qrl Hlen Hpos Hex; [done|].
  apply Forall_cons in Hpos as [Hstart Hpos].
  rewrite kth_checks_cons in Hex. simpl.
  destruct (intp_kth (chunk_length self start) (chunk_length self start) max_k)
    as [k|e'] eqn:Hk.
  - simpl in Hex.
    pose proof (corpus_chunk_is_ok encode cos fmax argpartition self max_k
                  qchunk start qrl k Hrange Hids Hq Hlen Hstart Hk) as Hok.
    destruct (corpus_chunk _ _ _ _ _ _ _ _ _) as [mid|e'] eqn:Hmid; [|done].
    simpl. apply IH; [|done..]. apply corpus_chunk_inv in Hmid as ->; [|done].
    rewrite length_zip_with. lia.
  - simpl in Hex. injection Hex as ->.
    by rewrite (corpus_chunk_raise encode cos fmax argpartition self max_k
                  qchunk start qrl e Hq Hk).
Qed.

End CorpusLoop.

(** ** Chunks of a list *)

Lemma py_range_Ok n step :
  step <> 0 ->
  py_range n step
  = Ok (map (fun i => i * step) (seq 0 ((n + step - 1) / step))).
Proof. by destruct step. Qed.

Lemma py_range_inv n step starts :
  py_range n step = Ok starts ->
  step <> 0
  /\ starts = map (fun i => i * step) (seq 0 ((n + step - 1) / step)).
Proof. destruct step; [done|]. by intros [= <-]. Qed.

Lemma take_slice_snoc {A} (l : list A) a c :
  take a l ++ slice a ((a + c) `min` length l) l = take (a + c) l.
Proof.
  unfold slice. destruct (decide (a + c <= length l)) as [Hle|Hgt].
  - rewrite Nat.min_l by done. replace (a + c - a) with c by lia.
    rewrite <- (take_drop a (take (a + c) l)) at 1.
    rewrite take_take, Nat.min_l by lia. f_equal.
    rewrite skipn_firstn_comm. f_equal. lia.
  - rewrite Nat.min_r by lia. rewrite (take_ge l (a + c)) by lia.
    rewrite (take_ge (drop a l)); [apply take_drop|]. rewrite length_drop. lia.
Qed.

Lemma concat_slices {A} (l : list A) c m :
  concat (map (fun start => slice start ((start + c) `min` length l) l)
              (map (fun i => i * c) (seq 0 m)))
  = take (m * c) l.
Proof.
  induction m as [|m IH]; [by rewrite take_0|].
  rewrite seq_S, !map_app, concat_app, IH, Nat.mul_succ_l. simpl.
  rewrite app_nil_r. by rewrite take_slice_snoc.
Qed.

Lemma range_start_lt n c start :
  c <> 0 ->
  start ∈ map (fun i => i * c) (seq 0 ((n + c - 1) / c)) -> start < n.
Proof.
  intros Hc (i & -> & Hi%elem_of_seq)%list_elem_of_fmap.
  pose proof (Nat.div_mod_eq (n + c - 1) c) as Hdiv.
  pose proof (Nat.mod_upper_bound (n + c - 1) c Hc). nia.
Qed.

(** The chunks of [range(0, len(l), c)] cover [l], in order. *)
Lemma concat_chunks {A} (l : list A) c :
  c <> 0 ->
  concat (map (fun start => slice start ((start + c) `min` length l) l)
              (map (fun i => i * c) (seq 0 ((length l + c - 1) / c))))
  = l.
Proof.
  intros Hc. rewrite concat_slices. apply take_ge.
  pose proof (Nat.div_mod_eq (length l + c - 1) c) as Hdiv.
  pose proof (Nat.mod_upper_bound (length l + c - 1) c Hc). nia.
Qed.

(** ** One query chunk *)

Lemma zip_with_replicate_l {A B C} (f : A -> B -> C) (x : A) (l : list B) :
  zip_with f (replicate (length l) x) l = map (f x) l.
Proof. induction l as [|y l IH]; simpl; [done|]. by rewrite IH. Qed.

Lemma lookup_slice {A} (l : list A) a b i :
  slice a b l !! i = if decide (i < b - a) then l !! (a + i) else None.
Proof.
  unfold slice. case_decide.
  - by rewrite lookup_take_lt, lookup_drop by done.
  - by rewrite lookup_take_ge by lia.
Qed.

Section QueryChunk.

Context {Emb : Type}.
Variable encode : string -> Emb.
Variable cos : Emb -> Emb -> npfloat.
Variable fmax : Q.
Variable argpartition : list Q -> nat -> list nat.
Variable np_log2 : nat -> Q.
Variable self : InformationRetrievalEvaluator.
Variable max_k : nat.

Abbreviation sq := (scored_queries encode cos fmax argpartition self max_k).
Abbreviation cands := (candidates encode cos fmax argpartition self max_k).

Lemma length_scored_queries :
  well_formed self -> length sq = length (queries self).
Proof. intros [Hq _]. unfold scored_queries. rewrite length_zip_with. lia. Qed.

Lemma scored_queries_lookup i x :
  well_formed self ->
  sq !! i = Some x ->
  exists qid text docs,
    queries_ids self !! i = Some qid /\ queries self !! i = Some text
    /\ relevant_docs self !! qid = Some docs /\ docs <> ∅
    /\ x = (sorted_desc (cands (encode text)), docs).
Proof.
  intros (_ & _ & Hret). unfold scored_queries. rewrite lookup_zip_with.
  destruct (queries_ids self !! i) as [qid|] eqn:Hqid; simpl; [|done].
  destruct (queries self !! i) as [text|] eqn:Htext; simpl; [|done].
  intros [= <-]. destruct (Hret qid) as (docs & Hdocs & Hne).
  { by eapply list_elem_of_lookup_2. }
  exists qid, text, docs. unfold top_hits_of, query_docs. by rewrite Hdocs.
Qed.

(** The loop of lines 125-164 over the queries of a chunk. *)
Lemma scoring_loop qs qe acc :
  well_formed self ->
  qe <= length (queries self) ->
  for_each
    (fun query_itr acc =>
       query_id ← py_index (queries_ids self) (qs + query_itr);
       candidates ← py_index
                      (map cands (slice qs qe (map encode (queries self))))
                      query_itr;
       let top_hits := sorted_desc candidates in
       query_relevant_docs ←
         match relevant_docs self !! query_id with
         | Some docs => Ok docs
         | None => Raise KeyError
         end;
       score_query np_log2 self top_hits query_relevant_docs acc)
    (seq 0 (length (map cands (slice qs qe (map encode (queries self)))))) acc
  = for_each (fun x acc => score_query np_log2 self x.1 x.2 acc)
             (slice qs qe sq) acc.
Proof.
  intros Hwf Hqe.
  replace (length (map cands (slice qs qe (map encode (queries self)))))
    with (length (slice qs qe sq)).
  2:{ rewrite length_map, !length_slice, length_map, length_scored_queries; done. }
  apply for_each_seq_lookup. intros i x s. rewrite lookup_slice.
  case_decide as Hi; [|done]. intros Hx.
  destruct (scored_queries_lookup _ _ Hwf Hx)
    as (qid & text & docs & Hqid & Htext & Hdocs & _ & ->).
  rewrite (proj2 (py_index_Ok _ _ _) Hqid). simpl.
  rewrite (proj2 (py_index_Ok (map cands _) i (cands (encode text)))).
  - simpl. by rewrite Hdocs.
  - rewrite list_lookup_fmap, lookup_slice, decide_True by done.
    by rewrite list_lookup_fmap, Htext.
Qed.

(** Once its corpus loop is through, a query chunk scores its queries in
    order, each on its sorted candidates. *)
Lemma query_chunk_eq qs qrl acc :
  well_formed self ->
  corpus_chunk_size self <> 0 ->
  let qe := (qs + query_chunk_size self) `min` length (queries self) in
  for_each (corpus_chunk cos fmax argpartition self max_k
              (slice qs qe (map encode (queries self)))
              (map encode (corpus self)))
           (corpus_starts self) (replicate (qe - qs) []) = Ok qrl ->
  query_chunk cos fmax argpartition np_log2 self max_k
    (map encode (queries self)) (map encode (corpus self)) qs acc
  = for_each (fun x acc => score_query np_log2 self x.1 x.2 acc)
             (slice qs qe sq) acc.
Proof.
  intros Hwf Hccs qe Hloop. unfold query_chunk. rewrite !length_map.
  rewrite py_range_Ok by done. simpl. fold (corpus_starts self). fold qe.
  rewrite Hloop. simpl.
  assert (length (slice qs qe (map encode (queries self))) = qe - qs) as Hlen.
  { rewrite length_slice, length_map. unfold qe. lia. }
  apply corpus_loop_inv in Hloop; [|by rewrite length_replicate].
  rewrite <- Hlen, zip_with_replicate_l in Hloop. subst qrl.
  apply scoring_loop; [done|]. unfold qe. lia.
Qed.

End QueryChunk.

(** ** All query chunks *)

Section Accumulate.

Context {Emb : Type}.
Variable encode : string -> Emb.
Variable cos : Emb -> Emb -> npfloat.
Variable fmax : Q.
Variable argpartition : list Q -> nat -> list nat.
Variable np_log2 : nat -> Q.
Variable self : InformationRetrievalEvaluator.
Variable max_k : nat.

Abbreviation scored := (scored_queries encode cos fmax argpartition self max_k).
Abbreviation score :=
  (fun (x : list hit * gset string) acc => score_query np_log2 self x.1 x.2 acc).
Abbreviation query_starts :=
  (map (fun i => i * query_chunk_size self)
       (seq 0 ((length (queries self) + query_chunk_size self - 1)
               / query_chunk_size self))).

(** Scoring chunk after chunk is scoring query after query. *)
Lemma for_each_query_slices acc :
  well_formed self ->
  query_chunk_size self <> 0 ->
  for_each (fun qs acc =>
              for_each score
                (slice qs ((qs + query_chunk_size self) `min` length (queries self))
                       scored) acc)
           query_starts acc
  = for_each score scored acc.
Proof.
  intros Hwf Hqcs.
  rewrite <- (for_each_map (fun l acc => for_each score l acc)
                (fun qs => slice qs ((qs + query_chunk_size self)
                                     `min` length (queries self)) scored)).
  rewrite for_each_concat. rewrite <- (length_scored_queries encode cos fmax
                                          argpartition self max_k Hwf).
  by rewrite concat_chunks.
Qed.

Lemma query_chunk_inv qs acc acc' :
  well_formed self ->
  query_chunk cos fmax argpartition np_log2 self max_k
    (map encode (queries self)) (map encode (corpus self)) qs acc = Ok acc' ->
  for_each score
    (slice qs ((qs + query_chunk_size self) `min` length (queries self)) scored)
    acc = Ok acc'.
Proof.
  intros Hwf H. pose proof H as H'. unfold query_chunk in H'. inv_ok H'.
  rewrite !length_map in Ha, Ha0. apply py_range_inv in Ha as [Hccs ->].
  by rewrite <- (query_chunk_eq encode cos fmax argpartition np_log2 self max_k
                   qs a0 acc Hwf Hccs Ha0).
Qed.

Lemma query_loop_inv acc acc' :
  well_formed self ->
  query_chunk_size self <> 0 ->
  for_each (query_chunk cos fmax argpartition np_log2 self max_k
              (map encode (queries self)) (map encode (corpus self)))
           query_starts acc = Ok acc' ->
  for_each score scored acc = Ok acc'.
Proof.
  intros Hwf Hqcs H. rewrite <- for_each_query_slices by done.
  revert H. apply for_each_ok_ext. intros qs s s' _. by apply query_chunk_inv.
Qed.

Lemma query_loop_eq acc :
  well_formed self ->
  in_range argpartition ->
  query_chunk_size self <> 0 ->
  corpus_chunk_size self <> 0 ->
  kth_checks self max_k (corpus_starts self) = Ok tt ->
  for_each (query_chunk cos fmax argpartition np_log2 self max_k
              (map encode (queries self)) (map encode (corpus self)))
           query_starts acc
  = for_each score scored acc.
Proof.
  intros Hwf Hrange Hqcs Hccs Hbig. rewrite <- for_each_query_slices by done.
  apply for_each_ext. intros qs s Hqs.
  apply (range_start_lt _ _ _ Hqcs) in Hqs.
  set (qe := (qs + query_chunk_size self) `min` length (queries self)).
  assert (length (slice qs qe (map encode (queries self))) = qe - qs) as Hlen.
  { rewrite length_slice, length_map. unfold qe. lia. }
  pose proof (corpus_loop_is_ok encode cos fmax argpartition self max_k
                (slice qs qe (map encode (queries self))) (corpus_starts self)
                (replicate (qe - qs) []) Hrange) as Hok.
  destruct (for_each _ (corpus_starts self) (replicate (qe - qs) []))
    as [qrl|e] eqn:Hloop.
  - by apply (query_chunk_eq encode cos fmax argpartition np_log2 self max_k
                qs qrl s Hwf Hccs).
  - discriminate Hok; [apply Hwf| | |by apply corpus_starts_pos|done].
    + intros Hnil. rewrite Hnil in Hlen. simpl in Hlen. unfold qe in Hlen. lia.
    + by rewrite length_replicate.
Qed.

End Accumulate.

(** ** Well-formedness of constructed evaluators *)

Lemma odict_get_is_Some (d : list (string * string)) k :
  k ∈ map fst d -> is_Some (odict_get d k).
Proof.
  induction d as [|[k' v] d IH]; simpl; [by intros ?%elem_of_nil|].
  intros Hk. case_decide; [by eexists|]. apply IH.
  apply elem_of_cons in Hk as [->|Hk]; done.
Qed.

Lemma length_omap_total {A B} (f : A -> option B) (l : list A) :
  Forall (fun x => is_Some (f x)) l -> length (omap f l) = length l.
Proof.
  induction 1 as [|x l [y Hy] _ IH]; simpl; [done|]. rewrite Hy. simpl.
  by f_equal.
Qed.

Lemma init_well_formed queries corpus relevant_docs query_chunk_size
    corpus_chunk_size mrr_at_k ndcg_at_k accuracy_at_k precision_recall_at_k
    batch_size name :
  well_formed (init queries corpus relevant_docs query_chunk_size
                 corpus_chunk_size mrr_at_k ndcg_at_k accuracy_at_k
                 precision_recall_at_k batch_size name).
Proof.
  unfold well_formed. simpl. rewrite init_queries_ids_filter. repeat split.
  - apply length_omap_total, Forall_forall. intros qid Hqid.
    apply list_elem_of_filter in Hqid as [_ Hqid]. by apply odict_get_is_Some.
  - apply length_omap_total, Forall_forall. intros cid Hcid.
    by apply odict_get_is_Some.
  - intros qid Hqid. by apply list_elem_of_filter in Hqid as [Hqid _].
Qed.

(** ** The accumulators in closed form *)

Section Accumulated.

Context {Emb : Type}.
Variable encode : string -> Emb.
Variable cos : Emb -> Emb -> npfloat.
Variable fmax : Q.
Variable argpartition : list Q -> nat -> list nat.
Variable np_log2 : nat -> Q.
Variable self : InformationRetrievalEvaluator.

Abbreviation scored_at max_k :=
  (scored_queries encode cos fmax argpartition self max_k).
Abbreviation scoring :=
  (fun (x : list hit * gset string) acc => score_query np_log2 self x.1 x.2 acc).

(** A run that does not raise has scored every retained query, in order, on
    its sorted candidates. *)
Lemma accumulate_inv acc :
  well_formed self ->
  accumulate encode cos fmax argpartition np_log2 self = Ok acc ->
  exists max_k,
    compute_max_k self = Ok max_k
    /\ for_each scoring (scored_at max_k) (init_accumulators self) = Ok acc.
Proof.
  intros Hwf H. unfold accumulate in H. inv_ok H. exists a. split; [done|].
  rewrite length_map in Ha0. apply py_range_inv in Ha0 as [Hqcs ->].
  by apply query_loop_inv.
Qed.

(** With indices in range and a cut-off that [np.argpartition] accepts for
    every corpus chunk, the run is that scoring, exceptions included. *)
Lemma accumulate_eq_kth max_k :
  well_formed self ->
  in_range argpartition ->
  query_chunk_size self <> 0 ->
  corpus_chunk_size self <> 0 ->
  compute_max_k self = Ok max_k ->
  kth_checks self max_k (corpus_starts self) = Ok tt ->
  accumulate encode cos fmax argpartition np_log2 self
  = for_each scoring (scored_at max_k) (init_accumulators self).
Proof.
  intros Hwf Hrange Hqcs Hccs Hmax Hbig. unfold accumulate. rewrite Hmax. simpl.
  rewrite length_map, py_range_Ok by done. simpl. by apply query_loop_eq.
Qed.

(** So it is when every corpus chunk is larger than [max_k]. *)
Lemma accumulate_eq max_k :
  well_formed self ->
  in_range argpartition ->
  query_chunk_size self <> 0 ->
  corpus_chunk_size self <> 0 ->
  compute_max_k self = Ok max_k ->
  Forall (fun start => max_k < chunk_length self start) (corpus_starts self) ->
  accumulate encode cos fmax argpartition np_log2 self
  = for_each scoring (scored_at max_k) (init_accumulators self).
Proof.
  intros Hwf Hrange Hqcs Hccs Hmax Hbig.
  apply accumulate_eq_kth; [done..|]. by apply kth_checks_big.
Qed.

End Accumulated.

(** ** Averages and the result of a call *)

Lemma dict_div_inv {V} (toQ : V -> Q) (d : gmap nat V) n r :
  dict_div toQ d n = Ok r ->
  r = (fun v => toQ v / Qnat n)%Q <$> d /\ (size d <> 0 -> n <> 0).
Proof.
  unfold dict_div. case_decide as Hsize.
  - intros [= <-]. apply map_size_empty_iff in Hsize as ->.
    by rewrite fmap_empty.
  - case_decide; [done|]. by intros [= <-].
Qed.

Lemma average_inv self acc m :
  average self acc = Ok m ->
  accuracy_avg m
  = (fun c => Qnat c / Qnat (length (queries self)))%Q <$> num_hits_at_k acc
  /\ precision_avg m = np_mean <$> precisions_at_k acc
  /\ recall_avg m = np_mean <$> recall_at_k acc
  /\ mrr_avg m = (fun v => v / Qnat (length (queries self)))%Q <$> MRR acc
  /\ ndcg_avg m = np_mean <$> ndcg acc
  /\ (size (num_hits_at_k acc) <> 0 -> length (queries self) <> 0).
Proof.
  unfold average. intros H. inv_ok H. injection H as <-. simpl.
  apply dict_div_inv in Ha as [-> Hn], Ha0 as [-> _]. done.
Qed.

Lemma call_inv {Emb} (encode : string -> Emb) cos fmax argpartition np_log2
    self fs output_path epoch steps out :
  call encode cos fmax argpartition np_log2 self fs output_path epoch steps
  = Ok out ->
  exists acc k,
    accumulate encode cos fmax argpartition np_log2 self = Ok acc
    /\ average self acc = Ok (reported out)
    /\ py_max (mrr_at_k self) = Ok k
    /\ mrr_avg (reported out) !! k = Some (returned out)
    /\ match output_path with
       | Some dir => write_csv self dir (reported out) epoch steps fs
       | None => Ok fs
       end = Ok (files out).
Proof.
  unfold call. intros H. inv_ok H. injection H as <-. simpl.
  exists a, a2. repeat split; try done.
  unfold dict_get in Ha3. by destruct (mrr_avg a0 !! a2) as [v|]; simplify_eq.
Qed.

(** ** The accumulators after every query *)

Lemma score_query_rewrites_hits np_log2 self :
  rewrites num_hits_at_k
    (fun x k0 => Nat.iter (occurrences k0 (accuracy_at_k self))
                          (count_hit x.1 x.2 k0))
    (fun x acc => score_query np_log2 self x.1 x.2 acc).
Proof. intros x s s' Hs k0. apply (score_query_lookup _ _ _ _ _ _ Hs). Qed.

Lemma score_query_rewrites_precisions np_log2 self :
  rewrites precisions_at_k
    (fun x k0 => Nat.iter (occurrences k0 (precision_recall_at_k self))
                          (snoc_precision x.1 x.2 k0))
    (fun x acc => score_query np_log2 self x.1 x.2 acc).
Proof. intros x s s' Hs k0. apply (score_query_lookup _ _ _ _ _ _ Hs). Qed.

Lemma score_query_rewrites_recalls np_log2 self :
  rewrites recall_at_k
    (fun x k0 => Nat.iter (occurrences k0 (precision_recall_at_k self))
                          (snoc_recall x.1 x.2 k0))
    (fun x acc => score_query np_log2 self x.1 x.2 acc).
Proof. intros x s s' Hs k0. apply (score_query_lookup _ _ _ _ _ _ Hs). Qed.

Lemma score_query_rewrites_MRR np_log2 self :
  rewrites MRR
    (fun x k0 => Nat.iter (occurrences k0 (mrr_at_k self))
                          (add_reciprocal_rank x.1 x.2 k0))
    (fun x acc => score_query np_log2 self x.1 x.2 acc).
Proof. intros x s s' Hs k0. apply (score_query_lookup _ _ _ _ _ _ Hs). Qed.

Lemma score_query_rewrites_ndcg np_log2 self :
  rewrites ndcg
    (fun x k0 => Nat.iter (occurrences k0 (ndcg_at_k self))
                          (snoc_ndcg np_log2 x.1 x.2 k0))
    (fun x acc => score_query np_log2 self x.1 x.2 acc).
Proof. intros x s s' Hs k0. apply (score_query_lookup _ _ _ _ _ _ Hs). Qed.

Section Scored.

Variable np_log2 : nat -> Q.
Variable self : InformationRetrievalEvaluator.
Variable sq : list (list hit * gset string).
Variable acc : accumulators.

Hypothesis Hrun :
  for_each (fun x acc => score_query np_log2 self x.1 x.2 acc) sq
           (init_accumulators self) = Ok acc.

Lemma accumulated_hits k :
  num_hits_at_k acc !! k
  = if decide (k ∈ accuracy_at_k self)
    then Some (occurrences k (accuracy_at_k self)
               * length (filter (fun x => hit_at x.1 x.2 k) sq))
    else None.
Proof.
  rewrite (for_each_rewrites _ _ _ _ _ _ (score_query_rewrites_hits np_log2 self) Hrun).
  simpl. rewrite dict_init_lookup. case_decide; simpl; [|done].
  by rewrite foldl_count_hits.
Qed.

Lemma accumulated_precisions k :
  precisions_at_k acc !! k
  = if decide (k ∈ precision_recall_at_k self)
    then Some (repeated (occurrences k (precision_recall_at_k self))
                        (map (fun x => precision_at x.1 x.2 k) sq))
    else None.
Proof.
  rewrite (for_each_rewrites _ _ _ _ _ _ (score_query_rewrites_precisions np_log2 self) Hrun).
  simpl. rewrite dict_init_lookup. case_decide; simpl; [|done].
  unfold snoc_precision.
  by rewrite (foldl_snocs (fun x => precision_at x.1 x.2 k)).
Qed.

Lemma accumulated_recalls k :
  recall_at_k acc !! k
  = if decide (k ∈ precision_recall_at_k self)
    then Some (repeated (occurrences k (precision_recall_at_k self))
                        (map (fun x => recall_at x.1 x.2 k) sq))
    else None.
Proof.
  rewrite (for_each_rewrites _ _ _ _ _ _ (score_query_rewrites_recalls np_log2 self) Hrun).
  simpl. rewrite dict_init_lookup. case_decide; simpl; [|done].
  unfold snoc_recall.
  by rewrite (foldl_snocs (fun x => recall_at x.1 x.2 k)).
Qed.

Lemma accumulated_MRR k :
  k ∈ mrr_at_k self ->
  exists v, MRR acc !! k = Some v
    /\ (v == Qnat (occurrences k (mrr_at_k self))
             * Qsum (map (fun x => reciprocal_rank x.1 x.2 k) sq))%Q.
Proof.
  intros Hk.
  rewrite (for_each_rewrites _ _ _ _ _ _ (score_query_rewrites_MRR np_log2 self) Hrun).
  simpl. rewrite dict_init_lookup, decide_True by done. simpl.
  eexists. split; [done|]. rewrite foldl_reciprocal_ranks. ring.
Qed.

Lemma accumulated_ndcg k :
  ndcg acc !! k
  = if decide (k ∈ ndcg_at_k self)
    then Some (foldl (fun l x => Nat.iter (occurrences k (ndcg_at_k self))
                                          (snoc_ndcg np_log2 x.1 x.2 k) l)
                     [] sq)
    else None.
Proof.
  rewrite (for_each_rewrites _ _ _ _ _ _ (score_query_rewrites_ndcg np_log2 self) Hrun).
  simpl. rewrite dict_init_lookup. by case_decide.
Qed.

End Scored.

(** * Further properties of the evaluation *)

(** ** The largest cut-off *)

Lemma foldl_max_spec l x :
  (foldl Nat.max x l = x \/ foldl Nat.max x l ∈ l)
  /\ x <= foldl Nat.max x l
  /\ Forall (fun k => k <= foldl Nat.max x l) l.
Proof.
  revert x. induction l as [|y l IH]; intros x; simpl.
  - split; [by left|]. split; [lia|constructor].
  - destruct (IH (x `max` y)) as ([Hm|Hm] & Hle & Hall).
    + split; [|split; [lia|constructor; [lia|done]]].
      rewrite Hm. destruct (Nat.max_spec x y) as [[_ ->]|[_ ->]]; [right; left|by left].
    + split; [right; by right|]. split; [lia|constructor; [lia|done]].
Qed.

Lemma py_max_spec l m :
  py_max l = Ok m -> m ∈ l /\ Forall (fun k => k <= m) l.
Proof.
  destruct l as [|x l]; [done|]. intros [= <-].
  destruct (foldl_max_spec l x) as ([Hm|Hm] & Hle & Hall).
  - split; [rewrite Hm; left|by constructor].
  - split; [by right|by constructor].
Qed.

Lemma compute_max_k_upper self max_k :
  compute_max_k self = Ok max_k ->
  Forall (fun k => k <= max_k)
         (mrr_at_k self ++ ndcg_at_k self ++ accuracy_at_k self
          ++ precision_recall_at_k self).
Proof.
  unfold compute_max_k. intros H. inv_ok H. injection H as <-.
  apply py_max_spec in Ha as [_ Hla], Ha0 as [_ Hlb], Ha1 as [_ Hlc],
    Ha2 as [_ Hld].
  rewrite !Forall_app. repeat split;
    (eapply Forall_impl; [eassumption|]; simpl; intros; lia).
Qed.

(** X1. [max_k] of line 85 is one of the requested cut-offs and no requested
    cut-off of any of the four families exceeds it. *)
Theorem max_k_bounds_every_cutoff self max_k :
  compute_max_k self = Ok max_k ->
  max_k ∈ mrr_at_k self ++ ndcg_at_k self ++ accuracy_at_k self
          ++ precision_recall_at_k self
  /\ Forall (fun k => k <= max_k)
            (mrr_at_k self ++ ndcg_at_k self ++ accuracy_at_k self
             ++ precision_recall_at_k self).
Proof.
  unfold compute_max_k. intros H. inv_ok H. injection H as <-.
  apply py_max_spec in Ha as [Ha Hla], Ha0 as [Hb Hlb], Ha1 as [Hc Hlc],
    Ha2 as [Hd Hld].
  split.
  - rewrite !elem_of_app.
    destruct (Nat.max_spec (Nat.max (Nat.max a a0) a1) a2)
      as [[_ ->]|[_ ->]]; [tauto|].
    destruct (Nat.max_spec (Nat.max a a0) a1) as [[_ ->]|[_ ->]]; [tauto|].
    destruct (Nat.max_spec a a0) as [[_ ->]|[_ ->]]; tauto.
  - rewrite !Forall_app. repeat split;
      (eapply Forall_impl; [eassumption|]; simpl; intros; lia).
Qed.

Lemma max_k_bounds_every_cutoff_witness :
  let self := toy_evaluator 10 100 [2] [1] [1; 2] [1] in
  compute_max_k self = Ok 2
  /\ 2 ∈ mrr_at_k self ++ ndcg_at_k self ++ accuracy_at_k self
         ++ precision_recall_at_k self
  /\ Forall (fun k => k <= 2)
            (mrr_at_k self ++ ndcg_at_k self ++ accuracy_at_k self
             ++ precision_recall_at_k self).
Proof.
  intros self. assert (compute_max_k self = Ok 2) as H by reflexivity.
  split; [exact H|]. exact (max_k_bounds_every_cutoff self 2 H).
Defined.

(** ** Only the first [max_k] hits count *)

Lemma slice_0_take_take {A} (l : list A) k m :
  k <= m -> slice 0 k (take m l) = slice 0 k l.
Proof. intros. rewrite !slice_0, take_take. f_equal. lia. Qed.

Lemma score_query_prefix np_log2 self top_hits docs acc m :
  Forall (fun k => k <= m)
         (mrr_at_k self ++ ndcg_at_k self ++ accuracy_at_k self
          ++ precision_recall_at_k self) ->
  score_query np_log2 self (take m top_hits) docs acc
  = score_query np_log2 self top_hits docs acc.
Proof.
  rewrite !Forall_app, !Forall_forall. intros (Hmrr & Hnd & Hacc & Hpr).
  unfold score_query.
  rewrite (for_each_ext (accuracy_step (take m top_hits) docs)
             (accuracy_step top_hits docs)).
  2:{ intros k s Hk. unfold accuracy_step.
      by rewrite slice_0_take_take by auto. }
  destruct (for_each (accuracy_step top_hits docs) _ _) as [hits|]; simpl; [|done].
  rewrite (for_each_ext (precision_recall_step (take m top_hits) docs)
             (precision_recall_step top_hits docs)).
  2:{ intros k s Hk. unfold precision_recall_step, num_correct.
      by rewrite slice_0_take_take by auto. }
  destruct (for_each (precision_recall_step top_hits docs) _ _) as [pr|];
    simpl; [|done].
  rewrite (for_each_ext (mrr_step (take m top_hits) docs)
             (mrr_step top_hits docs)).
  2:{ intros k s Hk. unfold mrr_step. by rewrite slice_0_take_take by auto. }
  destruct (for_each (mrr_step top_hits docs) _ _) as [mrr|]; simpl; [|done].
  rewrite (for_each_ext (ndcg_step np_log2 (take m top_hits) docs)
             (ndcg_step np_log2 top_hits docs)).
  2:{ intros k s Hk. unfold ndcg_step, ndcg_value.
      by rewrite slice_0_take_take by auto. }
  done.
Qed.

(** X2. The metrics of a query read only its first [max_k] sorted hits:
    scoring the list cut after [max_k] hits updates the accumulators, or
    raises, exactly as scoring the whole list. *)
Theorem score_query_reads_first_max_k np_log2 self max_k top_hits docs acc :
  compute_max_k self = Ok max_k ->
  score_query np_log2 self (take max_k top_hits) docs acc
  = score_query np_log2 self top_hits docs acc.
Proof.
  intros H. apply score_query_prefix.
  by apply compute_max_k_upper in H.
Qed.

Lemma score_query_reads_first_max_k_witness :
  let self := toy_evaluator 10 100 [1] [1] [1] [1] in
  let hits := [ {| corpus_id := "d2"; score := 1%Q |};
                {| corpus_id := "d1"; score := 0%Q |} ] in
  compute_max_k self = Ok 1
  /\ score_query log2_fixed self (take 1 hits) {[ "d2" ]}
                 (init_accumulators self)
     = score_query log2_fixed self hits {[ "d2" ]} (init_accumulators self).
Proof.
  intros self hits. assert (compute_max_k self = Ok 1) as H by reflexivity.
  split; [exact H|].
  exact (score_query_reads_first_max_k log2_fixed self 1 hits {[ "d2" ]}
           (init_accumulators self) H).
Defined.

(** ** Degenerate inputs *)

Lemma filter_none {A} (P : A -> Prop) `{!forall x, Decision (P x)} (l : list A) :
  Forall (fun x => ~ P x) l -> filter P l = [].
Proof.
  induction 1 as [|x l Hx _ IH]; [done|]. by rewrite filter_cons_False.
Qed.

Lemma size_dict_init {V} (v0 : V) ks : ks <> [] -> size (dict_init v0 ks) <> 0.
Proof.
  destruct ks as [|k ks]; [done|]. intros _ Hsize.
  apply map_size_empty_iff in Hsize.
  pose proof (dict_init_lookup v0 (k :: ks) k) as Hk.
  rewrite Hsize, lookup_empty, decide_True in Hk by left. done.
Qed.

Lemma compute_max_k_nonempty self max_k :
  compute_max_k self = Ok max_k ->
  mrr_at_k self <> [] /\ ndcg_at_k self <> [] /\ accuracy_at_k self <> []
  /\ precision_recall_at_k self <> [].
Proof.
  unfold compute_max_k. intros H. inv_ok H.
  repeat split; intros Hnil; rewrite Hnil in *; done.
Qed.

Lemma accumulate_no_queries {Emb} (encode : string -> Emb) cos fmax
    argpartition np_log2 self max_k :
  compute_max_k self = Ok max_k ->
  query_chunk_size self <> 0 ->
  queries self = [] ->
  accumulate encode cos fmax argpartition np_log2 self
  = Ok (init_accumulators self).
Proof.
  intros Hmax Hqcs Hq. unfold accumulate. rewrite Hmax, Hq. simpl.
  rewrite py_range_Ok by done. simpl.
  rewrite Nat.div_small by lia. done.
Qed.

(** X3. When no query is retained (every query lacks relevant documents),
    a call with four non-empty k-lists computes nothing and raises
    [ZeroDivisionError] at line 168, where the hit counts are divided by the
    number of queries. *)
Theorem call_without_retained_queries_raises {Emb} (encode : string -> Emb) cos
    fmax argpartition np_log2
    (qdict cdict : list (string * string)) relevant_docs query_chunk_size
    corpus_chunk_size mrr_at_k ndcg_at_k accuracy_at_k precision_recall_at_k
    batch_size name fs output_path epoch steps :
  let self := init qdict cdict relevant_docs query_chunk_size
                corpus_chunk_size mrr_at_k ndcg_at_k accuracy_at_k
                precision_recall_at_k batch_size name in
  (forall qid, qid ∈ map fst qdict -> ~ retained relevant_docs qid) ->
  mrr_at_k <> [] -> ndcg_at_k <> [] -> accuracy_at_k <> [] ->
  precision_recall_at_k <> [] ->
  query_chunk_size <> 0 ->
  call encode cos fmax argpartition np_log2 self fs output_path epoch steps
  = Raise ZeroDivisionError.
Proof.
  intros self Hnone Hmrr Hnd Hacc Hpr Hqcs.
  assert (queries_ids self = []) as Hids.
  { simpl. rewrite init_queries_ids_filter.
    apply filter_none, Forall_forall. intros qid Hqid. by apply Hnone. }
  assert (queries self = []) as Hq.
  { simpl in *. by rewrite Hids. }
  assert (exists m, compute_max_k self = Ok m) as [m Hm].
  { unfold compute_max_k. simpl.
    destruct mrr_at_k, ndcg_at_k, accuracy_at_k, precision_recall_at_k;
      try done. simpl. eauto. }
  unfold call. rewrite (accumulate_no_queries _ _ _ _ _ _ _ Hm) by done.
  simpl. unfold average, dict_div. rewrite Hq. simpl.
  destruct (decide (size (dict_init 0 accuracy_at_k) = 0)) as [Hsize|_]; [|done].
  by apply size_dict_init in Hsize.
Qed.

Lemma call_without_retained_queries_raises_witness :
  let self := init [("q1", "a")] [("d1", "x"); ("d2", "y")] ∅ 10 100
                   [1] [1] [1] [1] 16 "" in
  (forall qid, qid ∈ map fst [("q1", "a")] -> ~ retained ∅ qid)
  /\ toy_call self None = Raise ZeroDivisionError.
Proof.
  intros self.
  assert (forall qid : string,
            qid ∈ map fst [("q1", "a")] ->
            ~ retained (∅ : gmap string (gset string)) qid) as Hnone.
  { intros qid _ (docs & Hdocs & _). by rewrite lookup_empty in Hdocs. }
  split; [exact Hnone|].
  exact (call_without_retained_queries_raises toy_encode toy_cos float32_max
           argsort log2_fixed [("q1", "a")] [("d1", "x"); ("d2", "y")] ∅ 10 100
           [1] [1] [1] [1] 16 "" ∅ None (-1)%Z (-1)%Z Hnone
           ltac:(discriminate) ltac:(discriminate) ltac:(discriminate)
           ltac:(discriminate) ltac:(discriminate)).
Defined.

Lemma query_chunk_zero_step {Emb} (cos : Emb -> Emb -> npfloat) fmax
    argpartition np_log2 self max_k qembs cembs qs acc :
  corpus_chunk_size self = 0 ->
  query_chunk cos fmax argpartition np_log2 self max_k qembs cembs qs acc
  = Raise (ValueError RangeStepZero).
Proof. intros Hc. unfold query_chunk. rewrite Hc. simpl. done. Qed.

(** X4. A chunk size of 0 makes [range] raise [ValueError]: for the query
    chunk size at line 102 whatever the queries, for the corpus chunk size at
    line 108 as soon as one query is retained. *)
Theorem zero_chunk_size_raises {Emb} (encode : string -> Emb) cos fmax
    argpartition np_log2 self max_k fs output_path epoch steps :
  compute_max_k self = Ok max_k ->
  query_chunk_size self = 0
  \/ (corpus_chunk_size self = 0 /\ queries self <> []) ->
  call encode cos fmax argpartition np_log2 self fs output_path epoch steps
  = Raise (ValueError RangeStepZero).
Proof.
  intros Hmax Hzero. unfold call, accumulate. rewrite Hmax. simpl.
  destruct (decide (query_chunk_size self = 0)) as [Hq|Hq].
  { rewrite Hq. simpl. done. }
  destruct Hzero as [?|[Hc Hne]]; [done|].
  rewrite py_range_Ok by done. simpl. rewrite length_map.
  destruct (queries self) as [|text texts] eqn:Htexts; [done|].
  simpl length.
  destruct ((S (length texts) + query_chunk_size self - 1)
            / query_chunk_size self) as [|m] eqn:Hdiv.
  { apply Nat.div_small_iff in Hdiv; [lia|done]. }
  simpl. rewrite query_chunk_zero_step by done. simpl. done.
Qed.

Lemma zero_chunk_size_raises_witness :
  let self := toy_evaluator 10 0 [1] [1] [1] [1] in
  compute_max_k self = Ok 1
  /\ (query_chunk_size self = 0
      \/ (corpus_chunk_size self = 0 /\ queries self <> []))
  /\ toy_call self None = Raise (ValueError RangeStepZero).
Proof.
  intros self. assert (compute_max_k self = Ok 1) as Hmax by reflexivity.
  assert (query_chunk_size self = 0
          \/ (corpus_chunk_size self = 0 /\ queries self <> [])) as Hzero.
  { right. split; [reflexivity|]. vm_compute. discriminate. }
  split; [exact Hmax|]. split; [exact Hzero|].
  exact (zero_chunk_size_raises toy_encode toy_cos float32_max argsort
           log2_fixed self 1 ∅ None (-1)%Z (-1)%Z Hmax Hzero).
Defined.

(** ** Cut-offs of zero *)

Lemma for_each_Ok_Forall {A S} (step : A -> S -> result S) l s s' :
  for_each step l s = Ok s' ->
  Forall (fun x => exists s1 s2, step x s1 = Ok s2) l.
Proof.
  revert s. induction l as [|x l IH]; intros s; simpl; [constructor|].
  intros H. inv_ok H. constructor; eauto.
Qed.

Lemma compute_dcg_at_k_0 np_log2 relevances :
  compute_dcg_at_k np_log2 relevances 0 = Ok (PyInt 0).
Proof. unfold compute_dcg_at_k. by rewrite Nat.min_0_r. Qed.

Lemma ndcg_value_0 np_log2 top_hits docs :
  ndcg_value np_log2 top_hits docs 0 = Raise ZeroDivisionError.
Proof. unfold ndcg_value. by rewrite !compute_dcg_at_k_0. Qed.

Lemma score_query_cutoffs np_log2 self top_hits docs acc acc' :
  score_query np_log2 self top_hits docs acc = Ok acc' ->
  (0 ∉ precision_recall_at_k self) /\ (0 ∉ ndcg_at_k self).
Proof.
  unfold score_query. intros H. inv_ok H.
  apply for_each_Ok_Forall in Ha0, Ha2. rewrite Forall_forall in Ha0, Ha2.
  split.
  - intros Hin. destruct (Ha0 0 Hin) as (s1 & s2 & Hs).
    by apply precision_recall_step_inv in Hs as [? _].
  - intros Hin. destruct (Ha2 0 Hin) as (s1 & s2 & Hs).
    unfold ndcg_step in Hs. by rewrite ndcg_value_0 in Hs.
Qed.

Section CallOk.

Context {Emb : Type}.
Variable encode : string -> Emb.
Variable cos : Emb -> Emb -> npfloat.
Variable fmax : Q.
Variable argpartition : list Q -> nat -> list nat.
Variable np_log2 : nat -> Q.
Variable self : InformationRetrievalEvaluator.
Variable fs : filesystem.
Variable output_path : option string.
Variable epoch steps : Z.
Variable out : outcome.

Hypothesis Hwf : well_formed self.
Hypothesis Hcall :
  call encode cos fmax argpartition np_log2 self fs output_path epoch steps
  = Ok out.

(** What a call that returns went through. *)
Lemma call_Ok_scored :
  exists acc max_k,
    compute_max_k self = Ok max_k
    /\ for_each (fun x acc => score_query np_log2 self x.1 x.2 acc)
                (scored_queries encode cos fmax argpartition self max_k)
                (init_accumulators self) = Ok acc
    /\ average self acc = Ok (reported out)
    /\ queries self <> [].
Proof.
  destruct (call_inv _ _ _ _ _ _ _ _ _ _ _ Hcall)
    as (acc & k & Hacc & Havg & _).
  destruct (accumulate_inv _ _ _ _ _ _ _ Hwf Hacc) as (max_k & Hmax & Hrun).
  exists acc, max_k. repeat split; try done.
  intros Hq. apply average_inv in Havg as (_ & _ & _ & _ & _ & Hsize).
  rewrite Hq in Hsize. apply Hsize; [|done].
  assert (acc = init_accumulators self) as ->.
  { pose proof (length_scored_queries encode cos fmax argpartition self max_k
                  Hwf) as Hlen.
    rewrite Hq in Hlen. apply nil_length_inv in Hlen. rewrite Hlen in Hrun.
    by injection Hrun. }
  apply size_dict_init. by apply compute_max_k_nonempty in Hmax as (_ & _ & ? & _).
Qed.

Lemma call_Ok_cutoffs_positive :
  (0 ∉ precision_recall_at_k self) /\ (0 ∉ ndcg_at_k self).
Proof.
  destruct call_Ok_scored as (acc & max_k & Hmax & Hrun & _ & Hq).
  pose proof (length_scored_queries encode cos fmax argpartition self max_k
                Hwf) as Hlen.
  destruct (scored_queries encode cos fmax argpartition self max_k)
    as [|x sq]; [by destruct (queries self)|].
  simpl in Hrun. inv_ok Hrun. by eapply score_query_cutoffs.
Qed.

End CallOk.

(** X5. A call never returns when 0 is among the precision/recall or the
    NDCG cut-offs: the precision quotient of line 148 and the DCG quotient of
    line 163 divide by zero for the first query, and without queries line 168
    does. *)
Theorem call_with_zero_cutoff_raises {Emb} (encode : string -> Emb) cos fmax
    argpartition np_log2
    (qdict cdict : list (string * string)) relevant_docs query_chunk_size
    corpus_chunk_size mrr_at_k ndcg_at_k accuracy_at_k precision_recall_at_k
    batch_size name fs output_path epoch steps :
  let self := init qdict cdict relevant_docs query_chunk_size
                corpus_chunk_size mrr_at_k ndcg_at_k accuracy_at_k
                precision_recall_at_k batch_size name in
  0 ∈ precision_recall_at_k \/ 0 ∈ ndcg_at_k ->
  is_ok (call encode cos fmax argpartition np_log2 self fs output_path epoch
              steps) = false.
Proof.
  intros self Hzero.
  destruct (call encode cos fmax argpartition np_log2 self fs output_path
                 epoch steps) as [out|e] eqn:Hcall; [|done].
  destruct (call_Ok_cutoffs_positive _ _ _ _ _ _ _ _ _ _ _
              (init_well_formed _ _ _ _ _ _ _ _ _ _ _) Hcall) as [Hpr Hnd].
  simpl in Hpr, Hnd. tauto.
Qed.

Lemma call_with_zero_cutoff_raises_witness :
  let self := toy_evaluator 10 100 [1] [1] [1] [0; 1] in
  (0 ∈ [0; 1] \/ 0 ∈ [1]) /\ is_ok (toy_call self None) = false.
Proof.
  intros self. assert (0 ∈ [0; 1] \/ 0 ∈ [1]) as Hzero by (left; left).
  split; [exact Hzero|].
  exact (call_with_zero_cutoff_raises toy_encode toy_cos float32_max argsort
           log2_fixed [("q1", "a")] [("d1", "x"); ("d2", "y"); ("d3", "z")]
           {[ "q1" := {[ "d2" ]} ]} 10 100 [1] [1] [1] [0; 1] 16 "" ∅ None
           (-1)%Z (-1)%Z Hzero).
Defined.

(** ** Bounds on quotients and means *)

Lemma Qdiv_nonneg a b : (0 <= a)%Q -> (0 <= b)%Q -> (0 <= a / b)%Q.
Proof.
  intros Ha Hb. unfold Qdiv. apply Qmult_le_0_compat; [done|].
  by apply Qinv_le_0_compat.
Qed.

Lemma Qdiv_le_1 a b : (0 <= a)%Q -> (a <= b)%Q -> (a / b <= 1)%Q.
Proof.
  intros Ha Hab. destruct (Qeq_dec b 0) as [Hb|Hb].
  - unfold Qdiv. rewrite Hb. unfold Qinv. simpl. rewrite Qmult_0_r. done.
  - apply Qle_shift_div_r; [|by rewrite Qmult_1_l].
    destruct (Qlt_le_dec 0 b) as [|Hle]; [done|].
    exfalso. apply Hb. apply Qle_antisym; [done|]. by apply (Qle_trans _ a).
Qed.

Lemma Qsum_bounds a b l :
  Forall (fun x => (a <= x <= b)%Q) l ->
  (Qnat (length l) * a <= Qsum l <= Qnat (length l) * b)%Q.
Proof.
  induction 1 as [|x l [Hax Hxb] _ [IHa IHb]]; simpl length.
  - change (Qnat 0) with 0%Q. change (Qsum []) with 0%Q. split; lra.
  - rewrite Qsum_cons, Qnat_S. split; lra.
Qed.

Lemma np_mean_unit l :
  Forall (fun x => (0 <= x <= 1)%Q) l -> (0 <= np_mean l <= 1)%Q.
Proof.
  intros [Hlo Hhi]%Qsum_bounds. unfold np_mean.
  rewrite Qmult_0_r in Hlo. rewrite Qmult_1_r in Hhi.
  split; [apply Qdiv_nonneg; [done|apply Qnat_nonneg]|by apply Qdiv_le_1].
Qed.

Lemma np_mean_nonneg l : Forall (fun x => (0 <= x)%Q) l -> (0 <= np_mean l)%Q.
Proof.
  intros Hl. unfold np_mean. apply Qdiv_nonneg; [|apply Qnat_nonneg].
  induction Hl as [|x l Hx _ IH]; [done|]. rewrite Qsum_cons. lra.
Qed.

Lemma Forall_repeated {A} (P : A -> Prop) m l :
  Forall P l -> Forall P (repeated m l).
Proof.
  unfold repeated. induction 1 as [|x l Hx _ IH]; simpl; [constructor|].
  apply Forall_app. split; [|done]. by apply Forall_replicate.
Qed.

Lemma num_correct_le top_hits docs k : num_correct top_hits docs k <= k.
Proof.
  unfold num_correct. rewrite slice_0.
  etransitivity; [apply length_filter|]. rewrite length_take. lia.
Qed.

Lemma precision_at_unit top_hits docs k :
  (0 <= precision_at top_hits docs k <= 1)%Q.
Proof.
  unfold precision_at. split.
  - apply Qdiv_nonneg; apply Qnat_nonneg.
  - apply Qdiv_le_1; [apply Qnat_nonneg|apply Qnat_le, num_correct_le].
Qed.

Lemma recall_at_nonneg top_hits docs k : (0 <= recall_at top_hits docs k)%Q.
Proof. unfold recall_at. apply Qdiv_nonneg; apply Qnat_nonneg. Qed.

Lemma reciprocal_rank_unit top_hits docs k :
  (0 <= reciprocal_rank top_hits docs k <= 1)%Q.
Proof.
  unfold reciprocal_rank.
  destruct (first_relevant docs (take k top_hits) 0) as [rank|]; [|done].
  split.
  - apply Qdiv_nonneg; [done|apply Qnat_nonneg].
  - apply Qdiv_le_1; [done|]. change 1%Q with (Qnat 1). apply Qnat_le. lia.
Qed.

(** ** The reported metrics in closed form *)

Lemma accumulated_MRR_eq np_log2 self sq acc k :
  for_each (fun x acc => score_query np_log2 self x.1 x.2 acc) sq
           (init_accumulators self) = Ok acc ->
  MRR acc !! k
  = if decide (k ∈ mrr_at_k self)
    then Some (foldl (fun v x => Nat.iter (occurrences k (mrr_at_k self))
                                          (add_reciprocal_rank x.1 x.2 k) v)
                     0%Q sq)
    else None.
Proof.
  intros Hrun.
  rewrite (for_each_rewrites _ _ _ _ _ _ (score_query_rewrites_MRR np_log2 self)
             Hrun).
  simpl. rewrite dict_init_lookup. by case_decide.
Qed.

Section Reported.

Context {Emb : Type}.
Variable encode : string -> Emb.
Variable cos : Emb -> Emb -> npfloat.
Variable fmax : Q.
Variable argpartition : list Q -> nat -> list nat.
Variable np_log2 : nat -> Q.
Variable self : InformationRetrievalEvaluator.
Variable fs : filesystem.
Variable output_path : option string.
Variable epoch steps : Z.
Variable out : outcome.

Hypothesis Hwf : well_formed self.
Hypothesis Hcall :
  call encode cos fmax argpartition np_log2 self fs output_path epoch steps
  = Ok out.

Lemma call_Ok_reported :
  exists max_k,
    compute_max_k self = Ok max_k
    /\ queries self <> []
    /\ let sq := scored_queries encode cos fmax argpartition self max_k in
       let nq := length (queries self) in
       forall k,
         accuracy_avg (reported out) !! k
         = (if decide (k ∈ accuracy_at_k self)
            then Some (Qnat (occurrences k (accuracy_at_k self)
                             * length (filter (fun x => hit_at x.1 x.2 k) sq))
                       / Qnat nq)%Q
            else None)
         /\ precision_avg (reported out) !! k
            = (if decide (k ∈ precision_recall_at_k self)
               then Some (np_mean
                            (repeated (occurrences k (precision_recall_at_k self))
                               (map (fun x => precision_at x.1 x.2 k) sq)))
               else None)
         /\ recall_avg (reported out) !! k
            = (if decide (k ∈ precision_recall_at_k self)
               then Some (np_mean
                            (repeated (occurrences k (precision_recall_at_k self))
                               (map (fun x => recall_at x.1 x.2 k) sq)))
               else None)
         /\ mrr_avg (reported out) !! k
            = (if decide (k ∈ mrr_at_k self)
               then Some (foldl (fun v x =>
                                   Nat.iter (occurrences k (mrr_at_k self))
                                     (add_reciprocal_rank x.1 x.2 k) v)
                                0 sq / Qnat nq)%Q
               else None)
         /\ ndcg_avg (reported out) !! k
            = (if decide (k ∈ ndcg_at_k self)
               then Some (np_mean
                            (foldl (fun l x =>
                                      Nat.iter (occurrences k (ndcg_at_k self))
                                        (snoc_ndcg np_log2 x.1 x.2 k) l)
                                   [] sq))
               else None).
Proof.
  destruct (call_Ok_scored _ _ _ _ _ _ _ _ _ _ _ Hwf Hcall)
    as (acc & max_k & Hmax & Hrun & Havg & Hq).
  exists max_k. split; [done|]. split; [done|]. intros sq nq k.
  apply average_inv in Havg as (-> & -> & -> & -> & -> & _).
  rewrite !lookup_fmap.
  rewrite (accumulated_hits _ _ _ _ Hrun), (accumulated_precisions _ _ _ _ Hrun),
    (accumulated_recalls _ _ _ _ Hrun), (accumulated_MRR_eq _ _ _ _ _ Hrun),
    (accumulated_ndcg _ _ _ _ Hrun).
  repeat split; by case_decide.
Qed.

End Reported.

(** X6. A call that returns reports, in each of the five metric families,
    a value for exactly the cut-offs requested for that family. *)
Theorem reported_keys_are_requested_cutoffs {Emb} (encode : string -> Emb) cos
    fmax argpartition np_log2
    (qdict cdict : list (string * string)) relevant_docs query_chunk_size
    corpus_chunk_size mrr_at_k ndcg_at_k accuracy_at_k precision_recall_at_k
    batch_size name fs output_path epoch steps out :
  let self := init qdict cdict relevant_docs query_chunk_size
                corpus_chunk_size mrr_at_k ndcg_at_k accuracy_at_k
                precision_recall_at_k batch_size name in
  call encode cos fmax argpartition np_log2 self fs output_path epoch steps
  = Ok out ->
  forall k,
    (is_Some (accuracy_avg (reported out) !! k) <-> k ∈ accuracy_at_k)
    /\ (is_Some (precision_avg (reported out) !! k)
        <-> k ∈ precision_recall_at_k)
    /\ (is_Some (recall_avg (reported out) !! k) <-> k ∈ precision_recall_at_k)
    /\ (is_Some (mrr_avg (reported out) !! k) <-> k ∈ mrr_at_k)
    /\ (is_Some (ndcg_avg (reported out) !! k) <-> k ∈ ndcg_at_k).
Proof.
  intros self Hcall k.
  destruct (call_Ok_reported _ _ _ _ _ _ _ _ _ _ _
              (init_well_formed _ _ _ _ _ _ _ _ _ _ _) Hcall)
    as (max_k & _ & _ & Hrep).
  destruct (Hrep k) as (-> & -> & -> & -> & ->). simpl.
  repeat split; case_decide; (done || by intros [? [=]] || by eexists).
Qed.

Lemma reported_keys_are_requested_cutoffs_witness :
  let self := toy_evaluator 10 100 [2] [1] [1; 2] [1] in
  exists out,
    toy_call self None = Ok out
    /\ forall k,
         (is_Some (accuracy_avg (reported out) !! k) <-> k ∈ [1; 2])
         /\ (is_Some (precision_avg (reported out) !! k) <-> k ∈ [1])
         /\ (is_Some (recall_avg (reported out) !! k) <-> k ∈ [1])
         /\ (is_Some (mrr_avg (reported out) !! k) <-> k ∈ [2])
         /\ (is_Some (ndcg_avg (reported out) !! k) <-> k ∈ [1]).
Proof.
  intros self.
  destruct (toy_call self None) as [out|e] eqn:Hcall;
    [|vm_compute in Hcall; discriminate Hcall].
  exists out. split; [reflexivity|].
  exact (reported_keys_are_requested_cutoffs toy_encode toy_cos float32_max
           argsort log2_fixed _ _ _ _ _ _ _ _ _ _ _ ∅ None (-1)%Z (-1)%Z out
           Hcall).
Defined.

Lemma Qsum_nonneg l : Forall (fun x => (0 <= x)%Q) l -> (0 <= Qsum l)%Q.
Proof.
  induction 1 as [|x l Hx _ IH]; [done|]. rewrite Qsum_cons. lra.
Qed.

Lemma reciprocal_ranks_unit (sq : list (list hit * gset string)) k :
  Forall (fun x => (0 <= x <= 1)%Q)
         (map (fun x => reciprocal_rank x.1 x.2 k) sq).
Proof. apply Forall_map, Forall_forall. intros x _. apply reciprocal_rank_unit. Qed.

(** X7. In a call that returns, every reported Accuracy@k, Recall@k and
    MRR@k is non-negative and every reported Precision@k lies between 0 and
    1. *)
Theorem reported_metrics_bounds {Emb} (encode : string -> Emb) cos
    fmax argpartition np_log2
    (qdict cdict : list (string * string)) relevant_docs query_chunk_size
    corpus_chunk_size mrr_at_k ndcg_at_k accuracy_at_k precision_recall_at_k
    batch_size name fs output_path epoch steps out :
  let self := init qdict cdict relevant_docs query_chunk_size
                corpus_chunk_size mrr_at_k ndcg_at_k accuracy_at_k
                precision_recall_at_k batch_size name in
  call encode cos fmax argpartition np_log2 self fs output_path epoch steps
  = Ok out ->
  forall k v,
    (accuracy_avg (reported out) !! k = Some v -> (0 <= v)%Q)
    /\ (precision_avg (reported out) !! k = Some v -> (0 <= v <= 1)%Q)
    /\ (recall_avg (reported out) !! k = Some v -> (0 <= v)%Q)
    /\ (mrr_avg (reported out) !! k = Some v -> (0 <= v)%Q).
Proof.
  intros self Hcall k v.
  destruct (call_Ok_reported _ _ _ _ _ _ _ _ _ _ _
              (init_well_formed _ _ _ _ _ _ _ _ _ _ _) Hcall)
    as (max_k & _ & _ & Hrep).
  destruct (Hrep k) as (-> & -> & -> & -> & _). clear Hrep.
  split; [|split; [|split]]; case_decide; try done; intros [= <-].
  - apply Qdiv_nonneg; apply Qnat_nonneg.
  - apply np_mean_unit, Forall_repeated, Forall_map, Forall_forall.
    intros x _. apply precision_at_unit.
  - apply np_mean_nonneg, Forall_repeated, Forall_map, Forall_forall.
    intros x _. apply recall_at_nonneg.
  - apply Qdiv_nonneg; [|apply Qnat_nonneg].
    rewrite foldl_reciprocal_ranks, Qplus_0_l.
    apply Qmult_le_0_compat; [apply Qnat_nonneg|].
    apply Qsum_nonneg. eapply Forall_impl; [apply reciprocal_ranks_unit|].
    by intros x [? _].
Qed.

Lemma reported_metrics_bounds_witness :
  let self := toy_evaluator 10 100 [2] [1] [1; 2] [1] in
  exists out,
    toy_call self None = Ok out
    /\ forall k v,
         (accuracy_avg (reported out) !! k = Some v -> (0 <= v)%Q)
         /\ (precision_avg (reported out) !! k = Some v -> (0 <= v <= 1)%Q)
         /\ (recall_avg (reported out) !! k = Some v -> (0 <= v)%Q)
         /\ (mrr_avg (reported out) !! k = Some v -> (0 <= v)%Q).
Proof.
  intros self.
  destruct (toy_call self None) as [out|e] eqn:Hcall;
    [|vm_compute in Hcall; discriminate Hcall].
  exists out. split; [reflexivity|].
  exact (reported_metrics_bounds toy_encode toy_cos float32_max
           argsort log2_fixed _ _ _ _ _ _ _ _ _ _ _ ∅ None (-1)%Z (-1)%Z out
           Hcall).
Defined.

Lemma occurrences_NoDup k ks : NoDup ks -> k ∈ ks -> occurrences k ks = 1.
Proof.
  unfold occurrences. induction 1 as [|k' ks Hnin _ IH]; [by intros ?%elem_of_nil|].
  intros [->|Hin]%elem_of_cons.
  - rewrite filter_cons_True by done. simpl. f_equal.
    rewrite (filter_none (fun k'0 => k'0 = k')); [done|].
    apply Forall_forall. intros x Hx ->. done.
  - rewrite filter_cons_False; [by apply IH|]. intros ->. done.
Qed.

(** X8. When the accuracy k-list has no repeated cut-off every reported
    Accuracy@k is at most 1, and when the MRR k-list has none every reported
    MRR@k is at most 1. (A cut-off listed twice is counted twice per query by
    the loops of lines 134 and 152.) *)
Theorem reported_accuracy_mrr_at_most_one {Emb} (encode : string -> Emb) cos
    fmax argpartition np_log2
    (qdict cdict : list (string * string)) relevant_docs query_chunk_size
    corpus_chunk_size mrr_at_k ndcg_at_k accuracy_at_k precision_recall_at_k
    batch_size name fs output_path epoch steps out :
  let self := init qdict cdict relevant_docs query_chunk_size
                corpus_chunk_size mrr_at_k ndcg_at_k accuracy_at_k
                precision_recall_at_k batch_size name in
  call encode cos fmax argpartition np_log2 self fs output_path epoch steps
  = Ok out ->
  forall k v,
    (NoDup accuracy_at_k -> accuracy_avg (reported out) !! k = Some v ->
     (v <= 1)%Q)
    /\ (NoDup mrr_at_k -> mrr_avg (reported out) !! k = Some v -> (v <= 1)%Q).
Proof.
  intros self Hcall k v.
  pose proof (init_well_formed qdict cdict relevant_docs query_chunk_size
                corpus_chunk_size mrr_at_k ndcg_at_k accuracy_at_k
                precision_recall_at_k batch_size name) as Hwf.
  destruct (call_Ok_reported _ _ _ _ _ _ _ _ _ _ _ Hwf Hcall)
    as (max_k & _ & _ & Hrep).
  destruct (Hrep k) as (-> & _ & _ & -> & _). clear Hrep.
  pose proof (length_scored_queries encode cos fmax argpartition self max_k Hwf)
    as Hlen.
  split; intros Hnd; case_decide as Hk; try done; intros [= <-].
  - simpl in Hk. rewrite occurrences_NoDup by done.
    apply Qdiv_le_1; [apply Qnat_nonneg|]. apply Qnat_le.
    rewrite Nat.mul_1_l. etransitivity; [apply length_filter|].
    exact (Nat.eq_le_incl _ _ Hlen).
  - simpl in Hk. rewrite occurrences_NoDup by done.
    apply Qdiv_le_1.
    + rewrite foldl_reciprocal_ranks, Qplus_0_l.
      apply Qmult_le_0_compat; [apply Qnat_nonneg|].
      apply Qsum_nonneg. eapply Forall_impl; [apply reciprocal_ranks_unit|].
      by intros x [? _].
    + rewrite foldl_reciprocal_ranks, Qplus_0_l.
      change (Qnat 1) with 1%Q. rewrite Qmult_1_l.
      destruct (Qsum_bounds 0 1 _ (reciprocal_ranks_unit
                  (scored_queries encode cos fmax argpartition self max_k) k))
        as [_ Hhi].
      rewrite length_map, Qmult_1_r in Hhi.
      apply (Qle_trans _ _ _ Hhi), Qnat_le. exact (Nat.eq_le_incl _ _ Hlen).
Qed.

Lemma reported_accuracy_mrr_at_most_one_witness :
  let self := toy_evaluator 10 100 [2] [1] [1; 2] [1] in
  exists out,
    toy_call self None = Ok out
    /\ forall k v,
         (NoDup [1; 2] -> accuracy_avg (reported out) !! k = Some v ->
          (v <= 1)%Q)
         /\ (NoDup [2] -> mrr_avg (reported out) !! k = Some v -> (v <= 1)%Q).
Proof.
  intros self.
  destruct (toy_call self None) as [out|e] eqn:Hcall;
    [|vm_compute in Hcall; discriminate Hcall].
  exists out. split; [reflexivity|].
  exact (reported_accuracy_mrr_at_most_one toy_encode toy_cos float32_max
           argsort log2_fixed _ _ _ _ _ _ _ _ _ _ _ ∅ None (-1)%Z (-1)%Z out
           Hcall).
Defined.

(** ** Growing the cut-off *)

Lemma take_le_app {A} (l : list A) k1 k2 :
  k1 <= k2 -> take k2 l = take k1 l ++ drop k1 (take k2 l).
Proof.
  intros Hk. rewrite <- (take_drop k1 (take k2 l)) at 1.
  by rewrite take_take, Nat.min_l.
Qed.

Lemma first_relevant_app docs l l' rank r :
  first_relevant docs l rank = Some r ->
  first_relevant docs (l ++ l') rank = Some r.
Proof.
  revert rank. induction l as [|h l IH]; intros rank; simpl; [done|].
  destruct (is_relevant docs h); [done|]. apply IH.
Qed.

Lemma first_relevant_mono docs top_hits k1 k2 r :
  k1 <= k2 ->
  first_relevant docs (take k1 top_hits) 0 = Some r ->
  first_relevant docs (take k2 top_hits) 0 = Some r.
Proof.
  intros Hk H. rewrite (take_le_app _ k1 k2 Hk). by apply first_relevant_app.
Qed.

Lemma hit_at_mono top_hits docs k1 k2 :
  k1 <= k2 -> hit_at top_hits docs k1 -> hit_at top_hits docs k2.
Proof.
  unfold hit_at. intros Hk [r Hr]%bool_decide_unpack.
  apply bool_decide_pack. exists r. by eapply first_relevant_mono.
Qed.

Lemma reciprocal_rank_mono top_hits docs k1 k2 :
  k1 <= k2 ->
  (reciprocal_rank top_hits docs k1 <= reciprocal_rank top_hits docs k2)%Q.
Proof.
  intros Hk. unfold reciprocal_rank at 1.
  destruct (first_relevant docs (take k1 top_hits) 0) as [r|] eqn:Hr.
  - unfold reciprocal_rank. rewrite (first_relevant_mono _ _ _ _ _ Hk Hr).
    apply Qle_refl.
  - apply reciprocal_rank_unit.
Qed.


Lemma length_filter_impl {A} (P R : A -> Prop) `{!forall x, Decision (P x)}
    `{!forall x, Decision (R x)} (l : list A) :
  (forall x, P x -> R x) -> length (filter P l) <= length (filter R l).
Proof.
  intros HPR. induction l as [|x l IH]; [done|].
  destruct (decide (P x)) as [HP|HP].
  - rewrite filter_cons_True, (filter_cons_True R) by auto. simpl. lia.
  - rewrite filter_cons_False by done.
    destruct (decide (R x)).
    + rewrite filter_cons_True by done. simpl. lia.
    + by rewrite filter_cons_False.
Qed.

Lemma Qdiv_le_compat_r a b c : (0 <= c)%Q -> (a <= b)%Q -> (a / c <= b / c)%Q.
Proof.
  intros Hc Hab. unfold Qdiv. apply Qmult_le_compat_r; [done|].
  by apply Qinv_le_0_compat.
Qed.

Lemma Forall2_map_pointwise {X} (R : Q -> Q -> Prop) (f g : X -> Q) l :
  (forall x, R (f x) (g x)) -> Forall2 R (map f l) (map g l).
Proof. intros H. induction l; simpl; by constructor. Qed.

(** X9. Accuracy@k and MRR@k do not decrease when the cut-off grows: in a
    call that returns, for requested cut-offs [k1 <= k2] the reported
    Accuracy@k1 is at most Accuracy@k2 when the accuracy k-list repeats no
    cut-off, and likewise for MRR. *)
Theorem accuracy_and_mrr_grow_with_cutoff {Emb} (encode : string -> Emb) cos
    fmax argpartition np_log2
    (qdict cdict : list (string * string)) relevant_docs query_chunk_size
    corpus_chunk_size mrr_at_k ndcg_at_k accuracy_at_k precision_recall_at_k
    batch_size name fs output_path epoch steps out k1 k2 :
  let self := init qdict cdict relevant_docs query_chunk_size
                corpus_chunk_size mrr_at_k ndcg_at_k accuracy_at_k
                precision_recall_at_k batch_size name in
  call encode cos fmax argpartition np_log2 self fs output_path epoch steps
  = Ok out ->
  k1 <= k2 ->
  (NoDup accuracy_at_k ->
   forall a1 a2,
     accuracy_avg (reported out) !! k1 = Some a1 ->
     accuracy_avg (reported out) !! k2 = Some a2 -> (a1 <= a2)%Q)
  /\ (NoDup mrr_at_k ->
      forall m1 m2,
        mrr_avg (reported out) !! k1 = Some m1 ->
        mrr_avg (reported out) !! k2 = Some m2 -> (m1 <= m2)%Q).
Proof.
  intros self Hcall Hk.
  destruct (call_Ok_reported _ _ _ _ _ _ _ _ _ _ _
              (init_well_formed _ _ _ _ _ _ _ _ _ _ _) Hcall)
    as (max_k & _ & _ & Hrep).
  destruct (Hrep k1) as (Ha1 & _ & _ & Hm1 & _).
  destruct (Hrep k2) as (Ha2 & _ & _ & Hm2 & _). clear Hrep.
  split; intros Hnd v1 v2 H1 H2.
  - rewrite Ha1 in H1. rewrite Ha2 in H2.
    case_decide as Hk1; [|done]. case_decide as Hk2; [|done].
    simpl in Hk1, Hk2. rewrite occurrences_NoDup in H1, H2 by done.
    apply (inj Some) in H1, H2. subst v1 v2.
    apply Qdiv_le_compat_r; [apply Qnat_nonneg|]. apply Qnat_le.
    rewrite !Nat.mul_1_l. apply length_filter_impl.
    intros x. apply hit_at_mono, Hk.
  - rewrite Hm1 in H1. rewrite Hm2 in H2.
    case_decide as Hk1; [|done]. case_decide as Hk2; [|done].
    simpl in Hk1, Hk2. rewrite occurrences_NoDup in H1, H2 by done.
    apply (inj Some) in H1, H2. subst v1 v2.
    apply Qdiv_le_compat_r; [apply Qnat_nonneg|].
    rewrite !foldl_reciprocal_ranks. apply Qplus_le_compat; [apply Qle_refl|].
    apply Qmult_le_l; [by apply Qnat_pos|].
    apply Qsum_Forall2_le, Forall2_map_pointwise.
    intros x. by apply reciprocal_rank_mono.
Qed.

Lemma accuracy_and_mrr_grow_with_cutoff_witness :
  let self := toy_evaluator 10 100 [1; 2] [1] [1; 2] [1] in
  exists out,
    toy_call self None = Ok out
    /\ 1 <= 2
    /\ (NoDup [1; 2] ->
        forall a1 a2,
          accuracy_avg (reported out) !! 1 = Some a1 ->
          accuracy_avg (reported out) !! 2 = Some a2 -> (a1 <= a2)%Q)
    /\ (NoDup [1; 2] ->
        forall m1 m2,
          mrr_avg (reported out) !! 1 = Some m1 ->
          mrr_avg (reported out) !! 2 = Some m2 -> (m1 <= m2)%Q).
Proof.
  intros self.
  destruct (toy_call self None) as [out|e] eqn:Hcall;
    [|vm_compute in Hcall; discriminate Hcall].
  exists out. split; [reflexivity|]. split; [lia|].
  exact (accuracy_and_mrr_grow_with_cutoff toy_encode toy_cos float32_max
           argsort log2_fixed _ _ _ _ _ _ _ _ _ _ _ ∅ None (-1)%Z (-1)%Z out
           1 2 Hcall ltac:(lia)).
Defined.

Lemma occurrences_pos k ks : k ∈ ks -> occurrences k ks <> 0.
Proof.
  unfold occurrences. intros Hin Hlen. apply nil_length_inv in Hlen.
  assert (k ∈ filter (fun k' => k' = k) ks) as Hk by by apply list_elem_of_filter.
  rewrite Hlen in Hk. by apply elem_of_nil in Hk.
Qed.

Lemma np_mean_repeated {A} (g : A -> Q) m l :
  m <> 0 -> (np_mean (repeated m (map g l)) == np_mean (map g l))%Q.
Proof.
  intros Hm. unfold np_mean.
  rewrite Qsum_repeated, length_repeated, Qnat_mul.
  destruct l as [|x l].
  - simpl. change (Qsum []) with 0%Q. change (Qnat 0) with 0%Q.
    rewrite Qmult_0_r. reflexivity.
  - pose proof (Qnat_pos m Hm). pose proof (Qnat_pos (length (map g (x :: l)))).
    simpl length in *. field. split; apply Qnot_eq_sym, Qlt_not_eq; auto.
Qed.






(** ** The reported values as means over the queries *)

Lemma scored_queries_relevant {Emb} (encode : string -> Emb) cos fmax
    argpartition self max_k :
  well_formed self ->
  Forall (fun x => x.2 <> ∅)
         (scored_queries encode cos fmax argpartition self max_k).
Proof.
  intros Hwf. apply Forall_forall. intros x [i Hi]%list_elem_of_lookup_1.
  destruct (scored_queries_lookup _ _ _ _ _ _ _ _ Hwf Hi)
    as (qid & text & docs & _ & _ & _ & Hne & ->).
  done.
Qed.

(** X11. A cut-off listed several times is counted once per listing in
    Accuracy@k and MRR@k: in a call that returns, the reported Accuracy@k is
    the number of listings of [k] times the fraction of queries with a
    relevant document among their first [k] hits, and the reported MRR@k is
    the number of listings times the mean reciprocal rank. *)
Theorem repeated_cutoff_scales_accuracy_and_mrr {Emb} (encode : string -> Emb)
    cos fmax argpartition np_log2
    (qdict cdict : list (string * string)) relevant_docs query_chunk_size
    corpus_chunk_size mrr_at_k ndcg_at_k accuracy_at_k precision_recall_at_k
    batch_size name fs output_path epoch steps out :
  let self := init qdict cdict relevant_docs query_chunk_size
                corpus_chunk_size mrr_at_k ndcg_at_k accuracy_at_k
                precision_recall_at_k batch_size name in
  call encode cos fmax argpartition np_log2 self fs output_path epoch steps
  = Ok out ->
  exists max_k,
    compute_max_k self = Ok max_k
    /\ let sq := scored_queries encode cos fmax argpartition self max_k in
       forall k v,
         (accuracy_avg (reported out) !! k = Some v ->
          (v == Qnat (occurrences k accuracy_at_k)
                * (Qnat (length (filter (fun x => hit_at x.1 x.2 k) sq))
                   / Qnat (length sq)))%Q)
         /\ (mrr_avg (reported out) !! k = Some v ->
             (v == Qnat (occurrences k mrr_at_k)
                   * np_mean (map (fun x => reciprocal_rank x.1 x.2 k) sq))%Q).
Proof.
  intros self Hcall.
  pose proof (init_well_formed qdict cdict relevant_docs query_chunk_size
                corpus_chunk_size mrr_at_k ndcg_at_k accuracy_at_k
                precision_recall_at_k batch_size name) as Hwf.
  destruct (call_Ok_reported _ _ _ _ _ _ _ _ _ _ _ Hwf Hcall)
    as (max_k & Hmax & _ & Hrep).
  exists max_k. split; [done|]. intros sq k v.
  destruct (Hrep k) as (Ha & _ & _ & Hm & _). clear Hrep.
  pose proof (length_scored_queries encode cos fmax argpartition _ max_k Hwf)
    as Hlen.
  subst sq self. rewrite <- Hlen in Ha, Hm.
  split; intros Hv.
  - rewrite Ha in Hv. case_decide; [|done]. apply (inj Some) in Hv. subst v.
    rewrite Qnat_mul. unfold Qdiv. symmetry. apply Qmult_assoc.
  - rewrite Hm in Hv. case_decide; [|done]. apply (inj Some) in Hv. subst v.
    rewrite foldl_reciprocal_ranks, Qplus_0_l. unfold np_mean.
    rewrite length_map. unfold Qdiv. symmetry. apply Qmult_assoc.
Qed.

Lemma repeated_cutoff_scales_accuracy_and_mrr_witness :
  let self := toy_evaluator 10 100 [2; 2] [1] [1; 2; 1] [1] in
  exists out,
    toy_call self None = Ok out
    /\ exists max_k,
         compute_max_k self = Ok max_k
         /\ let sq := scored_queries toy_encode toy_cos float32_max argsort
                        self max_k in
            forall k v,
              (accuracy_avg (reported out) !! k = Some v ->
               (v == Qnat (occurrences k [1; 2; 1]%nat)
                     * (Qnat (length (filter (fun x => hit_at x.1 x.2 k) sq))
                        / Qnat (length sq)))%Q)
              /\ (mrr_avg (reported out) !! k = Some v ->
                  (v == Qnat (occurrences k [2; 2]%nat)
                        * np_mean (map (fun x => reciprocal_rank x.1 x.2 k)
                                       sq))%Q).
Proof.
  intros self.
  destruct (toy_call self None) as [out|e] eqn:Hcall;
    [|vm_compute in Hcall; discriminate Hcall].
  exists out. split; [reflexivity|].
  exact (repeated_cutoff_scales_accuracy_and_mrr toy_encode toy_cos
           float32_max argsort log2_fixed _ _ _ _ _ _ _ _ _ _ _ ∅ None
           (-1)%Z (-1)%Z out Hcall).
Defined.

(** X12. Precision@k and Recall@k are means over the retained queries,
    whatever the number of listings of [k]: in a call that returns, the
    reported Precision@k is the mean of (relevant hits among the first k) / k
    and the reported Recall@k the mean of (relevant hits among the first k) /
    (number of relevant documents of the query), a number that is never 0. *)
Theorem precision_and_recall_are_query_means {Emb} (encode : string -> Emb)
    cos fmax argpartition np_log2
    (qdict cdict : list (string * string)) relevant_docs query_chunk_size
    corpus_chunk_size mrr_at_k ndcg_at_k accuracy_at_k precision_recall_at_k
    batch_size name fs output_path epoch steps out :
  let self := init qdict cdict relevant_docs query_chunk_size
                corpus_chunk_size mrr_at_k ndcg_at_k accuracy_at_k
                precision_recall_at_k batch_size name in
  call encode cos fmax argpartition np_log2 self fs output_path epoch steps
  = Ok out ->
  exists max_k,
    compute_max_k self = Ok max_k
    /\ let sq := scored_queries encode cos fmax argpartition self max_k in
       Forall (fun x => size x.2 <> 0) sq
       /\ forall k v,
            (precision_avg (reported out) !! k = Some v ->
             (v == np_mean (map (fun x => Qnat (num_correct x.1 x.2 k) / Qnat k)
                                sq))%Q)
            /\ (recall_avg (reported out) !! k = Some v ->
                (v == np_mean (map (fun x => Qnat (num_correct x.1 x.2 k)
                                             / Qnat (size x.2)) sq))%Q).
Proof.
  intros self Hcall.
  pose proof (init_well_formed qdict cdict relevant_docs query_chunk_size
                corpus_chunk_size mrr_at_k ndcg_at_k accuracy_at_k
                precision_recall_at_k batch_size name) as Hwf.
  destruct (call_Ok_reported _ _ _ _ _ _ _ _ _ _ _ Hwf Hcall)
    as (max_k & Hmax & _ & Hrep).
  exists max_k. split; [done|]. intros sq. split.
  { eapply Forall_impl; [by apply scored_queries_relevant|].
    intros x Hx Hsize. apply Hx, leibniz_equiv. by apply size_empty_iff. }
  intros k v. destruct (Hrep k) as (_ & Hp & Hr & _). clear Hrep.
  split; intros Hv.
  - rewrite Hp in Hv. case_decide as Hin; [|done].
    apply (inj Some) in Hv. subst v.
    by rewrite (np_mean_repeated _ _ _ (occurrences_pos _ _ Hin)).
  - rewrite Hr in Hv. case_decide as Hin; [|done].
    apply (inj Some) in Hv. subst v.
    by rewrite (np_mean_repeated _ _ _ (occurrences_pos _ _ Hin)).
Qed.

Lemma precision_and_recall_are_query_means_witness :
  let self := toy_evaluator 10 100 [2] [1] [1] [1; 2; 2] in
  exists out,
    toy_call self None = Ok out
    /\ exists max_k,
         compute_max_k self = Ok max_k
         /\ let sq := scored_queries toy_encode toy_cos float32_max argsort
                        self max_k in
            Forall (fun x => size x.2 <> 0) sq
            /\ forall k v,
                 (precision_avg (reported out) !! k = Some v ->
                  (v == np_mean (map (fun x => Qnat (num_correct x.1 x.2 k)
                                               / Qnat k) sq))%Q)
                 /\ (recall_avg (reported out) !! k = Some v ->
                     (v == np_mean (map (fun x => Qnat (num_correct x.1 x.2 k)
                                                  / Qnat (size x.2)) sq))%Q).
Proof.
  intros self.
  destruct (toy_call self None) as [out|e] eqn:Hcall;
    [|vm_compute in Hcall; discriminate Hcall].
  exists out. split; [reflexivity|].
  exact (precision_and_recall_are_query_means toy_encode toy_cos
           float32_max argsort log2_fixed _ _ _ _ _ _ _ _ _ _ _ ∅ None
           (-1)%Z (-1)%Z out Hcall).
Defined.

(** ** Discounted cumulative gain *)

Section Dcg.

Variable np_log2 : nat -> Q.

(** The loop of lines 233-235 from index [a] on. *)
Lemma dcg_loop relevances a n s :
  a + n <= length relevances ->
  exists s',
    for_each (fun i dcg =>
                r ← py_index relevances i;
                Ok (NpFloat (pyval_Q dcg + Qnat r / np_log2 (i + 2))%Q))
             (seq a n) s = Ok s'
    /\ (pyval_Q s'
        == pyval_Q s + dcg_from np_log2 a (take n (drop a relevances)))%Q
    /\ (n = 0 -> s' = s)
    /\ (n <> 0 -> exists q, s' = NpFloat q).
Proof.
  revert a s. induction n as [|n IH]; intros a s Hlen.
  - exists s. simpl. repeat split; [ring|done].
  - destruct (lookup_lt_is_Some_2 relevances a ltac:(lia)) as [r Hr].
    destruct (IH (S a) (NpFloat (pyval_Q s + Qnat r / np_log2 (a + 2))%Q)
                ltac:(lia)) as (s' & Hrun & Hval & _ & Hfloat).
    exists s'. cbn [seq for_each].
    rewrite (proj2 (py_index_Ok _ _ _) Hr). simpl. split; [exact Hrun|].
    split; [|split; [done|]].
    + rewrite Hval, (drop_S _ _ _ Hr). simpl. unfold Qdiv. ring.
    + intros _. destruct n as [|n].
      * simpl in Hrun. injection Hrun as <-. eauto.
      * by apply Hfloat.
Qed.

Lemma take_min_length {A} (l : list A) k : take (length l `min` k) l = take k l.
Proof.
  destruct (Nat.min_spec (length l) k) as [[Hlt ->]|[Hle ->]]; [|done].
  by rewrite firstn_all, take_ge by lia.
Qed.

Lemma compute_dcg_at_k_spec relevances k :
  exists v,
    compute_dcg_at_k np_log2 relevances k = Ok v
    /\ (pyval_Q v == dcg np_log2 (take k relevances))%Q
    /\ (length relevances `min` k <> 0 -> exists q, v = NpFloat q).
Proof.
  destruct (dcg_loop relevances 0 (length relevances `min` k) (PyInt 0)
              ltac:(lia)) as (v & Hrun & Hval & _ & Hfloat).
  exists v. split; [exact Hrun|]. split; [|done].
  rewrite Hval, drop_0, take_min_length. unfold dcg. simpl.
  change (inject_Z 0) with 0%Q. ring.
Qed.

(** When the ideal ranking has a document the quotient of line 163 has a
    numpy float for denominator and does not raise. *)
Lemma score_query_ideal_dcg_float (docs : gset string) k :
  k <> 0 -> docs <> ∅ ->
  exists q,
    compute_dcg_at_k np_log2 (replicate (size docs) 1) k = Ok (NpFloat q)
    /\ (q == dcg np_log2 (take k (replicate (size docs) 1%nat)))%Q.
Proof.
  intros Hk Hdocs.
  destruct (compute_dcg_at_k_spec (replicate (size docs) 1) k)
    as (v & Hrun & Hval & Hfloat).
  destruct Hfloat as [q ->].
  - rewrite length_replicate.
    assert (size docs <> 0); [|lia].
    intros Hsize. apply Hdocs, leibniz_equiv. by apply size_empty_iff.
  - by exists q.
Qed.

Lemma ndcg_value_eq top_hits docs k :
  k <> 0 -> docs <> ∅ ->
  exists v,
    ndcg_value np_log2 top_hits docs k = Ok v
    /\ (v == ndcg_at np_log2 top_hits docs k)%Q.
Proof.
  intros Hk Hdocs. unfold ndcg_value, ndcg_at.
  destruct (score_query_ideal_dcg_float docs k Hk Hdocs) as (q & -> & Hq).
  destruct (compute_dcg_at_k_spec
              (map (fun top_hit => if is_relevant docs top_hit then 1 else 0)
                   (slice 0 k top_hits)) k) as (v & -> & Hv & _).
  simpl. exists (pyval_Q v / q)%Q. split; [by destruct v|].
  rewrite Hv, Hq. unfold binary_relevance.
  by rewrite slice_0, <- fmap_take, take_take, Nat.min_id.
Qed.

End Dcg.

(** X13. [compute_dcg_at_k] never raises, whatever the length of the list and
    the cut-off, and its value is the discounted sum over the first [k]
    relevances: the relevance at 0-indexed rank [i] weighs
    [1 / log2 (i + 2)]. *)
Theorem compute_dcg_at_k_is_discounted_sum np_log2 relevances k :
  exists v,
    compute_dcg_at_k np_log2 relevances k = Ok v
    /\ (pyval_Q v == dcg np_log2 (take k relevances))%Q.
Proof.
  destruct (compute_dcg_at_k_spec np_log2 relevances k) as (v & Hrun & Hval & _).
  by exists v.
Qed.

Lemma np_mean_Forall2_eq l1 l2 :
  Forall2 Qeq l1 l2 -> (np_mean l1 == np_mean l2)%Q.
Proof.
  intros H. unfold np_mean.
  by rewrite (Forall2_length _ _ _ H), (Qsum_Forall2_eq _ _ H).
Qed.

Lemma foldl_snoc_ndcg np_log2 (sq : list (list hit * gset string)) k m l :
  k <> 0 ->
  Forall (fun x => x.2 <> ∅) sq ->
  exists vs,
    foldl (fun l x => Nat.iter m (snoc_ndcg np_log2 x.1 x.2 k) l) l sq
    = l ++ repeated m (map id vs)
    /\ Forall2 Qeq vs (map (fun x => ndcg_at np_log2 x.1 x.2 k) sq).
Proof.
  intros Hk Hsq. revert l.
  induction Hsq as [|x sq Hx _ IH]; intros l.
  - exists []. simpl. by rewrite app_nil_r.
  - destruct (ndcg_value_eq np_log2 x.1 x.2 k Hk Hx) as (v & Hv & Hval).
    simpl. unfold snoc_ndcg at 2. rewrite Hv, iter_snoc.
    destruct (IH (l ++ replicate m v)) as (vs & -> & Hvs).
    exists (v :: vs). split; [|by constructor].
    unfold repeated. simpl. by rewrite <- app_assoc.
Qed.

(** X14. NDCG@k is the mean over the retained queries of the normalised
    discounted cumulative gain: in a call that returns, the reported NDCG@k
    is the mean of DCG(binary relevance of the first k hits) over DCG(as many
    ones as the query has relevant documents, cut at k), both with the
    discount [1 / log2 (rank + 2)] of [compute_dcg_at_k]. *)
Theorem ndcg_is_query_mean {Emb} (encode : string -> Emb)
    cos fmax argpartition np_log2
    (qdict cdict : list (string * string)) relevant_docs query_chunk_size
    corpus_chunk_size mrr_at_k ndcg_at_k accuracy_at_k precision_recall_at_k
    batch_size name fs output_path epoch steps out :
  let self := init qdict cdict relevant_docs query_chunk_size
                corpus_chunk_size mrr_at_k ndcg_at_k accuracy_at_k
                precision_recall_at_k batch_size name in
  call encode cos fmax argpartition np_log2 self fs output_path epoch steps
  = Ok out ->
  exists max_k,
    compute_max_k self = Ok max_k
    /\ let sq := scored_queries encode cos fmax argpartition self max_k in
       forall k v,
         ndcg_avg (reported out) !! k = Some v ->
         (v == np_mean (map (fun x => ndcg_at np_log2 x.1 x.2 k) sq))%Q.
Proof.
  intros self Hcall.
  pose proof (init_well_formed qdict cdict relevant_docs query_chunk_size
                corpus_chunk_size mrr_at_k ndcg_at_k accuracy_at_k
                precision_recall_at_k batch_size name) as Hwf.
  destruct (call_Ok_reported _ _ _ _ _ _ _ _ _ _ _ Hwf Hcall)
    as (max_k & Hmax & _ & Hrep).
  destruct (call_Ok_cutoffs_positive _ _ _ _ _ _ _ _ _ _ _ Hwf Hcall)
    as [_ Hpos].
  exists max_k. split; [done|]. intros sq k v Hv.
  destruct (Hrep k) as (_ & _ & _ & _ & Hn). clear Hrep.
  rewrite Hn in Hv. case_decide as Hin; [|done].
  apply (inj Some) in Hv. subst v.
  assert (k <> 0) as Hk by (by intros ->).
  subst sq self.
  match goal with
  | |- context [occurrences k ?ks] =>
      destruct (foldl_snoc_ndcg np_log2 _ k (occurrences k ks) [] Hk
                  (scored_queries_relevant encode cos fmax argpartition _ max_k
                     Hwf)) as (vs & Hvs & Heq)
  end.
  rewrite Hvs, app_nil_l.
  rewrite (np_mean_repeated _ _ _ (occurrences_pos _ _ Hin)), map_id.
  by apply np_mean_Forall2_eq.
Qed.

Lemma ndcg_is_query_mean_witness :
  let self := toy_evaluator 10 100 [2] [1; 2; 2] [1] [1] in
  exists out,
    toy_call self None = Ok out
    /\ exists max_k,
         compute_max_k self = Ok max_k
         /\ let sq := scored_queries toy_encode toy_cos float32_max argsort
                        self max_k in
            forall k v,
              ndcg_avg (reported out) !! k = Some v ->
              (v == np_mean (map (fun x => ndcg_at log2_fixed x.1 x.2 k) sq))%Q.
Proof.
  intros self.
  destruct (toy_call self None) as [out|e] eqn:Hcall;
    [|vm_compute in Hcall; discriminate Hcall].
  exists out. split; [reflexivity|].
  exact (ndcg_is_query_mean toy_encode toy_cos
           float32_max argsort log2_fixed _ _ _ _ _ _ _ _ _ _ _ ∅ None
           (-1)%Z (-1)%Z out Hcall).
Defined.

(** X15. The value a call returns is the reported MRR@k at the largest
    cut-off of [mrr_at_k]. *)
Theorem call_returns_mrr_at_largest_cutoff {Emb} (encode : string -> Emb)
    cos fmax argpartition np_log2 self fs output_path epoch steps out :
  call encode cos fmax argpartition np_log2 self fs output_path epoch steps
  = Ok out ->
  exists k_max,
    k_max ∈ mrr_at_k self
    /\ Forall (fun k => k <= k_max) (mrr_at_k self)
    /\ mrr_avg (reported out) !! k_max = Some (returned out).
Proof.
  intros Hcall.
  destruct (call_inv _ _ _ _ _ _ _ _ _ _ _ Hcall)
    as (acc & k & _ & _ & Hmax & Hret & _).
  exists k. apply py_max_spec in Hmax as [Hin Hle]. done.
Qed.

Lemma call_returns_mrr_at_largest_cutoff_witness :
  let self := toy_evaluator 10 100 [1; 2; 1] [1] [1] [1] in
  exists out,
    toy_call self None = Ok out
    /\ exists k_max,
         k_max ∈ mrr_at_k self
         /\ Forall (fun k => k <= k_max) (mrr_at_k self)
         /\ mrr_avg (reported out) !! k_max = Some (returned out).
Proof.
  intros self.
  destruct (toy_call self None) as [out|e] eqn:Hcall;
    [|vm_compute in Hcall; discriminate Hcall].
  exists out. split; [reflexivity|].
  exact (call_returns_mrr_at_largest_cutoff toy_encode toy_cos
           float32_max argsort log2_fixed self ∅ None (-1)%Z (-1)%Z out Hcall).
Defined.

(** ** What a corpus chunk adds to the candidates *)

Lemma length_omap_le {A B} (f : A -> option B) (l : list A) :
  length (omap f l) <= length l.
Proof.
  induction l as [|x l IH]; [done|]. cbn [omap list_omap length].
  fold (omap f l). destruct (f x); cbn [length]; lia.
Qed.

Section ChunkHits.

Context {Emb : Type}.
Variable encode : string -> Emb.
Variable cos : Emb -> Emb -> npfloat.
Variable fmax : Q.
Variable argpartition : list Q -> nat -> list nat.
Variable self : InformationRetrievalEvaluator.
Variable max_k : nat.

Lemma length_chunk_hits q start :
  length (chunk_hits encode cos fmax argpartition self max_k q start) <= max_k.
Proof.
  unfold chunk_hits, row_hits. etransitivity; [apply length_omap_le|].
  rewrite slice_0, length_take. lia.
Qed.

(** Each hit of a chunk carries the id and the score of one and the same
    document of that chunk. *)
Lemma chunk_hits_document q start h :
  h ∈ chunk_hits encode cos fmax argpartition self max_k q start ->
  exists j d,
    start <= j < start + corpus_chunk_size self
    /\ corpus_ids self !! j = Some (corpus_id h)
    /\ corpus self !! j = Some d
    /\ score h = nan_to_num fmax (cos q (encode d)).
Proof.
  unfold chunk_hits, row_hits. intros (sub & _ & Hh)%list_elem_of_omap.
  destruct (corpus_ids self !! (start + sub)) as [cid|] eqn:Hcid; [|done].
  simpl in Hh.
  destruct (chunk_scores encode cos fmax self q start !! sub) as [s|] eqn:Hs;
    [|done].
  simpl in Hh. injection Hh as <-. simpl.
  unfold chunk_scores in Hs. rewrite list_lookup_fmap, lookup_slice in Hs.
  case_decide as Hsub; [|done]. rewrite list_lookup_fmap in Hs.
  destruct (corpus self !! (start + sub)) as [d|] eqn:Hd; [|done].
  simpl in Hs. injection Hs as <-.
  exists (start + sub), d. repeat split; try done; lia.
Qed.

End ChunkHits.

(** X16. A corpus chunk that does not raise leaves the candidates collected
    so far in place and appends, for each query of the query chunk, at most
    [max_k] hits; each appended hit carries the id and the
    [nan_to_num]-cleaned similarity of one and the same document of this
    chunk ([corpus_start_idx + sub_corpus_id] indexes ids and texts
    alike). *)
Theorem corpus_chunk_appends_scored_documents {Emb} (encode : string -> Emb)
    cos fmax argpartition self max_k (qchunk : list Emb) start qrl qrl' :
  corpus_chunk cos fmax argpartition self max_k qchunk
    (map encode (corpus self)) start qrl = Ok qrl' ->
  length qrl = length qchunk ->
  length qrl' = length qrl
  /\ forall i q new,
       qchunk !! i = Some q -> qrl' !! i = Some new ->
       exists old added,
         qrl !! i = Some old /\ new = old ++ added
         /\ length added <= max_k
         /\ Forall (fun h =>
                      exists j d,
                        start <= j < start + corpus_chunk_size self
                        /\ corpus_ids self !! j = Some (corpus_id h)
                        /\ corpus self !! j = Some d
                        /\ score h = nan_to_num fmax (cos q (encode d)))
                   added.
Proof.
  intros Hrun Hlen.
  apply (corpus_chunk_inv encode) in Hrun as ->; [|done].
  split; [rewrite length_zip_with; lia|].
  intros i q new Hq. rewrite lookup_zip_with, Hq.
  destruct (qrl !! i) as [old|]; [|done]. simpl. intros [= <-].
  exists old, (chunk_hits encode cos fmax argpartition self max_k q start).
  split; [done|]. split; [done|]. split; [apply length_chunk_hits|].
  apply Forall_forall. intros h. apply chunk_hits_document.
Qed.

Lemma corpus_chunk_appends_scored_documents_witness :
  let self := toy_evaluator 10 100 [1] [1] [1] [1] in
  exists qrl',
    corpus_chunk toy_cos float32_max argsort self 1 [1%Q]
      (map toy_encode (corpus self)) 0 [[]] = Ok qrl'
    /\ length [([] : list hit)] = length [1%Q]
    /\ length qrl' = length [([] : list hit)]
    /\ forall i q new,
         [1%Q] !! i = Some q -> qrl' !! i = Some new ->
         exists old added,
           [([] : list hit)] !! i = Some old /\ new = old ++ added
           /\ length added <= 1
           /\ Forall (fun h =>
                        exists j d,
                          0 <= j < 0 + corpus_chunk_size self
                          /\ corpus_ids self !! j = Some (corpus_id h)
                          /\ corpus self !! j = Some d
                          /\ score h
                             = nan_to_num float32_max (toy_cos q (toy_encode d)))
                     added.
Proof.
  intros self.
  destruct (corpus_chunk toy_cos float32_max argsort self 1 [1%Q]
              (map toy_encode (corpus self)) 0 [[]]) as [qrl'|e] eqn:Hrun;
    [|vm_compute in Hrun; discriminate Hrun].
  exists qrl'. split; [reflexivity|]. split; [reflexivity|].
  exact (corpus_chunk_appends_scored_documents toy_encode toy_cos float32_max
           argsort self 1 [1%Q] 0 [[]] qrl' Hrun eq_refl).
Defined.

(** ** A corpus chunk with too few documents *)

Lemma is_ok_bind_false {A B} (m : result A) (f : A -> result B) :
  is_ok m = false -> is_ok (m ≫= f) = false.
Proof. by destruct m. Qed.

Section SmallChunk.

Context {Emb : Type}.
Variable encode : string -> Emb.
Variable cos : Emb -> Emb -> npfloat.
Variable fmax : Q.
Variable argpartition : list Q -> nat -> list nat.
Variable np_log2 : nat -> Q.
Variable self : InformationRetrievalEvaluator.
Variable max_k : nat.
Variable e : pyerr.

Hypothesis Hqcs : query_chunk_size self <> 0.
Hypothesis Hccs : corpus_chunk_size self <> 0.
Hypothesis Hrefused : kth_checks self max_k (corpus_starts self) = Raise e.

Lemma query_chunk_refused qs acc :
  qs < length (queries self) ->
  is_ok (query_chunk cos fmax argpartition np_log2 self max_k
           (map encode (queries self)) (map encode (corpus self)) qs acc)
  = false
  /\ (in_range argpartition ->
      length (corpus self) = length (corpus_ids self) ->
      query_chunk cos fmax argpartition np_log2 self max_k
        (map encode (queries self)) (map encode (corpus self)) qs acc
      = Raise e).
Proof.
  intros Hqs. unfold query_chunk. rewrite !length_map.
  rewrite py_range_Ok by done. simpl. fold (corpus_starts self).
  set (qe := (qs + query_chunk_size self) `min` length (queries self)).
  assert (length (slice qs qe (map encode (queries self))) = qe - qs) as Hlen.
  { rewrite length_slice, length_map. unfold qe. lia. }
  assert (slice qs qe (map encode (queries self)) <> []) as Hne.
  { intros Hnil. rewrite Hnil in Hlen. simpl in Hlen. unfold qe in Hlen. lia. }
  split.
  - eapply is_ok_bind_false, corpus_loop_raises; [done|exact Hrefused].
  - intros Hrange Hids.
    rewrite (corpus_loop_error encode cos fmax argpartition self max_k _ _ _ e);
      [done..| | |done].
    + by rewrite length_replicate.
    + by apply corpus_starts_pos.
Qed.

Lemma accumulate_refused :
  compute_max_k self = Ok max_k ->
  queries self <> [] ->
  is_ok (accumulate encode cos fmax argpartition np_log2 self) = false
  /\ (in_range argpartition ->
      length (corpus self) = length (corpus_ids self) ->
      accumulate encode cos fmax argpartition np_log2 self = Raise e).
Proof.
  intros Hmax Hq. unfold accumulate. rewrite Hmax. simpl.
  rewrite length_map, py_range_Ok by done. simpl.
  assert (0 < length (queries self)) as Hpos.
  { destruct (queries self); [done|simpl; lia]. }
  destruct ((length (queries self) + query_chunk_size self - 1)
            / query_chunk_size self) as [|m] eqn:Hm.
  { apply Nat.div_small_iff in Hm; [lia|done]. }
  cbn [seq map for_each]. rewrite Nat.mul_0_l.
  destruct (query_chunk_refused 0 (init_accumulators self) Hpos)
    as [Hfalse Hkth].
  split; [by apply is_ok_bind_false|].
  intros Hrange Hids. by rewrite Hkth.
Qed.

End SmallChunk.



(** ** Calls that return *)



Section Progress.

Variable np_log2 : nat -> Q.
Variable self : InformationRetrievalEvaluator.

Hypothesis Hpr : 0 ∉ precision_recall_at_k self.
Hypothesis Hnd : 0 ∉ ndcg_at_k self.







End Progress.

Lemma insert_asc_perm x l : insert_asc x l ≡ₚ x :: l.
Proof.
  induction l as [|y l IH]; simpl; [done|].
  destruct (Qlt_le_dec y.1 x.1); [|done]. rewrite IH. apply Permutation_swap.
Qed.

Lemma argsort_perm a kth : argsort a kth ≡ₚ seq 0 (length a).
Proof.
  unfold argsort.
  assert (forall l : list (Q * nat), foldr insert_asc [] l ≡ₚ l) as Hsort.
  { induction l as [|x l IH]; simpl; [done|]. by rewrite insert_asc_perm, IH. }
  rewrite Hsort. change (map snd ?l) with (l.*2).
  rewrite snd_zip; [done|]. by rewrite length_seq.
Qed.

Lemma argsort_in_range : in_range argsort.
Proof.
  intros a kth j _ Hj. rewrite argsort_perm in Hj.
  apply elem_of_seq in Hj. lia.
Qed.




(** ** The size of the query chunks *)

(** Lines 85-164 by cases, for indices in range: none of the cases looks at
    the size of the query chunks. *)
Lemma accumulate_cases {Emb} (encode : string -> Emb) cos fmax argpartition
    np_log2 self max_k :
  well_formed self ->
  in_range argpartition ->
  query_chunk_size self <> 0 ->
  compute_max_k self = Ok max_k ->
  accumulate encode cos fmax argpartition np_log2 self
  = if decide (queries self = []) then Ok (init_accumulators self)
    else if decide (corpus_chunk_size self = 0)
    then Raise (ValueError RangeStepZero)
    else match kth_checks self max_k (corpus_starts self) with
         | Ok _ =>
             for_each (fun x acc => score_query np_log2 self x.1 x.2 acc)
                      (scored_queries encode cos fmax argpartition self max_k)
                      (init_accumulators self)
         | Raise e => Raise e
         end.
Proof.
  intros Hwf Hrange Hqcs Hmax.
  destruct (decide (queries self = [])) as [Hq|Hq].
  { by eapply accumulate_no_queries. }
  destruct (decide (corpus_chunk_size self = 0)) as [Hccs|Hccs].
  { unfold accumulate. rewrite Hmax. simpl.
    rewrite py_range_Ok by done. simpl. rewrite length_map.
    destruct (queries self) as [|text texts] eqn:Htexts; [done|].
    simpl length.
    destruct ((S (length texts) + query_chunk_size self - 1)
              / query_chunk_size self) as [|m] eqn:Hdiv.
    { apply Nat.div_small_iff in Hdiv; [lia|done]. }
    simpl. rewrite query_chunk_zero_step by done. simpl. done. }
  destruct (kth_checks self max_k (corpus_starts self)) as [[]|e] eqn:Hkth.
  { by apply accumulate_eq_kth. }
  destruct (accumulate_refused encode cos fmax argpartition np_log2
              self max_k e Hqcs Hccs Hkth Hmax Hq) as [_ Herr].
  apply Herr; [done|]. apply Hwf.
Qed.

(** X19. The size of the query chunks does not change what a call does: for
    indices of [np.argpartition] in range, two evaluators built from the same
    arguments but for non-zero query chunk sizes give the same result, or
    raise the same exception. *)
Theorem query_chunk_size_is_immaterial {Emb} (encode : string -> Emb) cos fmax
    argpartition np_log2 (qdict cdict : list (string * string)) relevant_docs
    size1 size2 corpus_chunk_size mrr_at_k ndcg_at_k accuracy_at_k
    precision_recall_at_k batch_size name fs output_path epoch steps :
  in_range argpartition ->
  size1 <> 0 -> size2 <> 0 ->
  call encode cos fmax argpartition np_log2
       (init qdict cdict relevant_docs size1 corpus_chunk_size mrr_at_k
             ndcg_at_k accuracy_at_k precision_recall_at_k batch_size name)
       fs output_path epoch steps
  = call encode cos fmax argpartition np_log2
         (init qdict cdict relevant_docs size2 corpus_chunk_size mrr_at_k
               ndcg_at_k accuracy_at_k precision_recall_at_k batch_size name)
         fs output_path epoch steps.
Proof.
  intros Hrange H1 H2.
  set (self1 := init qdict cdict relevant_docs size1 corpus_chunk_size mrr_at_k
                     ndcg_at_k accuracy_at_k precision_recall_at_k batch_size
                     name).
  set (self2 := init qdict cdict relevant_docs size2 corpus_chunk_size mrr_at_k
                     ndcg_at_k accuracy_at_k precision_recall_at_k batch_size
                     name).
  assert (accumulate encode cos fmax argpartition np_log2 self1
          = accumulate encode cos fmax argpartition np_log2 self2) as Hacc.
  { destruct (compute_max_k self1) as [max_k|e] eqn:Hmax.
    - rewrite (accumulate_cases encode cos fmax argpartition np_log2 self1
                 max_k) by (done || apply init_well_formed).
      rewrite (accumulate_cases encode cos fmax argpartition np_log2 self2
                 max_k) by (done || apply init_well_formed).
      reflexivity.
    - unfold accumulate. change (compute_max_k self2) with (compute_max_k self1).
      by rewrite Hmax. }
  unfold call. rewrite Hacc. reflexivity.
Qed.

Lemma query_chunk_size_is_immaterial_witness :
  in_range argsort /\ 1 <> 0 /\ 10 <> 0
  /\ toy_call (init [("q1", "a"); ("q2", "x")]
                    [("d1", "x"); ("d2", "y"); ("d3", "z")]
                    {[ "q1" := {[ "d2" ]}; "q2" := {[ "d3" ]} ]}
                    1 100 [2] [1] [1; 2] [1] 16 "") None
    = toy_call (init [("q1", "a"); ("q2", "x")]
                     [("d1", "x"); ("d2", "y"); ("d3", "z")]
                     {[ "q1" := {[ "d2" ]}; "q2" := {[ "d3" ]} ]}
                     10 100 [2] [1] [1; 2] [1] 16 "") None.
Proof.
  split; [exact argsort_in_range|]. split; [lia|]. split; [lia|].
  exact (query_chunk_size_is_immaterial toy_encode toy_cos float32_max argsort
           log2_fixed _ _ _ 1 10 100 _ _ _ _ 16 EmptyString ∅ None (-1)%Z
           (-1)%Z argsort_in_range ltac:(lia) ltac:(lia)).
Defined.

(** ** The files a call touches *)



Lemma length_flat_map_pairs {A B} (f g : A -> B) (l : list A) :
  length (flat_map (fun x => [f x; g x]) l) = 2 * length l.
Proof. induction l as [|x l IH]; simpl; [done|]. rewrite IH. lia. Qed.

Lemma length_paired_row self m epoch steps :
  length (paired_row self m epoch steps)
  = 2 + length (accuracy_at_k self) + 2 * length (precision_recall_at_k self)
    + length (mrr_at_k self) + length (ndcg_at_k self).
Proof.
  unfold paired_row. rewrite !length_app, !length_map. simpl.
  rewrite length_flat_map_pairs. lia.
Qed.

Lemma length_paired_columns accuracy_at_k precision_recall_at_k mrr_at_k
    ndcg_at_k :
  length (paired_columns accuracy_at_k precision_recall_at_k mrr_at_k ndcg_at_k)
  = 2 + length accuracy_at_k + 2 * length precision_recall_at_k
    + length mrr_at_k + length ndcg_at_k.
Proof.
  unfold paired_columns. rewrite !length_app, !length_map. simpl.
  rewrite length_flat_map_pairs. lia.
Qed.

(** X21. The row a call appends to the report file has as many cells as the
    header written at construction has columns: 2, plus one per accuracy,
    MRR and NDCG cut-off, plus two per precision/recall cut-off. *)
Theorem report_row_matches_header {Emb} (encode : string -> Emb) cos
    fmax argpartition np_log2
    (qdict cdict : list (string * string)) relevant_docs query_chunk_size
    corpus_chunk_size mrr_at_k ndcg_at_k accuracy_at_k precision_recall_at_k
    batch_size name fs dir epoch steps out :
  let self := init qdict cdict relevant_docs query_chunk_size
                corpus_chunk_size mrr_at_k ndcg_at_k accuracy_at_k
                precision_recall_at_k batch_size name in
  call encode cos fmax argpartition np_log2 self fs (Some dir) epoch steps
  = Ok out ->
  exists lines row,
    files out !! path_join dir (csv_file self) = Some (lines ++ [Row row])
    /\ length row = length (csv_headers self)
    /\ length row
       = 2 + length accuracy_at_k + 2 * length precision_recall_at_k
         + length mrr_at_k + length ndcg_at_k.
Proof.
  intros self Hcall.
  destruct (call_inv _ _ _ _ _ _ _ _ _ _ _ Hcall)
    as (acc & k & _ & _ & _ & _ & Hfiles).
  apply write_csv_inv in Hfiles as [_ Hfiles].
  rewrite Hfiles, filesystem_lookup_insert_eq.
  eexists _, _. split; [done|].
  rewrite length_paired_row. simpl.
  rewrite init_csv_headers_paired, length_paired_columns. done.
Qed.

Lemma report_row_matches_header_witness :
  let self := toy_evaluator 10 100 [2] [1] [1; 2] [1] in
  exists out,
    toy_call self (Some "out") = Ok out
    /\ exists lines row,
         files out !! path_join "out" (csv_file self) = Some (lines ++ [Row row])
         /\ length row = length (csv_headers self)
         /\ length row = 2 + length [1; 2] + 2 * length [1] + length [2]
                         + length [1].
Proof.
  intros self.
  destruct (toy_call self (Some "out")) as [out|e] eqn:Hcall;
    [|vm_compute in Hcall; discriminate Hcall].
  exists out. split; [reflexivity|].
  exact (report_row_matches_header toy_encode toy_cos float32_max
           argsort log2_fixed _ _ _ _ _ _ _ _ _ _ _ ∅ "out" (-1)%Z (-1)%Z out
           Hcall).
Defined.

(** X22. Calling twice with the same output path writes the header once and
    two rows, and the second call reports and returns what the first did:
    the metrics depend neither on the files nor on the epoch and step
    numbers. *)
Theorem second_call_appends_a_row {Emb} (encode : string -> Emb) cos
    fmax argpartition np_log2 self fs dir epoch1 steps1 epoch2 steps2
    out1 out2 :
  call encode cos fmax argpartition np_log2 self fs (Some dir) epoch1 steps1
  = Ok out1 ->
  call encode cos fmax argpartition np_log2 self (files out1) (Some dir)
       epoch2 steps2
  = Ok out2 ->
  reported out2 = reported out1
  /\ returned out2 = returned out1
  /\ files out2 !! path_join dir (csv_file self)
     = Some (match fs !! path_join dir (csv_file self) with
             | None => [Header (csv_headers self)]
             | Some lines => lines
             end
             ++ [Row (paired_row self (reported out1) epoch1 steps1);
                 Row (paired_row self (reported out1) epoch2 steps2)]).
Proof.
  intros Hcall1 Hcall2.
  destruct (call_inv _ _ _ _ _ _ _ _ _ _ _ Hcall1)
    as (acc1 & k1 & Hacc1 & Havg1 & Hk1 & Hret1 & Hfiles1).
  destruct (call_inv _ _ _ _ _ _ _ _ _ _ _ Hcall2)
    as (acc2 & k2 & Hacc2 & Havg2 & Hk2 & Hret2 & Hfiles2).
  rewrite Hacc1 in Hacc2. injection Hacc2 as <-.
  rewrite Havg1 in Havg2. injection Havg2 as Hrep.
  rewrite Hk1 in Hk2. injection Hk2 as <-.
  rewrite <- Hrep, Hret1 in Hret2. injection Hret2 as Hret.
  split; [done|]. split; [done|].
  apply write_csv_inv in Hfiles1 as [_ Hfiles1], Hfiles2 as [_ Hfiles2].
  rewrite Hfiles2, filesystem_lookup_insert_eq, Hfiles1,
    filesystem_lookup_insert_eq, <- Hrep.
  by rewrite <- app_assoc.
Qed.

Lemma second_call_appends_a_row_witness :
  let self := toy_evaluator 10 100 [2] [1] [1; 2] [1] in
  exists out1 out2,
    toy_call self (Some "out") = Ok out1
    /\ call toy_encode toy_cos float32_max argsort log2_fixed self (files out1)
            (Some "out") 1 0 = Ok out2
    /\ reported out2 = reported out1
    /\ returned out2 = returned out1
    /\ files out2 !! path_join "out" (csv_file self)
       = Some ([Header (csv_headers self)]
               ++ [Row (paired_row self (reported out1) (-1) (-1));
                   Row (paired_row self (reported out1) 1 0)]).
Proof.
  intros self.
  destruct (toy_call self (Some "out")) as [out1|e] eqn:Hcall1;
    [|vm_compute in Hcall1; discriminate Hcall1].
  destruct (call toy_encode toy_cos float32_max argsort log2_fixed self
              (files out1) (Some "out") 1 0) as [out2|e] eqn:Hcall2.
  - exists out1, out2. split; [reflexivity|]. split; [exact Hcall2|].
    exact (second_call_appends_a_row toy_encode toy_cos float32_max argsort
             log2_fixed self ∅ "out" (-1)%Z (-1)%Z 1%Z 0%Z out1 out2
             Hcall1 Hcall2).
  - exfalso. vm_compute in Hcall1. injection Hcall1 as <-.
    vm_compute in Hcall2. discriminate Hcall2.
Defined.

(** ** Ids and texts after construction *)

Lemma odict_get_NoDup (d : list (string * string)) k v :
  NoDup (map fst d) -> (k, v) ∈ d -> odict_get d k = Some v.
Proof.
  induction d as [|[k' v'] d IH]; simpl; [by intros _ ?%elem_of_nil|].
  intros [Hnin Hnd]%NoDup_cons [[= -> ->]|Hin]%elem_of_cons.
  - by rewrite decide_True.
  - rewrite decide_False; [by apply IH|]. intros ->. apply Hnin.
    by apply (list_elem_of_fmap_2 fst _ (k, v)).
Qed.

Lemma omap_odict_get (d l : list (string * string)) :
  Forall (fun p => odict_get d p.1 = Some p.2) l ->
  omap (odict_get d) (map fst l) = map snd l.
Proof.
  induction 1 as [|p l Hp _ IH]; [done|]. cbn [map omap list_omap].
  fold (omap (odict_get d) (map fst l)). by rewrite Hp, IH.
Qed.

Lemma filter_map_fst {A B} (P : A -> Prop) `{!forall x, Decision (P x)}
    (l : list (A * B)) :
  filter P (map fst l) = map fst (filter (fun p => P p.1) l).
Proof.
  induction l as [|p l IH]; [done|]. simpl.
  destruct (decide (P p.1)) as [Hp|Hp].
  - rewrite !filter_cons_True by done. simpl. by rewrite IH.
  - by rewrite !filter_cons_False.
Qed.

(** X23. Construction keeps ids and texts aligned: for dicts (no key twice),
    the retained query ids zipped with the query texts are the entries of
    [queries] with a non-empty relevance set, in input order, and the corpus
    ids zipped with the corpus texts are the entries of [corpus]. *)
Theorem init_pairs_ids_with_texts
    (qdict cdict : list (string * string)) relevant_docs query_chunk_size
    corpus_chunk_size mrr_at_k ndcg_at_k accuracy_at_k precision_recall_at_k
    batch_size name :
  let self := init qdict cdict relevant_docs query_chunk_size
                corpus_chunk_size mrr_at_k ndcg_at_k accuracy_at_k
                precision_recall_at_k batch_size name in
  NoDup (map fst qdict) ->
  NoDup (map fst cdict) ->
  zip (queries_ids self) (queries self)
  = filter (fun p => retained relevant_docs p.1) qdict
  /\ zip (corpus_ids self) (corpus self) = cdict.
Proof.
  intros self Hq Hc. subst self. simpl. split.
  - rewrite init_queries_ids_filter, filter_map_fst, omap_odict_get.
    + apply zip_fst_snd.
    + apply Forall_forall. intros [k v] [_ Hin]%list_elem_of_filter.
      by apply odict_get_NoDup.
  - rewrite omap_odict_get; [apply zip_fst_snd|].
    apply Forall_forall. intros [k v] Hin. by apply odict_get_NoDup.
Qed.

Lemma init_pairs_ids_with_texts_witness :
  let qdict := [("q1", "a"); ("q2", "x")] in
  let cdict := [("d1", "x"); ("d2", "y"); ("d3", "z")] in
  let relevant_docs : gmap string (gset string) := {[ "q2" := {[ "d2" ]} ]} in
  let self := init qdict cdict relevant_docs 10 100 [2] [1] [1; 2] [1] 16 "" in
  NoDup (map fst qdict) /\ NoDup (map fst cdict)
  /\ zip (queries_ids self) (queries self)
     = filter (fun p => retained relevant_docs p.1) qdict
  /\ zip (corpus_ids self) (corpus self) = cdict.
Proof.
  intros qdict cdict relevant_docs self.
  assert (NoDup (map fst qdict)) as Hq.
  { apply (bool_decide_unpack _). vm_compute. exact I. }
  assert (NoDup (map fst cdict)) as Hc.
  { apply (bool_decide_unpack _). vm_compute. exact I. }
  split; [exact Hq|]. split; [exact Hc|].
  exact (init_pairs_ids_with_texts qdict cdict relevant_docs 10 100 [2] [1]
           [1; 2] [1] 16 "" Hq Hc).
Defined.

(** ** Sorting the candidates *)

Lemma insert_desc_perm x l : insert_desc x l ≡ₚ x :: l.
Proof.
  induction l as [|y l IH]; simpl; [done|].
  destruct (Qlt_le_dec (score x) (score y)); [|done].
  rewrite IH. apply Permutation_swap.
Qed.

Lemma sorted_desc_perm l : sorted_desc l ≡ₚ l.
Proof.
  unfold sorted_desc. induction l as [|x l IH]; simpl; [done|].
  by rewrite insert_desc_perm, IH.
Qed.

Lemma insert_desc_sorted x l :
  StronglySorted (fun a b => (score b <= score a)%Q) l ->
  StronglySorted (fun a b => (score b <= score a)%Q) (insert_desc x l).
Proof.
  induction 1 as [|y l Hl IH Hy]; simpl; [by repeat constructor|].
  destruct (Qlt_le_dec (score x) (score y)) as [Hlt|Hle].
  - constructor; [done|]. rewrite insert_desc_perm.
    constructor; [by apply Qlt_le_weak|done].
  - constructor; [by constructor|]. constructor; [done|].
    eapply Forall_impl; [exact Hy|]. simpl. intros z Hz.
    by apply (Qle_trans _ (score y)).
Qed.

Lemma insert_desc_filter_score x l s :
  filter (fun h => Qeq_bool (score h) s = true) (insert_desc x l)
  = filter (fun h => Qeq_bool (score h) s = true) (x :: l).
Proof.
  induction l as [|y l IH]; cbn [insert_desc]; [done|].
  destruct (Qlt_le_dec (score x) (score y)) as [Hlt|Hle]; [|done].
  destruct (decide (Qeq_bool (score x) s = true)) as [Hx|Hx].
  - assert (Qeq_bool (score y) s <> true) as Hy.
    { intros Hy. apply Qeq_bool_iff in Hx, Hy. rewrite Hx, Hy in Hlt.
      by apply Qlt_irrefl in Hlt. }
    rewrite (filter_cons_False _ y) by done.
    rewrite IH, (filter_cons_True _ x) by done.
    by rewrite (filter_cons_True _ x), (filter_cons_False _ y).
  - destruct (decide (Qeq_bool (score y) s = true)) as [Hy|Hy].
    + rewrite (filter_cons_True _ y), IH by done.
      rewrite !(filter_cons_False _ x) by done.
      by rewrite (filter_cons_True _ y).
    + rewrite (filter_cons_False _ y), IH by done.
      rewrite !(filter_cons_False _ x) by done.
      by rewrite (filter_cons_False _ y).
Qed.

(** X24. The sort of line 129 rearranges the candidates of a query into
    non-increasing order of score and is stable: no hit is lost or added, and
    hits of equal score stay in the order in which the corpus chunks produced
    them. *)
Theorem top_hits_sorted_and_stable (candidates : list hit) :
  sorted_desc candidates ≡ₚ candidates
  /\ StronglySorted (fun a b => (score b <= score a)%Q) (sorted_desc candidates)
  /\ forall s,
       filter (fun h => Qeq_bool (score h) s = true) (sorted_desc candidates)
       = filter (fun h => Qeq_bool (score h) s = true) candidates.
Proof.
  split; [apply sorted_desc_perm|]. split.
  - unfold sorted_desc. induction candidates as [|x l IH]; simpl.
    + constructor.
    + by apply insert_desc_sorted.
  - intros s. unfold sorted_desc. induction candidates as [|x l IH]; [done|].
    cbn [foldr]. rewrite insert_desc_filter_score.
    destruct (decide (Qeq_bool (score x) s = true)).
    + rewrite !(filter_cons_True _ x) by done. by rewrite IH.
    + by rewrite !(filter_cons_False _ x).
Qed.

(** ** The first hits of a sorted list *)

Lemma sorted_desc_sorted l :
  StronglySorted (fun a b => (score b <= score a)%Q) (sorted_desc l).
Proof.
  unfold sorted_desc. induction l as [|x l IH]; simpl; [constructor|].
  by apply insert_desc_sorted.
Qed.

Lemma strictly_sorted l :
  NoDup ((fun h => Qred (score h)) <$> l) ->
  StronglySorted (fun a b => (score b <= score a)%Q) l ->
  StronglySorted (fun a b => (score b < score a)%Q) l.
Proof.
  intros Hnd Hl. induction Hl as [|a l Hl IH Ha]; [constructor|].
  rewrite fmap_cons in Hnd. apply NoDup_cons in Hnd as [Hnin Hnd].
  constructor; [by apply IH|].
  apply Forall_forall. intros b Hb. rewrite Forall_forall in Ha.
  destruct (Qle_lt_or_eq _ _ (Ha b Hb)) as [?|Heq]; [done|].
  exfalso. apply Hnin. apply Qred_complete in Heq. rewrite <- Heq.
  by apply (list_elem_of_fmap_2 (fun h => Qred (score h))).
Qed.

Lemma sorted_desc_strictly_sorted l :
  NoDup ((fun h => Qred (score h)) <$> l) ->
  StronglySorted (fun a b => (score b < score a)%Q) (sorted_desc l).
Proof.
  intros Hnd. apply strictly_sorted; [|apply sorted_desc_sorted].
  by rewrite sorted_desc_perm.
Qed.

(** Two strictly sorted lists, the first within the second and holding the
    [k] first elements of the second, start with the same [k] elements. *)
Lemma take_strictly_sorted_eq k (S1 S2 : list hit) :
  StronglySorted (fun a b => (score b < score a)%Q) S1 ->
  StronglySorted (fun a b => (score b < score a)%Q) S2 ->
  (forall h, h ∈ S1 -> h ∈ S2) ->
  (forall h, h ∈ take k S2 -> h ∈ S1) ->
  take k S1 = take k S2.
Proof.
  revert S1 S2. induction k as [|k IH]; intros S1 S2 H1 H2 Hsub Htop; [done|].
  destruct S2 as [|x2 S2].
  { destruct S1 as [|x1 S1]; [done|].
    specialize (Hsub x1 ltac:(left)). by apply elem_of_nil in Hsub. }
  destruct S1 as [|x1 S1].
  { specialize (Htop x2 ltac:(simpl; left)). by apply elem_of_nil in Htop. }
  apply StronglySorted_inv in H1 as [H1 Hx1], H2 as [H2 Hx2].
  rewrite Forall_forall in Hx1, Hx2.
  assert (x1 = x2) as ->.
  { pose proof (Hsub x1 ltac:(left)) as Ha.
    pose proof (Htop x2 ltac:(simpl; left)) as Hb.
    apply elem_of_cons in Ha as [?|Ha]; [done|].
    apply elem_of_cons in Hb as [?|Hb]; [done|].
    apply Hx2 in Ha. apply Hx1 in Hb. exfalso.
    apply (Qlt_irrefl (score x1)). by apply (Qlt_trans _ (score x2)). }
  simpl. f_equal. apply IH; [done..| |].
  - intros h Hh. pose proof (Hsub h ltac:(by right)) as Ha.
    apply elem_of_cons in Ha as [->|]; [|done].
    apply Hx1 in Hh. by apply Qlt_irrefl in Hh.
  - intros h Hh. pose proof (Htop h ltac:(simpl; by right)) as Ha.
    apply elem_of_cons in Ha as [->|]; [|done].
    apply elem_of_take in Hh as (i & Hh & _).
    apply list_elem_of_lookup_2 in Hh. apply Hx2 in Hh.
    by apply Qlt_irrefl in Hh.
Qed.

(** In a strictly sorted list, the hits that beat the hit at index [i] are
    fewer than [i + 1]. *)
Lemma strictly_sorted_rank (S : list hit) i h (G : list hit) :
  StronglySorted (fun a b => (score b < score a)%Q) S ->
  S !! i = Some h ->
  NoDup G ->
  Forall (fun g => g ∈ S /\ (score h < score g)%Q) G ->
  length G <= i.
Proof.
  intros HS Hi Hnd HG.
  assert (G ⊆+ take i S) as Hsub.
  { apply NoDup_submseteq; [done|]. intros g Hg.
    rewrite Forall_forall in HG. destruct (HG g Hg) as [HgS Hlt].
    rewrite <- (take_drop_middle S i h Hi) in HgS, HS.
    apply elem_of_app in HgS as [?|HgS]; [done|]. exfalso.
    apply StronglySorted_app_1_r in HS.
    apply StronglySorted_inv in HS as [_ Hh].
    apply elem_of_cons in HgS as [->|HgS]; [by apply Qlt_irrefl in Hlt|].
    rewrite Forall_forall in Hh. apply Hh in HgS.
    apply (Qlt_irrefl (score h)). by apply (Qlt_trans _ (score g)). }
  apply submseteq_length in Hsub. rewrite length_take in Hsub. lia.
Qed.

(** ** What a corpus chunk selects *)

Lemma omap_ext_pointwise {A B} (f g : A -> option B) (l : list A) :
  (forall x, f x = g x) -> omap f l = omap g l.
Proof.
  intros Hfg. induction l as [|x l IH]; [done|]. cbn [omap list_omap].
  fold (omap f l). fold (omap g l). by rewrite Hfg, IH.
Qed.

Lemma omap_lookup_seq_app {A} (pre l : list A) :
  omap (fun i => (pre ++ l) !! i) (seq (length pre) (length l)) = l.
Proof.
  revert pre. induction l as [|x l IH]; intros pre; [done|].
  cbn [length seq omap list_omap].
  fold (omap (fun i => (pre ++ x :: l) !! i) (seq (S (length pre)) (length l))).
  rewrite list_lookup_middle by done. f_equal.
  specialize (IH (pre ++ [x])). rewrite <- app_assoc, length_app in IH.
  simpl in IH. by rewrite Nat.add_1_r in IH.
Qed.

Lemma omap_lookup_seq {A} (l : list A) :
  omap (fun i => l !! i) (seq 0 (length l)) = l.
Proof. apply (omap_lookup_seq_app [] l). Qed.

Lemma partitions_in_range argpartition :
  partitions argpartition -> in_range argpartition.
Proof.
  intros Hpart a kth j Hkth Hj. destruct (Hpart a kth Hkth) as [Hperm _].
  rewrite Hperm in Hj. apply elem_of_seq in Hj. lia.
Qed.

Section ChunkOrder.

Context {Emb : Type}.
Variable encode : string -> Emb.
Variable cos : Emb -> Emb -> npfloat.
Variable fmax : Q.
Variable argpartition : list Q -> nat -> list nat.
Variable self : InformationRetrievalEvaluator.
Variable max_k : nat.

Hypothesis Hpart : partitions argpartition.
Hypothesis Hids : length (corpus self) = length (corpus_ids self).

(** The documents of the chunk at [start], as hits. *)
Let chunk_all (q : Emb) (start : nat) : list hit :=
  slice start ((start + corpus_chunk_size self) `min` length (corpus self))
        (all_hits encode cos fmax self q).

Lemma length_all_hits q :
  length (all_hits encode cos fmax self q) = length (corpus self).
Proof. unfold all_hits. rewrite length_zip_with. lia. Qed.

Lemma length_chunk_all q start :
  length (chunk_all q start) = chunk_length self start.
Proof.
  unfold chunk_all, chunk_length. rewrite length_slice, length_all_hits. lia.
Qed.

Lemma row_hit_lookup q start sub :
  (cid ← corpus_ids self !! (start + sub);
   s ← chunk_scores encode cos fmax self q start !! sub;
   Some {| corpus_id := cid; score := s |})
  = chunk_all q start !! sub.
Proof.
  unfold chunk_all, chunk_scores, all_hits.
  rewrite list_lookup_fmap, !lookup_slice.
  case_decide as Hsub.
  - rewrite lookup_zip_with, list_lookup_fmap.
    destruct (corpus_ids self !! (start + sub)); simpl; [|done].
    by destruct (corpus self !! (start + sub)).
  - simpl. by destruct (corpus_ids self !! (start + sub)).
Qed.

Lemma chunk_all_score q start sub h :
  chunk_all q start !! sub = Some h ->
  chunk_scores encode cos fmax self q start !! sub = Some (score h).
Proof.
  rewrite <- row_hit_lookup.
  destruct (corpus_ids self !! (start + sub)); simpl; [|done].
  destruct (chunk_scores encode cos fmax self q start !! sub); simpl; [|done].
  by intros [= <-].
Qed.

Lemma chunk_hits_omap q start :
  max_k < chunk_length self start ->
  chunk_hits encode cos fmax argpartition self max_k q start
  = omap (fun sub => chunk_all q start !! sub)
         (take max_k (argpartition
                        (map Qopp (chunk_scores encode cos fmax self q start))
                        max_k)).
Proof.
  intros Hbig. unfold chunk_hits, row_hits.
  rewrite slice_0, selection_kth_lt by done.
  apply omap_ext_pointwise. intros sub. apply row_hit_lookup.
Qed.

(** A chunk with more than [max_k] documents splits into the [max_k] hits it
    selects and the rest, none of which beats a selected hit. *)
Lemma chunk_split q start :
  max_k < chunk_length self start ->
  exists rest,
    chunk_all q start
    ≡ₚ chunk_hits encode cos fmax argpartition self max_k q start ++ rest
    /\ length (chunk_hits encode cos fmax argpartition self max_k q start)
       = max_k
    /\ forall g r,
         g ∈ chunk_hits encode cos fmax argpartition self max_k q start ->
         r ∈ rest -> (score r <= score g)%Q.
Proof.
  intros Hbig. rewrite chunk_hits_omap by done.
  set (scores := chunk_scores encode cos fmax self q start).
  set (a := map Qopp scores).
  assert (length a = chunk_length self start) as Hlen.
  { unfold a, scores. by rewrite length_map, length_chunk_scores. }
  destruct (Hpart a max_k ltac:(lia)) as [Hperm Hord].
  set (perm := argpartition a max_k) in *.
  assert (length perm = chunk_length self start) as Hlperm.
  { by rewrite Hperm, length_seq. }
  assert (forall i j, perm !! i = Some j ->
            exists h, chunk_all q start !! j = Some h
                      /\ a !! j = Some (- score h)%Q) as Hlook.
  { intros i j Hj. apply list_elem_of_lookup_2 in Hj. rewrite Hperm in Hj.
    apply elem_of_seq in Hj.
    destruct (lookup_lt_is_Some_2 (chunk_all q start) j) as [h Hh].
    { rewrite length_chunk_all. lia. }
    exists h. split; [done|]. unfold a, scores. rewrite list_lookup_fmap.
    by rewrite (chunk_all_score _ _ _ _ Hh). }
  destruct (lookup_lt_is_Some_2 perm max_k ltac:(lia)) as [p Hp].
  destruct (Hlook _ _ Hp) as (hp & Hhp & Hap).
  exists (omap (fun sub => chunk_all q start !! sub) (drop max_k perm)).
  split; [|split].
  - rewrite <- omap_app, take_drop.
    rewrite <- (omap_lookup_seq (chunk_all q start)) at 1.
    rewrite length_chunk_all, <- Hlen. by rewrite Hperm.
  - rewrite length_omap_total; [rewrite length_take; lia|].
    apply Forall_forall. intros j Hj. apply elem_of_take in Hj as (i & Hj & _).
    destruct (Hlook _ _ Hj) as (h & -> & _). by eexists.
  - intros g r (j & Hj & Hg)%list_elem_of_omap (j' & Hj' & Hr)%list_elem_of_omap.
    apply elem_of_take in Hj as (i & Hj & Hi).
    apply list_elem_of_lookup_1 in Hj' as [i' Hj'].
    rewrite lookup_drop in Hj'.
    destruct (Hlook _ _ Hj) as (g' & Hg' & Hag).
    destruct (Hlook _ _ Hj') as (r' & Hr' & Har).
    rewrite Hg in Hg'. injection Hg' as <-.
    rewrite Hr in Hr'. injection Hr' as <-.
    destruct (Hord _ _ _ _ _ Hj Hp Hag Hap) as [Hle _].
    specialize (Hle Hi).
    destruct (decide (i' = 0)) as [->|Hne].
    + rewrite Nat.add_0_r, Hp in Hj'. injection Hj' as <-.
      rewrite Hap in Har. apply (inj Some) in Har.
      assert (- score hp == - score r)%Q as Heq by (by rewrite Har).
      lra.
    + destruct (Hord _ _ _ _ _ Hj' Hp Har Hap) as [_ Hge].
      specialize (Hge ltac:(lia)). lra.
Qed.

End ChunkOrder.

(** ** The first [max_k] hits do not depend on the chunks *)

Lemma slice_sublist {A} (a b : nat) (l : list A) : slice a b l `sublist_of` l.
Proof.
  unfold slice. etransitivity; [apply sublist_take|apply sublist_drop].
Qed.

Section TopHits.

Context {Emb : Type}.
Variable encode : string -> Emb.
Variable cos : Emb -> Emb -> npfloat.
Variable fmax : Q.
Variable argpartition : list Q -> nat -> list nat.
Variable self : InformationRetrievalEvaluator.
Variable max_k : nat.

Hypothesis Hpart : partitions argpartition.
Hypothesis Hids : length (corpus self) = length (corpus_ids self).
Hypothesis Hccs : corpus_chunk_size self <> 0.

Let chunk_of (q : Emb) (start : nat) : list hit :=
  slice start ((start + corpus_chunk_size self) `min` length (corpus self))
        (all_hits encode cos fmax self q).

Let selected (q : Emb) (start : nat) : list hit :=
  chunk_hits encode cos fmax argpartition self max_k q start.

(** The chunks split into the selected hits and a rest; each hit of the rest
    comes from a chunk whose [max_k] selected hits it does not beat. *)
Lemma chunks_split q starts :
  Forall (fun start => max_k < chunk_length self start) starts ->
  exists rest,
    concat (map (chunk_of q) starts) ≡ₚ flat_map (selected q) starts ++ rest
    /\ forall r, r ∈ rest ->
         exists start others,
           chunk_of q start ≡ₚ selected q start ++ others
           /\ r ∈ others
           /\ length (selected q start) = max_k
           /\ (forall g, g ∈ selected q start -> g ∈ flat_map (selected q) starts)
           /\ forall g, g ∈ selected q start -> (score r <= score g)%Q.
Proof.
  induction 1 as [|start starts Hbig _ (rest & Hperm & Hrest)].
  { exists []. split; [done|]. by intros r ?%elem_of_nil. }
  destruct (chunk_split encode cos fmax argpartition self max_k Hpart Hids q
              start Hbig) as (others & Hsplit & Hlen & Hord).
  change (chunk_of q start ≡ₚ selected q start ++ others) in Hsplit.
  change (length (selected q start) = max_k) in Hlen.
  change (forall g r, g ∈ selected q start -> r ∈ others ->
                      (score r <= score g)%Q) in Hord.
  change (concat (map (chunk_of q) (start :: starts)))
    with (chunk_of q start ++ concat (map (chunk_of q) starts)).
  change (flat_map (selected q) (start :: starts))
    with (selected q start ++ flat_map (selected q) starts).
  exists (others ++ rest). split.
  - rewrite Hsplit, Hperm. rewrite <- !app_assoc. f_equiv.
    rewrite !app_assoc. f_equiv. apply Permutation_app_comm.
  - intros r [Hr|Hr]%elem_of_app.
    + exists start, others. split; [done|]. split; [done|]. split; [done|].
      split; [|by intros g Hg; apply Hord].
      intros g Hg. apply elem_of_app. by left.
    + destruct (Hrest r Hr) as (start' & others' & H1 & H2 & H3 & H4 & H5).
      exists start', others'. split; [done|]. split; [done|]. split; [done|].
      split; [|done].
      intros g Hg. apply elem_of_app. right. by apply H4.
Qed.

Lemma all_hits_chunks q :
  all_hits encode cos fmax self q
  = concat (map (chunk_of q) (corpus_starts self)).
Proof.
  unfold chunk_of, corpus_starts.
  rewrite <- (length_all_hits encode cos fmax self Hids q).
  symmetry. by apply concat_chunks.
Qed.

(** Without ties, and with every chunk larger than [max_k], the first
    [max_k] sorted candidates are the first [max_k] documents of the whole
    corpus by similarity. *)
Lemma top_hits_prefix q :
  tie_free encode cos fmax self q ->
  Forall (fun start => max_k < chunk_length self start) (corpus_starts self) ->
  take max_k (sorted_desc (candidates encode cos fmax argpartition self max_k q))
  = take max_k (sorted_desc (all_hits encode cos fmax self q)).
Proof.
  intros Hfree Hbig. unfold tie_free in Hfree.
  destruct (chunks_split q (corpus_starts self) Hbig) as (rest & Hperm & Hrest).
  rewrite <- all_hits_chunks in Hperm.
  fold (candidates encode cos fmax argpartition self max_k q) in Hperm, Hrest.
  set (all := all_hits encode cos fmax self q) in *.
  set (cands := candidates encode cos fmax argpartition self max_k q) in *.
  assert (NoDup ((fun h => Qred (score h)) <$> cands)) as Hnd.
  { pose proof Hfree as Hnd. rewrite Hperm, fmap_app in Hnd.
    by apply NoDup_app in Hnd as [? _]. }
  apply take_strictly_sorted_eq.
  - by apply sorted_desc_strictly_sorted.
  - by apply sorted_desc_strictly_sorted.
  - intros h Hh. rewrite sorted_desc_perm in Hh |- *.
    rewrite Hperm. apply elem_of_app. by left.
  - intros h Hh. apply elem_of_take in Hh as (i & Hi & Hlt).
    pose proof (list_elem_of_lookup_2 _ _ _ Hi) as Hh.
    rewrite sorted_desc_perm, Hperm in Hh.
    apply elem_of_app in Hh as [Hh|Hh]; [by rewrite sorted_desc_perm|].
    exfalso.
    destruct (Hrest h Hh) as (start & others & Hsplit & Hr & Hlen & Hin & Hord).
    assert (chunk_of q start `sublist_of` all) as Hsub by apply slice_sublist.
    assert (NoDup ((fun h => Qred (score h))
                   <$> (selected q start ++ others))) as Hnd'.
    { rewrite <- Hsplit. eapply sublist_NoDup; [exact Hfree|].
      by apply fmap_sublist. }
    rewrite fmap_app in Hnd'. apply NoDup_app in Hnd' as (HndG & Hdisj & _).
    enough (length (selected q start) <= i) by lia.
    apply (strictly_sorted_rank (sorted_desc all) i h).
    + by apply sorted_desc_strictly_sorted.
    + done.
    + by apply NoDup_fmap_1 in HndG.
    + apply Forall_forall. intros g Hg. split.
      * rewrite sorted_desc_perm.
        apply (elem_of_sublist (chunk_of q start)); [|done].
        rewrite Hsplit. apply elem_of_app. by left.
      * destruct (Qle_lt_or_eq _ _ (Hord g Hg)) as [?|Heq]; [done|].
        exfalso. apply (Hdisj (Qred (score g))).
        -- by apply (list_elem_of_fmap_2 (fun h => Qred (score h))).
        -- apply Qred_complete in Heq. rewrite <- Heq.
           by apply (list_elem_of_fmap_2 (fun h => Qred (score h))).
Qed.

End TopHits.

Lemma scoring_ext np_log2 self max_k (t1 t2 : string -> list hit)
    (docs : string -> gset string) ids qs acc :
  compute_max_k self = Ok max_k ->
  (forall text, text ∈ qs -> take max_k (t1 text) = take max_k (t2 text)) ->
  for_each (fun x acc => score_query np_log2 self x.1 x.2 acc)
           (zip_with (fun qid text => (t1 text, docs qid)) ids qs) acc
  = for_each (fun x acc => score_query np_log2 self x.1 x.2 acc)
             (zip_with (fun qid text => (t2 text, docs qid)) ids qs) acc.
Proof.
  intros Hmax. apply compute_max_k_upper in Hmax.
  revert qs acc. induction ids as [|qid ids IH]; intros [|text qs] acc Ht;
    simpl; try done.
  rewrite <- (score_query_prefix np_log2 self (t1 text) _ _ max_k Hmax).
  rewrite (Ht text) by left.
  rewrite (score_query_prefix np_log2 self (t2 text) _ _ max_k Hmax).
  destruct (score_query np_log2 self (t2 text) (docs qid) acc); simpl; [|done].
  apply IH. intros text' Hin. apply Ht. by right.
Qed.

(** X25. Without ties the sizes of the chunks do not matter: when
    [np.argpartition] partitions as numpy documents it, no two documents
    have the same similarity to a retained query, and every corpus chunk
    holds more than [max_k] documents under both evaluators, two evaluators
    built from the same arguments except for their (non-zero) query and
    corpus chunk sizes give the same result, or raise the same exception. *)
Theorem chunk_sizes_are_immaterial {Emb} (encode : string -> Emb) cos fmax
    argpartition np_log2 (qdict cdict : list (string * string)) relevant_docs
    qsize1 csize1 qsize2 csize2 mrr_at_k ndcg_at_k accuracy_at_k
    precision_recall_at_k batch_size name fs output_path epoch steps max_k :
  let self1 := init qdict cdict relevant_docs qsize1 csize1 mrr_at_k ndcg_at_k
                    accuracy_at_k precision_recall_at_k batch_size name in
  let self2 := init qdict cdict relevant_docs qsize2 csize2 mrr_at_k ndcg_at_k
                    accuracy_at_k precision_recall_at_k batch_size name in
  partitions argpartition ->
  qsize1 <> 0 -> csize1 <> 0 -> qsize2 <> 0 -> csize2 <> 0 ->
  compute_max_k self1 = Ok max_k ->
  Forall (fun start => max_k < chunk_length self1 start) (corpus_starts self1) ->
  Forall (fun start => max_k < chunk_length self2 start) (corpus_starts self2) ->
  (forall text, text ∈ queries self1 ->
                tie_free encode cos fmax self1 (encode text)) ->
  call encode cos fmax argpartition np_log2 self1 fs output_path epoch steps
  = call encode cos fmax argpartition np_log2 self2 fs output_path epoch steps.
Proof.
  intros self1 self2 Hpart Hq1 Hc1 Hq2 Hc2 Hmax Hbig1 Hbig2 Hfree.
  pose proof (partitions_in_range _ Hpart) as Hrange.
  assert (well_formed self1) as Hwf1 by apply init_well_formed.
  assert (well_formed self2) as Hwf2 by apply init_well_formed.
  assert (accumulate encode cos fmax argpartition np_log2 self1
          = accumulate encode cos fmax argpartition np_log2 self2) as Hacc.
  { rewrite (accumulate_eq encode cos fmax argpartition np_log2 self1 max_k)
      by done.
    rewrite (accumulate_eq encode cos fmax argpartition np_log2 self2 max_k)
      by done.
    apply (scoring_ext np_log2 self1 max_k
             (top_hits_of encode cos fmax argpartition self1 max_k)
             (top_hits_of encode cos fmax argpartition self2 max_k)
             (query_docs self1) (queries_ids self1) (queries self1)
             (init_accumulators self1) Hmax).
    intros text Hin. unfold top_hits_of.
    rewrite (top_hits_prefix encode cos fmax argpartition self1 max_k Hpart
               (proj1 (proj2 Hwf1)) Hc1 (encode text) (Hfree text Hin) Hbig1).
    symmetry.
    exact (top_hits_prefix encode cos fmax argpartition self2 max_k Hpart
             (proj1 (proj2 Hwf2)) Hc2 (encode text) (Hfree text Hin) Hbig2). }
  unfold call. rewrite Hacc. reflexivity.
Qed.

Lemma insert_asc_sorted (x : Q * nat) l :
  StronglySorted (fun u v : Q * nat => (u.1 <= v.1)%Q) l ->
  StronglySorted (fun u v : Q * nat => (u.1 <= v.1)%Q) (insert_asc x l).
Proof.
  induction 1 as [|y l Hl IH Hy]; simpl; [by repeat constructor|].
  destruct (Qlt_le_dec y.1 x.1) as [Hlt|Hle].
  - constructor; [done|]. rewrite insert_asc_perm.
    constructor; [by apply Qlt_le_weak|done].
  - constructor; [by constructor|]. constructor; [done|].
    eapply Forall_impl; [exact Hy|]. simpl. intros z Hz.
    by apply (Qle_trans _ y.1).
Qed.

Lemma strongly_sorted_lookup {A} (R : relation A) l i j a b :
  StronglySorted R l -> i < j -> l !! i = Some a -> l !! j = Some b -> R a b.
Proof.
  intros Hl Hij Ha Hb. rewrite <- (take_drop_middle l j b Hb) in Hl.
  apply (StronglySorted_app_1_elem_of R _ _ a b Hl); [|left].
  apply elem_of_take. eauto.
Qed.

Lemma elem_of_zip_seq {A} (a : list A) x j :
  (x, j) ∈ zip a (seq 0 (length a)) -> a !! j = Some x.
Proof.
  intros [i Hi]%list_elem_of_lookup_1. rewrite lookup_zip_with in Hi.
  destruct (a !! i) as [x'|] eqn:Hx; simpl in Hi; [|done].
  destruct (seq 0 (length a) !! i) as [j'|] eqn:Hj; simpl in Hi; [|done].
  injection Hi as -> ->. apply lookup_seq in Hj as [-> _]. done.
Qed.

Lemma argsort_partitions : partitions argsort.
Proof.
  intros a kth Hkth. split; [apply argsort_perm|].
  intros i j p x y Hi Hp Hx Hy. unfold argsort in Hi, Hp.
  set (srt := foldr insert_asc [] (zip a (seq 0 (length a)))) in *.
  assert (srt ≡ₚ zip a (seq 0 (length a))) as Hperm.
  { unfold srt. generalize (zip a (seq 0 (length a))).
    induction l as [|u l IH]; simpl; [done|]. by rewrite insert_asc_perm, IH. }
  assert (StronglySorted (fun u v : Q * nat => (u.1 <= v.1)%Q) srt) as Hsorted.
  { unfold srt. generalize (zip a (seq 0 (length a))).
    induction l as [|u l IH]; simpl; [constructor|]. by apply insert_asc_sorted. }
  change (map snd srt) with (srt.*2) in Hi, Hp.
  rewrite list_lookup_fmap in Hi, Hp.
  destruct (srt !! i) as [[x' j']|] eqn:Hsi; [|done].
  destruct (srt !! kth) as [[y' p']|] eqn:Hsp; [|done].
  simpl in Hi, Hp. injection Hi as ->. injection Hp as ->.
  pose proof (list_elem_of_lookup_2 _ _ _ Hsi) as Hxi.
  pose proof (list_elem_of_lookup_2 _ _ _ Hsp) as Hyp.
  rewrite Hperm in Hxi, Hyp.
  apply elem_of_zip_seq in Hxi, Hyp.
  rewrite Hx in Hxi. injection Hxi as <-.
  rewrite Hy in Hyp. injection Hyp as <-.
  split; intros Hlt.
  - apply (strongly_sorted_lookup _ _ _ _ _ _ Hsorted Hlt Hsi Hsp).
  - apply (strongly_sorted_lookup _ _ _ _ _ _ Hsorted Hlt Hsp Hsi).
Qed.

Lemma chunk_sizes_are_immaterial_witness :
  let qdict := [("q1", "a")] in
  let cdict := [("d1", "x"); ("d2", "y"); ("d3", "z"); ("d4", "a")] in
  let relevant_docs : gmap string (gset string) := {[ "q1" := {[ "d2" ]} ]} in
  let self1 := init qdict cdict relevant_docs 10 2 [1] [1] [1] [1] 16 "" in
  let self2 := init qdict cdict relevant_docs 1 4 [1] [1] [1] [1] 16 "" in
  partitions argsort
  /\ 10 <> 0 /\ 2 <> 0 /\ 1 <> 0 /\ 4 <> 0
  /\ compute_max_k self1 = Ok 1
  /\ Forall (fun start => 1 < chunk_length self1 start) (corpus_starts self1)
  /\ Forall (fun start => 1 < chunk_length self2 start) (corpus_starts self2)
  /\ (forall text, text ∈ queries self1 ->
                   tie_free toy_encode toy_cos float32_max self1
                            (toy_encode text))
  /\ toy_call self1 None = toy_call self2 None.
Proof.
  intros qdict cdict relevant_docs self1 self2.
  assert (compute_max_k self1 = Ok 1) as Hmax by reflexivity.
  assert (Forall (fun start => 1 < chunk_length self1 start)
                 (corpus_starts self1)) as Hbig1.
  { change (corpus_starts self1) with [0; 2].
    repeat (apply Forall_cons; split; [vm_compute; lia|]). by apply Forall_nil. }
  assert (Forall (fun start => 1 < chunk_length self2 start)
                 (corpus_starts self2)) as Hbig2.
  { change (corpus_starts self2) with [0].
    repeat (apply Forall_cons; split; [vm_compute; lia|]). by apply Forall_nil. }
  assert (forall text, text ∈ queries self1 ->
            tie_free toy_encode toy_cos float32_max self1 (toy_encode text))
    as Hfree.
  { intros text Hin. change (queries self1) with ["a"] in Hin.
    apply elem_of_cons in Hin as [->|Hin]; [|by apply elem_of_nil in Hin].
    unfold tie_free.
    change (all_hits toy_encode toy_cos float32_max self1 (toy_encode "a"))
      with [ {| corpus_id := "d1"; score := 1 * (1 # 2) |};
             {| corpus_id := "d2"; score := 1 * (3 # 4) |};
             {| corpus_id := "d3"; score := 1 * (1 # 4) |};
             {| corpus_id := "d4"; score := 1 * 1 |} ].
    repeat (apply NoDup_cons; split;
            [intros Hin;
             repeat (apply elem_of_cons in Hin as [Hin|Hin];
                     [vm_compute in Hin; discriminate Hin|]);
             by apply elem_of_nil in Hin|]).
    apply NoDup_nil. done. }
  split; [exact argsort_partitions|].
  split; [lia|]. split; [lia|]. split; [lia|]. split; [lia|].
  split; [exact Hmax|]. split; [exact Hbig1|]. split; [exact Hbig2|].
  split; [exact Hfree|].
  exact (chunk_sizes_are_immaterial toy_encode toy_cos float32_max argsort
           log2_fixed qdict cdict relevant_docs 10 2 1 4 [1] [1] [1] [1] 16
           EmptyString ∅ None (-1)%Z (-1)%Z 1 argsort_partitions
           ltac:(lia) ltac:(lia) ltac:(lia) ltac:(lia) Hmax Hbig1 Hbig2 Hfree).
Defined.

(** X26. The chunked search scores the exact ranking: when
    [np.argpartition] partitions as numpy documents it, no two documents
    have the same similarity to a retained query and every corpus chunk holds
    more than [max_k] documents, lines 85-164 leave the accumulators that
    scoring each retained query on the whole corpus, sorted by decreasing
    similarity, would leave (or raise as that scoring would). *)
Theorem chunked_search_scores_exact_ranking {Emb} (encode : string -> Emb) cos
    fmax argpartition np_log2 (qdict cdict : list (string * string))
    relevant_docs query_chunk_size corpus_chunk_size mrr_at_k ndcg_at_k
    accuracy_at_k precision_recall_at_k batch_size name max_k :
  let self := init qdict cdict relevant_docs query_chunk_size
                corpus_chunk_size mrr_at_k ndcg_at_k accuracy_at_k
                precision_recall_at_k batch_size name in
  partitions argpartition ->
  query_chunk_size <> 0 ->
  corpus_chunk_size <> 0 ->
  compute_max_k self = Ok max_k ->
  Forall (fun start => max_k < chunk_length self start) (corpus_starts self) ->
  (forall text, text ∈ queries self ->
                tie_free encode cos fmax self (encode text)) ->
  accumulate encode cos fmax argpartition np_log2 self
  = for_each (fun x acc => score_query np_log2 self x.1 x.2 acc)
             (zip_with
                (fun qid text =>
                   (sorted_desc (all_hits encode cos fmax self (encode text)),
                    query_docs self qid))
                (queries_ids self) (queries self))
             (init_accumulators self).
Proof.
  intros self Hpart Hq Hc Hmax Hbig Hfree.
  pose proof (partitions_in_range _ Hpart) as Hrange.
  assert (well_formed self) as Hwf by apply init_well_formed.
  rewrite (accumulate_eq encode cos fmax argpartition np_log2 self max_k)
    by done.
  apply (scoring_ext np_log2 self max_k
           (top_hits_of encode cos fmax argpartition self max_k)
           (fun text => sorted_desc (all_hits encode cos fmax self (encode text)))
           (query_docs self) (queries_ids self) (queries self)
           (init_accumulators self) Hmax).
  intros text Hin. unfold top_hits_of.
  exact (top_hits_prefix encode cos fmax argpartition self max_k Hpart
           (proj1 (proj2 Hwf)) Hc (encode text) (Hfree text Hin) Hbig).
Qed.

Lemma chunked_search_scores_exact_ranking_witness :
  let qdict := [("q1", "a")] in
  let cdict := [("d1", "x"); ("d2", "y"); ("d3", "z"); ("d4", "a")] in
  let relevant_docs : gmap string (gset string) := {[ "q1" := {[ "d2" ]} ]} in
  let self := init qdict cdict relevant_docs 10 2 [1] [1] [1] [1] 16 "" in
  partitions argsort
  /\ 10 <> 0 /\ 2 <> 0
  /\ compute_max_k self = Ok 1
  /\ Forall (fun start => 1 < chunk_length self start) (corpus_starts self)
  /\ (forall text, text ∈ queries self ->
                   tie_free toy_encode toy_cos float32_max self
                            (toy_encode text))
  /\ accumulate toy_encode toy_cos float32_max argsort log2_fixed self
     = for_each (fun x acc => score_query log2_fixed self x.1 x.2 acc)
                (zip_with
                   (fun qid text =>
                      (sorted_desc (all_hits toy_encode toy_cos float32_max
                                             self (toy_encode text)),
                       query_docs self qid))
                   (queries_ids self) (queries self))
                (init_accumulators self).
Proof.
  intros qdict cdict relevant_docs self.
  assert (compute_max_k self = Ok 1) as Hmax by reflexivity.
  assert (Forall (fun start => 1 < chunk_length self start)
                 (corpus_starts self)) as Hbig.
  { change (corpus_starts self) with [0; 2].
    repeat (apply Forall_cons; split; [vm_compute; lia|]). by apply Forall_nil. }
  assert (forall text, text ∈ queries self ->
            tie_free toy_encode toy_cos float32_max self (toy_encode text))
    as Hfree.
  { intros text Hin. change (queries self) with ["a"] in Hin.
    apply elem_of_cons in Hin as [->|Hin]; [|by apply elem_of_nil in Hin].
    unfold tie_free.
    change (all_hits toy_encode toy_cos float32_max self (toy_encode "a"))
      with [ {| corpus_id := "d1"; score := 1 * (1 # 2) |};
             {| corpus_id := "d2"; score := 1 * (3 # 4) |};
             {| corpus_id := "d3"; score := 1 * (1 # 4) |};
             {| corpus_id := "d4"; score := 1 * 1 |} ].
    repeat (apply NoDup_cons; split;
            [intros Hin;
             repeat (apply elem_of_cons in Hin as [Hin|Hin];
                     [vm_compute in Hin; discriminate Hin|]);
             by apply elem_of_nil in Hin|]).
    apply NoDup_nil. done. }
  split; [exact argsort_partitions|]. split; [lia|]. split; [lia|].
  split; [exact Hmax|]. split; [exact Hbig|]. split; [exact Hfree|].
  exact (chunked_search_scores_exact_ranking toy_encode toy_cos float32_max
           argsort log2_fixed qdict cdict relevant_docs 10 2 [1] [1] [1] [1] 16
           EmptyString 1 argsort_partitions ltac:(lia) ltac:(lia) Hmax Hbig
           Hfree).
Defined.
